(** * Trading-APP: the quantitative core of [pages/api/stock.js] and of the
      portfolio component, embedded in Rocq.

    The JavaScript functions are translated one for one.  Arithmetic on JS
    numbers is kept abstract behind the class [JSNumber], so every function
    below is a single definition that can be run on IEEE binary64 numbers
    (instance [float64], the arithmetic the program really uses) and reasoned
    about over exact arithmetic that keeps the IEEE special values
    (instance [xreal]: a real number, +Infinity, -Infinity or NaN; rounding,
    overflow and the sign of zero are not represented there).

    Arrays are lists; an array of numbers and nulls is a list of [jsval].
    Indices and periods are integers ([Z]), so that [period - 1] may be
    negative as in the source.  A function that can raise a TypeError
    returns a [result]; [Math.random()] is a sequence [rnd : nat -> T] of
    which each call takes the next value.  The properties that hold for any
    arithmetic are stated for every [JSNumber]; those that need the order or
    the field laws are stated over [xreal]; the evaluations on concrete
    inputs are in binary64, and where binary64 departs from a statement of
    the specification that holds over exact arithmetic, a lemma evaluated
    in binary64 shows the departure. *)

From Stdlib Require Uint63 Ascii String FloatAxioms SpecFloat.
From Stdlib Require Import PrimFloat.
From Stdlib Require Import List Bool Arith ZArith Lia Permutation Sorted.
From Stdlib Require Import Reals Lra.
Import ListNotations.

Set Implicit Arguments.

(** ** JavaScript values, exceptions and array helpers *)

(** The operations of the JS [number] type that the program uses. *)
Class JSNumber (T : Type) : Type := {
  of_Z : Z -> T;               (* an integer literal, index or length used as a number *)
  nan : T;                     (* NaN, also what [undefined] turns into in arithmetic *)
  add : T -> T -> T;           (* a + b *)
  sub : T -> T -> T;           (* a - b *)
  mul : T -> T -> T;           (* a * b *)
  div : T -> T -> T;           (* a / b *)
  neg : T -> T;                (* -a *)
  jmax : T -> T -> T;          (* Math.max(a, b) *)
  jsqrt : T -> T;              (* Math.sqrt(a) *)
  gt : T -> T -> bool;         (* a > b *)
  strict_neq : T -> T -> bool; (* a !== b *)
  falsy : T -> bool            (* !a *)
}.

(** The only exception the modelled code can raise: [reduce] without an
    initial value on an empty array. *)
Inductive error : Type := TypeError.

Inductive result (A : Type) : Type :=
| Ok (a : A)
| Throw (e : error).
Arguments Ok {A} a.
Arguments Throw {A} e.

Definition bind {A B} (r : result A) (k : A -> result B) : result B :=
  match r with
  | Ok a => k a
  | Throw e => Throw e
  end.

Notation "x <- r ;; k" := (bind r (fun x => k))
  (at level 61, r at next level, right associativity).

(** [for (let i = lo; i < hi; i++) body], the loop state passed along. *)
Fixpoint for_loop {S} (body : Z -> S -> result S) (idxs : list Z) (s : S)
  : result S :=
  match idxs with
  | [] => Ok s
  | i :: rest => s' <- body i s ;; for_loop body rest s'
  end.

Definition range (lo hi : nat) : list Z := map Z.of_nat (seq lo (hi - lo)).

Definition len {A} (l : list A) : Z := Z.of_nat (length l).

(** [Array.prototype.slice(s, e)], negative arguments counting from the end. *)
Definition clamp_index (n k : Z) : Z :=
  if (k <? 0)%Z then Z.max (n + k) 0 else Z.min k n.

Definition slice {A} (l : list A) (s e : Z) : list A :=
  let from := clamp_index (len l) s in
  let to := clamp_index (len l) e in
  firstn (Z.to_nat (to - from)) (skipn (Z.to_nat from) l).

(** [l[k]]: [None] stands for [undefined] (index out of range). *)
Definition lookup {A} (l : list A) (k : Z) : option A :=
  if (k <? 0)%Z then None else nth_error l (Z.to_nat k).

(** [l.map((x, index) => f index x)]. *)
Fixpoint mapi_from {A B} (f : Z -> A -> B) (k : Z) (l : list A) : list B :=
  match l with
  | [] => []
  | x :: r => f k x :: mapi_from f (k + 1)%Z r
  end.

Definition mapi {A B} (f : Z -> A -> B) (l : list A) : list B :=
  mapi_from f 0%Z l.

Section Indicators.
Context {T : Type} `{JSNumber T}.

(** An entry of an indicator series: a number or [null]; [Undefined] is what
    reading outside an array gives. *)
Inductive jsval : Type :=
| Undefined
| Null
| Num (x : T).

Definition zero : T := of_Z 0.

(** ToNumber. *)
Definition to_number (v : jsval) : T :=
  match v with
  | Undefined => nan
  | Null => zero
  | Num x => x
  end.

(** [!v]. *)
Definition not_ (v : jsval) : bool :=
  match v with
  | Undefined => true
  | Null => true
  | Num x => falsy x
  end.

Definition is_null (v : jsval) : bool :=
  match v with
  | Null => true
  | _ => false
  end.

(** [prices[k]] read as a number. *)
Definition at_ (l : list T) (k : Z) : T :=
  match lookup l k with
  | Some x => x
  | None => nan
  end.

(** [arr[k]] of an array of numbers and nulls. *)
Definition read (l : list jsval) (k : Z) : jsval :=
  match lookup l k with
  | Some v => v
  | None => Undefined
  end.

(** [l.reduce((a, b) => a + b, 0)]. *)
Definition sum0 (l : list T) : T := fold_left add l zero.

(** [l.reduce((a, b) => a + b)]: a TypeError on the empty array. *)
Definition reduce1 (l : list T) : result T :=
  match l with
  | [] => Throw TypeError
  | x :: r => Ok (fold_left add r x)
  end.

(** *** stock.js, calculateSMA *)
Definition calculateSMA (prices : list T) (period : Z) : list jsval :=
  fold_left
    (fun sma i =>
       if (i <? period - 1)%Z then sma ++ [Null]
       else
         let sum := sum0 (slice prices (i - period + 1) (i + 1)) in
         sma ++ [Num (div sum (of_Z period))])
    (range 0 (length prices)) [].

(** *** stock.js, calculateRSI *)
Definition rsi_step (prices : list T) (period : Z) (i : Z)
    (st : list jsval * list T * list T)
  : result (list jsval * list T * list T) :=
  let '(rsi, gains, losses) := st in
  let difference := sub (at_ prices i) (at_ prices (i - 1)) in
  let gains := gains ++ [jmax difference zero] in
  let losses := losses ++ [jmax (neg difference) zero] in
  if (i <? period)%Z then Ok (rsi ++ [Null], gains, losses)
  else
    sg <- reduce1 (slice gains (i - period) i) ;;
    let avgGain := div sg (of_Z period) in
    sl <- reduce1 (slice losses (i - period) i) ;;
    let avgLoss := div sl (of_Z period) in
    let rs := div avgGain avgLoss in
    Ok (rsi ++ [Num (sub (of_Z 100) (div (of_Z 100) (add (of_Z 1) rs)))],
        gains, losses).

Definition calculateRSI (prices : list T) (period : Z) : result (list jsval) :=
  st <- for_loop (rsi_step prices period) (range 1 (length prices))
          ([], [], []) ;;
  Ok (fst (fst st)).

(** *** stock.js, calculateEMA *)
Definition ema_step (prices : list T) (period : Z) (i : Z) (ema : list jsval)
  : result (list jsval) :=
  let multiplier := div (of_Z 2) (of_Z (period + 1)) in
  if (i <? period - 1)%Z then Ok (ema ++ [Null])
  else if (i =? period - 1)%Z then
    s <- reduce1 (slice prices 0 period) ;;
    let sma := div s (of_Z period) in
    Ok (ema ++ [Num sma])
  else
    let prev := to_number (read ema (i - 1)) in
    Ok (ema ++ [Num (add (mul (sub (at_ prices i) prev) multiplier) prev)]).

Definition calculateEMA (prices : list T) (period : Z) : result (list jsval) :=
  for_loop (ema_step prices period) (range 0 (length prices)) [].

(** *** stock.js, calculateMACD *)
Record macd_result : Type := {
  macd : list jsval;
  signal : list jsval
}.

Definition macd_entry (ema26 : list jsval) (i : Z) (fast : jsval) : jsval :=
  if not_ fast || not_ (read ema26 i) then Null
  else Num (sub (to_number fast) (to_number (read ema26 i))).

Definition calculateMACD (prices : list T)
    (fastPeriod slowPeriod signalPeriod : Z) : result macd_result :=
  ema12 <- calculateEMA prices fastPeriod ;;
  ema26 <- calculateEMA prices slowPeriod ;;
  let macdLine := mapi (macd_entry ema26) ema12 in
  signalLine <-
    calculateEMA
      (map to_number (filter (fun x => negb (is_null x)) macdLine))
      signalPeriod ;;
  Ok {| macd := macdLine; signal := signalLine |}.

(** *** stock.js, calculateDailyReturns *)
Definition calculateDailyReturns (prices : list T) : list T :=
  mapi
    (fun index price =>
       if (index =? 0)%Z then zero
       else div (sub price (at_ prices (index - 1))) (at_ prices (index - 1)))
    prices.

End Indicators.

Arguments jsval T : clear implicits.
Arguments macd_result T : clear implicits.

(** ** The portfolio component (StockAnalysisApp) *)

(** [l[k] = v] for an index inside the array.  Every write of the modelled
    code is in range (the loops run over the length of the array they
    write); outside the range the list is returned as it is. *)
Fixpoint set_nth {A} (l : list A) (k : nat) (v : A) : list A :=
  match l, k with
  | [], _ => []
  | _ :: r, O => v :: r
  | x :: r, S k' => x :: set_nth r k' v
  end.

Definition set_at {A} (l : list A) (k : Z) (v : A) : list A :=
  if (k <? 0)%Z then l else set_nth l (Z.to_nat k) v.

(** [l.reduce((acc, x, i) => f acc x i, init)]. *)
Fixpoint reducei_from {A B} (f : B -> A -> Z -> B) (k : Z) (l : list A) (acc : B)
  : B :=
  match l with
  | [] => acc
  | x :: r => reducei_from f (k + 1)%Z r (f acc x k)
  end.

Definition reducei {A B} (f : B -> A -> Z -> B) (l : list A) (init : B) : B :=
  reducei_from f 0%Z l init.

Section Portfolio.
Context {T : Type} `{JSNumber T}.

(** [Math.pow(x, 2)], taken as the product [x * x]. *)
Definition pow2 (x : T) : T := mul x x.

(** [m[i][j]] read as a number: reading a row that does not exist throws,
    a missing column gives [undefined]. *)
Definition at2 (m : list (list T)) (i j : Z) : result T :=
  match lookup m i with
  | Some row => Ok (at_ row j)
  | None => Throw TypeError
  end.

(** [m[i][j] = v]. *)
Definition set_at2 (m : list (list T)) (i j : Z) (v : T)
  : result (list (list T)) :=
  match lookup m i with
  | Some row => Ok (set_at m i (set_at row j v))
  | None => Throw TypeError
  end.

(** The object returned by calculatePortfolioMetrics. *)
Record metrics : Type := {
  m_return : T;
  m_volatility : T;
  m_sharpeRatio : T
}.

(** *** calculatePortfolioMetrics *)
Definition calculatePortfolioMetrics (weights : list T)
    (returns : list (list T)) : metrics :=
  let portfolioReturns :=
    map (fun dayReturns =>
           reducei (fun sum ret i => add sum (mul ret (at_ weights i)))
             dayReturns zero)
        returns in
  let meanReturn := div (sum0 portfolioReturns) (of_Z (len portfolioReturns)) in
  let variance :=
    div (fold_left (fun sum ret => add sum (pow2 (sub ret meanReturn)))
           portfolioReturns zero)
        (of_Z (len portfolioReturns)) in
  let volatility := jsqrt (mul variance (of_Z 252)) in
  let annualizedReturn := mul meanReturn (of_Z 252) in
  {| m_return := annualizedReturn;
     m_volatility := volatility;
     m_sharpeRatio :=
       if strict_neq volatility zero then div annualizedReturn volatility
       else zero |}.

(** *** calculateCovarianceMatrix *)
Definition mean_accumulate (returnsData : list (list T)) (numStocks : nat)
    (i : Z) (meanReturns : list T) : result (list T) :=
  for_loop
    (fun j meanReturns =>
       x <- at2 returnsData i j ;;
       Ok (set_at meanReturns j (add (at_ meanReturns j) x)))
    (range 0 numStocks) meanReturns.

Definition mean_divide (numDays : nat) (j : Z) (meanReturns : list T)
  : result (list T) :=
  Ok (set_at meanReturns j (div (at_ meanReturns j) (of_Z (Z.of_nat numDays)))).

Definition cov_cell (returnsData : list (list T)) (meanReturns : list T)
    (numDays : nat) (i j : Z) (covarianceMatrix : list (list T))
  : result (list (list T)) :=
  sumProduct <-
    for_loop
      (fun k sumProduct =>
         a <- at2 returnsData k i ;;
         b <- at2 returnsData k j ;;
         Ok (add sumProduct
               (mul (sub a (at_ meanReturns i)) (sub b (at_ meanReturns j)))))
      (range 0 numDays) zero ;;
  set_at2 covarianceMatrix i j
    (div sumProduct (of_Z (Z.of_nat numDays - 1))).

Definition calculateCovarianceMatrix (returnsData : list (list T))
  : result (list (list T)) :=
  match returnsData with
  | [] => Ok []
  | row0 :: _ =>
    if (length row0 =? 0)%nat then Ok []
    else
      let numStocks := length row0 in
      let numDays := length returnsData in
      let meanReturns := repeat zero numStocks in
      meanReturns <-
        for_loop (mean_accumulate returnsData numStocks)
          (range 0 numDays) meanReturns ;;
      meanReturns <-
        for_loop (mean_divide numDays) (range 0 numStocks) meanReturns ;;
      let covarianceMatrix := repeat (repeat zero numStocks) numStocks in
      for_loop
        (fun i covarianceMatrix =>
           for_loop (cov_cell returnsData meanReturns numDays i)
             (range 0 numStocks) covarianceMatrix)
        (range 0 numStocks) covarianceMatrix
  end.

(** A selected stock; of its fields the analytics read only [dailyReturns]. *)
Record stock : Type := { dailyReturns : list T }.

(** A point of the efficient frontier. *)
Record point : Type := {
  risk : T;
  p_return : T;
  sharpeRatio : T;
  weights : list T
}.

(** [Array.from({length: K}, () => Math.random())] followed by the division
    by the sum.  [rnd k] is the value of the k-th call of [Math.random()];
    [n] counts the calls made so far. *)
Definition random_weights (rnd : nat -> T) (K : nat) (n : nat) : list T :=
  let weights := map rnd (seq n K) in
  let sum := sum0 weights in
  map (fun w => div w sum) weights.

(** [arr.sort((a, b) => a.risk - b.risk)]: a stable insertion sort driven by
    the sign of the comparator. *)
Fixpoint insert_by_risk (x : point) (l : list point) : list point :=
  match l with
  | [] => [x]
  | y :: r =>
    if gt zero (sub (risk x) (risk y)) then x :: y :: r
    else y :: insert_by_risk x r
  end.

Definition sort_by_risk (l : list point) : list point :=
  fold_left (fun acc x => insert_by_risk x acc) l [].

(** *** generateEfficientFrontier *)
Definition frontier_step (selectedStocks : list stock)
    (returns : list (list T)) (rnd : nat -> T) (i : Z)
    (frontierPoints : list point) : list point :=
  let weights :=
    random_weights rnd (length selectedStocks)
      (Z.to_nat i * length selectedStocks) in
  let metrics := calculatePortfolioMetrics weights returns in
  frontierPoints ++
    [{| risk := m_volatility metrics;
        p_return := m_return metrics;
        sharpeRatio := m_sharpeRatio metrics;
        weights := weights |}].

Definition generateEfficientFrontier (selectedStocks : list stock)
    (rnd : nat -> T) : list point :=
  if (length selectedStocks =? 0)%nat then []
  else
    let returns :=
      map (fun i => map (fun stock => at_ (dailyReturns stock) i) selectedStocks)
        (range 0 252) in
    let numPoints := 50%nat in
    let frontierPoints :=
      fold_left (fun pts i => frontier_step selectedStocks returns rnd i pts)
        (range 0 numPoints) [] in
    sort_by_risk frontierPoints.

(** *** findMaxSharpeRatio; [None] is [null]. *)
Definition findMaxSharpeRatio (frontierPoints : list point) : option point :=
  match frontierPoints with
  | [] => None
  | first :: _ =>
    Some (fold_left
            (fun max point =>
               if gt (sharpeRatio point) (sharpeRatio max) then point else max)
            frontierPoints first)
  end.

(** A Monte Carlo sample. *)
Record sample : Type := {
  s_return : T;
  s_volatility : T
}.

(** *** runMonteCarloSimulation: one iteration of the simulation loop, for
    the weights it has drawn. *)
Definition monte_carlo_trial (numStocks : nat) (covMatrix : list (list T))
    (meanDailyReturns : list T) (weights : list T) : result sample :=
  let portfolioExpectedAnnualReturn :=
    fold_left
      (fun acc j =>
         add acc (mul (mul (at_ weights j) (at_ meanDailyReturns j)) (of_Z 252)))
      (range 0 numStocks) zero in
  portfolioVariance <-
    for_loop
      (fun r acc =>
         for_loop
           (fun c acc =>
              x <- at2 covMatrix r c ;;
              Ok (add acc (mul (mul (at_ weights r) (at_ weights c)) x)))
           (range 0 numStocks) acc)
      (range 0 numStocks) zero ;;
  let portfolioVolatility := jsqrt (mul portfolioVariance (of_Z 252)) in
  Ok {| s_return := portfolioExpectedAnnualReturn;
        s_volatility := portfolioVolatility |}.

Definition transposedReturns (stockDailyReturns : list (list T))
  : list (list T) :=
  match stockDailyReturns with
  | [] => []
  | first :: _ =>
    mapi (fun colIndex _ => map (fun row => at_ row colIndex) stockDailyReturns)
      first
  end.

Definition meanDailyReturns (selectedStocks : list stock) : list T :=
  map (fun stock =>
         div (sum0 (dailyReturns stock)) (of_Z (len (dailyReturns stock))))
    selectedStocks.

(** [None] is the [null] returned when no stock is selected. *)
Definition runMonteCarloSimulation (selectedStocks : list stock)
    (rnd : nat -> T) (numSimulations : nat) : result (option (list sample)) :=
  if (length selectedStocks =? 0)%nat then Ok None
  else
    let stockDailyReturns := map dailyReturns selectedStocks in
    covMatrix <- calculateCovarianceMatrix (transposedReturns stockDailyReturns) ;;
    let means := meanDailyReturns selectedStocks in
    results <-
      for_loop
        (fun i results =>
           let weights :=
             random_weights rnd (length selectedStocks)
               (Z.to_nat i * length selectedStocks) in
           s <- monte_carlo_trial (length selectedStocks) covMatrix means weights ;;
           Ok (results ++ [s]))
        (range 0 numSimulations) [] ;;
    Ok (Some results).

End Portfolio.

Arguments metrics T : clear implicits.
Arguments stock T : clear implicits.
Arguments point T : clear implicits.
Arguments sample T : clear implicits.

(** ** The two arithmetics *)

(** *** IEEE binary64, the JS [number] type itself *)
Module Float64.

Definition float_of_Z (z : Z) : PrimFloat.float :=
  match z with
  | Z0 => PrimFloat.zero
  | Zpos _ => PrimFloat.of_uint63 (Uint63.of_Z z)
  | Zneg p => PrimFloat.opp (PrimFloat.of_uint63 (Uint63.of_Z (Zpos p)))
  end.

(** [Math.max]: NaN if an argument is NaN, and +0 is larger than -0. *)
Definition float_max (a b : PrimFloat.float) : PrimFloat.float :=
  if PrimFloat.is_nan a || PrimFloat.is_nan b then PrimFloat.nan
  else if PrimFloat.ltb a b then b
  else if PrimFloat.ltb b a then a
  else if PrimFloat.eqb a PrimFloat.zero then PrimFloat.add a b
  else a.

Definition float_falsy (a : PrimFloat.float) : bool :=
  PrimFloat.is_nan a || PrimFloat.eqb a PrimFloat.zero.

End Float64.

#[export] Instance float64 : JSNumber PrimFloat.float := {|
  of_Z := Float64.float_of_Z;
  nan := PrimFloat.nan;
  add := PrimFloat.add;
  sub := PrimFloat.sub;
  mul := PrimFloat.mul;
  div := PrimFloat.div;
  neg := PrimFloat.opp;
  jmax := Float64.float_max;
  jsqrt := PrimFloat.sqrt;
  gt := fun a b => PrimFloat.ltb b a;
  strict_neq := fun a b => negb (PrimFloat.eqb a b);
  falsy := Float64.float_falsy
|}.

(** *** Exact arithmetic with the IEEE special values *)
Inductive xreal : Type :=
| XNaN
| PInf
| NInf
| Fin (r : R).

Module XReal.
Local Open Scope R_scope.

Definition xadd (a b : xreal) : xreal :=
  match a, b with
  | XNaN, _ | _, XNaN => XNaN
  | PInf, NInf | NInf, PInf => XNaN
  | PInf, _ | _, PInf => PInf
  | NInf, _ | _, NInf => NInf
  | Fin x, Fin y => Fin (x + y)
  end.

Definition xneg (a : xreal) : xreal :=
  match a with
  | XNaN => XNaN
  | PInf => NInf
  | NInf => PInf
  | Fin x => Fin (- x)
  end.

Definition xsub (a b : xreal) : xreal :=
  match a, b with
  | XNaN, _ | _, XNaN => XNaN
  | PInf, PInf | NInf, NInf => XNaN
  | PInf, _ | _, NInf => PInf
  | NInf, _ | _, PInf => NInf
  | Fin x, Fin y => Fin (x - y)
  end.

(** An infinity of sign [positive] times (or divided by) a finite [y]. *)
Definition signed_inf (positive : bool) : xreal :=
  if positive then PInf else NInf.

Definition inf_times (positive : bool) (y : R) : xreal :=
  if Rlt_dec 0 y then signed_inf positive
  else if Rlt_dec y 0 then signed_inf (negb positive)
  else XNaN.

Definition xmul (a b : xreal) : xreal :=
  match a, b with
  | XNaN, _ | _, XNaN => XNaN
  | PInf, PInf | NInf, NInf => PInf
  | PInf, NInf | NInf, PInf => NInf
  | PInf, Fin y | Fin y, PInf => inf_times true y
  | NInf, Fin y | Fin y, NInf => inf_times false y
  | Fin x, Fin y => Fin (x * y)
  end.

Definition xdiv (a b : xreal) : xreal :=
  match a, b with
  | XNaN, _ | _, XNaN => XNaN
  | (PInf | NInf), (PInf | NInf) => XNaN
  | PInf, Fin y => if Rlt_dec y 0 then NInf else PInf
  | NInf, Fin y => if Rlt_dec y 0 then PInf else NInf
  | Fin _, (PInf | NInf) => Fin 0
  | Fin x, Fin y =>
    if Req_dec_T y 0 then
      if Rlt_dec 0 x then PInf
      else if Rlt_dec x 0 then NInf
      else XNaN
    else Fin (x / y)
  end.

Definition xmax (a b : xreal) : xreal :=
  match a, b with
  | XNaN, _ | _, XNaN => XNaN
  | PInf, _ | _, PInf => PInf
  | NInf, c | c, NInf => c
  | Fin x, Fin y => Fin (Rmax x y)
  end.

Definition xsqrt (a : xreal) : xreal :=
  match a with
  | XNaN | NInf => XNaN
  | PInf => PInf
  | Fin x => if Rlt_dec x 0 then XNaN else Fin (R_sqrt.sqrt x)
  end.

Definition xgt (a b : xreal) : bool :=
  match a, b with
  | XNaN, _ | _, XNaN => false
  | _, PInf => false
  | PInf, _ => true
  | NInf, _ => false
  | Fin _, NInf => true
  | Fin x, Fin y => if Rlt_dec y x then true else false
  end.

Definition xstrict_neq (a b : xreal) : bool :=
  match a, b with
  | XNaN, _ | _, XNaN => true
  | PInf, PInf | NInf, NInf => false
  | Fin x, Fin y => if Req_dec_T x y then false else true
  | _, _ => true
  end.

Definition xfalsy (a : xreal) : bool :=
  match a with
  | XNaN => true
  | Fin x => if Req_dec_T x 0 then true else false
  | _ => false
  end.

End XReal.

#[export] Instance xreal_number : JSNumber xreal := {|
  of_Z := fun z => Fin (IZR z);
  nan := XNaN;
  add := XReal.xadd;
  sub := XReal.xsub;
  mul := XReal.xmul;
  div := XReal.xdiv;
  neg := XReal.xneg;
  jmax := XReal.xmax;
  jsqrt := XReal.xsqrt;
  gt := XReal.xgt;
  strict_neq := XReal.xstrict_neq;
  falsy := XReal.xfalsy
|}.


(** ** The rest of the two files *)

(** The comparison [a <= b] of two JS numbers; [a >= b] is [b <= a]. *)
Class JSCompare (T : Type) : Type := {
  lte : T -> T -> bool
}.

#[export] Instance float64_compare : JSCompare float := {|
  lte := PrimFloat.leb
|}.

Definition xle (a b : xreal) : bool :=
  match a, b with
  | XNaN, _ | _, XNaN => false
  | NInf, _ => true
  | _, PInf => true
  | PInf, _ => false
  | _, NInf => false
  | Fin x, Fin y => if Rle_dec x y then true else false
  end.

#[export] Instance xreal_compare : JSCompare xreal := {|
  lte := xle
|}.

(** *** The keys of an object, in the order of [Object.keys] *)

(** An object used as a map from strings: its properties in the order of
    their creation. *)
Definition object (V : Type) : Type := list (String.string * V).

Fixpoint get_property {V} (o : object V) (key : String.string) : option V :=
  match o with
  | [] => None
  | (k, v) :: rest => if String.eqb k key then Some v else get_property rest key
  end.

(** [o[key] = v]: an existing property keeps its place. *)
Fixpoint set_property {V} (o : object V) (key : String.string) (v : V) : object V :=
  match o with
  | [] => [(key, v)]
  | (k, w) :: rest =>
    if String.eqb k key then (k, v) :: rest
    else (k, w) :: set_property rest key v
  end.

Definition digit_value (c : Ascii.ascii) : option N :=
  let n := Ascii.N_of_ascii c in
  if ((48 <=? n) && (n <=? 57))%N then Some (n - 48)%N else None.

Fixpoint parse_digits (s : String.string) (acc : N) : option N :=
  match s with
  | String.EmptyString => Some acc
  | String.String c rest =>
    match digit_value c with
    | Some d => parse_digits rest (acc * 10 + d)%N
    | None => None
    end
  end.

(** A key is an array index when it is the canonical decimal form of an
    integer from 0 to 2^32 - 2. *)
Definition array_index (s : String.string) : option N :=
  match s with
  | String.EmptyString => None
  | String.String c rest =>
    match digit_value c with
    | Some 0%N =>
      match rest with
      | String.EmptyString => Some 0%N
      | _ => None
      end
    | Some _ =>
      match parse_digits s 0 with
      | Some n => if (n <=? 4294967294)%N then Some n else None
      | None => None
      end
    | None => None
    end
  end.

Fixpoint insert_index (n : N) (k : String.string)
    (l : list (N * String.string)) : list (N * String.string) :=
  match l with
  | [] => [(n, k)]
  | (m, j) :: rest =>
    if (n <? m)%N then (n, k) :: (m, j) :: rest
    else (m, j) :: insert_index n k rest
  end.

(** [Object.keys(o)]: the array indices in ascending order, then the other
    keys in the order of their creation. *)
Definition object_keys {V} (o : object V) : list String.string :=
  let ks := map fst o in
  let indices :=
    fold_left
      (fun acc k =>
         match array_index k with
         | Some n => insert_index n k acc
         | None => acc
         end)
      ks [] in
  map snd indices
  ++ filter (fun k => match array_index k with Some _ => false | None => true end)
       ks.

(** Whether a key is an array index. *)
Definition is_index (k : String.string) : bool :=
  match array_index k with
  | Some _ => true
  | None => false
  end.

(** The names that every object inherits from [Object.prototype]. *)
Module ObjectPrototype.
Import String.
Local Open Scope string_scope.

Definition proto : string := "__proto__".

Definition inherited_names : list string :=
  ["constructor"; "hasOwnProperty"; "isPrototypeOf"; "propertyIsEnumerable";
   "toLocaleString"; "toString"; "valueOf"; "__defineGetter__";
   "__defineSetter__"; "__lookupGetter__"; "__lookupSetter__"; "__proto__"].

End ObjectPrototype.

Section Remainder.
Context {T : Type} `{JSNumber T} `{JSCompare T}.

(** *** stock.js, handler: from the closing prices to the fields of the
    response that are computed from them *)
Record indicator_fields : Type := {
  f_sma20 : jsval T;
  f_sma50 : jsval T;
  f_rsi : jsval T;
  f_macd : jsval T;
  f_macdSignal : jsval T;
  f_dailyReturns : list T;
  f_historicalPrices : list T
}.

(** [arr[arr.length - 1]]. *)
Definition last_entry (arr : list (jsval T)) : jsval T := read arr (len arr - 1).

Definition handler_indicators (prices : list T) : result indicator_fields :=
  let sma20 := calculateSMA prices 20 in
  let sma50 := calculateSMA prices 50 in
  rsi <- calculateRSI prices 14 ;;
  macdData <- calculateMACD prices 12 26 9 ;;
  let dailyReturns := calculateDailyReturns prices in
  Ok {| f_sma20 := last_entry sma20;
        f_sma50 := last_entry sma50;
        f_rsi := last_entry rsi;
        f_macd := last_entry (macd macdData);
        f_macdSignal := last_entry (signal macdData);
        f_dailyReturns := dailyReturns;
        f_historicalPrices := prices |}.

(** *** The screening effect *)

(** A stock as the screening reads it. *)
Record listing : Type := {
  symbol : String.string;
  sector : String.string;
  pe : T;
  pb : T;
  roe : T;
  roi : T;
  debtToEquity : T;
  peg : T;
  eps : T
}.

Record screening_criteria : Type := {
  maxPE : T;
  maxPB : T;
  minROE : T;
  minROI : T;
  maxDebtToEquity : T;
  maxPEG : T;
  minEPS : T
}.

Definition passes (criteria : screening_criteria) (stock : listing) : bool :=
  lte (pe stock) (maxPE criteria)
  && lte (pb stock) (maxPB criteria)
  && lte (minROE criteria) (roe stock)
  && lte (minROI criteria) (roi stock)
  && lte (debtToEquity stock) (maxDebtToEquity criteria)
  && lte (peg stock) (maxPEG criteria)
  && lte (minEPS criteria) (eps stock).

(** A value stored in sectorCounts: a count, or the string that [+ 1] makes
    of a function inherited from [Object.prototype] (and of such a string
    again). *)
Inductive counter : Type :=
| Count (c : nat)
| Text.

(** [sectorCounts[stock.sector] = (sectorCounts[stock.sector] || 0) + 1].
    The read falls back to [Object.prototype]; the write creates an own
    property, except for [__proto__], whose setter ignores a string. *)
Definition count_sector (sectorCounts : object counter) (stock : listing)
  : object counter :=
  let key := sector stock in
  if String.eqb key ObjectPrototype.proto then sectorCounts
  else
    match get_property sectorCounts key with
    | Some (Count c) =>
      set_property sectorCounts key
        (Count ((if (c =? 0)%nat then 0 else c) + 1))
    | Some Text => set_property sectorCounts key Text
    | None =>
      if existsb (String.eqb key) ObjectPrototype.inherited_names
      then set_property sectorCounts key Text
      else set_property sectorCounts key (Count (0 + 1))
    end.

(** [sectorCounts[sector] > 0] for a key of sectorCounts; the string of an
    inherited name is not a number. *)
Definition positive_count (sectorCounts : object counter) (sec : String.string)
  : bool :=
  match get_property sectorCounts sec with
  | Some (Count c) => (0 <? c)%nat
  | Some Text => false
  | None => false
  end.

(** The first loop over the first four sectors. *)
Definition pick_first (filtered : list listing)
    (st : list listing * list String.string) (sec : String.string)
  : list listing * list String.string :=
  let '(topStocks, usedSectors) := st in
  let sectorStocks := filter (fun stock => String.eqb (sector stock) sec) filtered in
  match sectorStocks with
  | first :: _ =>
    if existsb (String.eqb sec) usedSectors then (topStocks, usedSectors)
    else (topStocks ++ [first], usedSectors ++ [sec])
  | [] => (topStocks, usedSectors)
  end.

(** [arr.sort((a, b) => (b.roe + b.roi) - (a.roe + a.roi))]: a stable
    insertion sort driven by the sign of the comparator. *)
Fixpoint insert_by_score (x : listing) (l : list listing) : list listing :=
  match l with
  | [] => [x]
  | y :: r =>
    if gt zero (sub (add (roe y) (roi y)) (add (roe x) (roi x)))
    then x :: y :: r
    else y :: insert_by_score x r
  end.

Definition sort_by_score (l : list listing) : list listing :=
  fold_left (fun acc x => insert_by_score x acc) l [].

(** [for (let i = 0; topStocks.length < 10 && i < remainingStocks.length; i++)
    topStocks.push(remainingStocks[i])]. *)
Fixpoint fill_up (topStocks remainingStocks : list listing) : list listing :=
  match remainingStocks with
  | [] => topStocks
  | stock :: rest =>
    if (length topStocks <? 10)%nat then fill_up (topStocks ++ [stock]) rest
    else topStocks
  end.

(** The effect that filters the stocks: [None] when it returns without
    setting the state (still loading), otherwise the list that it stores in
    both filteredStocks and selectedStocks. *)
Definition screen_stocks (loading : bool) (criteria : screening_criteria)
    (allStocks : list listing) : option (list listing) :=
  if loading then None
  else
    let filtered := filter (passes criteria) allStocks in
    let sectorCounts := fold_left count_sector filtered [] in
    let sectorsWithStocks :=
      filter (positive_count sectorCounts) (object_keys sectorCounts) in
    if (4 <=? length sectorsWithStocks)%nat then
      let topStocks :=
        fst (fold_left (pick_first filtered) (slice sectorsWithStocks 0 4) ([], [])) in
      let remainingStocks :=
        sort_by_score
          (filter
             (fun stock =>
                negb (existsb (fun ts => String.eqb (symbol ts) (symbol stock))
                        topStocks))
             filtered) in
      let topStocks := fill_up topStocks remainingStocks in
      Some (slice topStocks 0 10)
    else Some [].

(** *** getTechnicalSignal *)
Inductive technical_signal : Type :=
| MA_Buy
| MA_Sell
| RSI_Buy
| RSI_Sell
| MACD_Buy
| MACD_Sell.

(** A stock as getTechnicalSignal reads it; a field may be null or absent. *)
Record quote : Type := {
  q_price : jsval T;
  q_sma20 : jsval T;
  q_sma50 : jsval T;
  q_rsi : jsval T;
  q_macd : jsval T;
  q_macdSignal : jsval T
}.

(** [a > b] and [a < b] on values that are numbers, null or undefined. *)
Definition js_gt (a b : jsval T) : bool := gt (to_number a) (to_number b).

Definition js_lt (a b : jsval T) : bool := gt (to_number b) (to_number a).

Definition getTechnicalSignal (stock : quote) : list technical_signal :=
  let signals := [] in
  let signals :=
    if js_gt (q_price stock) (q_sma20 stock) && js_gt (q_sma20 stock) (q_sma50 stock)
    then signals ++ [MA_Buy]
    else if js_lt (q_price stock) (q_sma20 stock)
            && js_lt (q_sma20 stock) (q_sma50 stock)
    then signals ++ [MA_Sell]
    else signals in
  let signals :=
    if js_lt (q_rsi stock) (Num (of_Z 30)) then signals ++ [RSI_Buy]
    else if js_gt (q_rsi stock) (Num (of_Z 70)) then signals ++ [RSI_Sell]
    else signals in
  let signals :=
    if js_gt (q_macd stock) (q_macdSignal stock) then signals ++ [MACD_Buy]
    else if js_lt (q_macd stock) (q_macdSignal stock) then signals ++ [MACD_Sell]
    else signals in
  signals.

(** A stock object that carries the indicator fields of a response of the
    handler, next to its price. *)
Definition quote_of_response (price : jsval T) (r : indicator_fields)
  : quote :=
  {| q_price := price;
     q_sma20 := f_sma20 r;
     q_sma50 := f_sma50 r;
     q_rsi := f_rsi r;
     q_macd := f_macd r;
     q_macdSignal := f_macdSignal r |}.

(** *** maxSharpePoint, the memo over the efficient frontier *)
Definition maxSharpePoint (selectedStocks : list (stock T)) (rnd : nat -> T)
  : option (point T) :=
  let efficientFrontier := generateEfficientFrontier selectedStocks rnd in
  if (0 <? length efficientFrontier)%nat then findMaxSharpeRatio efficientFrontier
  else None.

End Remainder.

Arguments indicator_fields T : clear implicits.
Arguments listing T : clear implicits.
Arguments screening_criteria T : clear implicits.
Arguments quote T : clear implicits.

(** ** Definitions used to state the properties *)

Section Specification.
Context {T : Type} `{JSNumber T}.

(** The sum of a list of numbers, written out on its own, without the
    [reduce] of the code: the numbers are added to [acc] one after the
    other, in the order of the list. *)
Fixpoint add_up (acc : T) (l : list T) : T :=
  match l with
  | [] => acc
  | x :: rest => add_up (add acc x) rest
  end.

(** The arithmetic mean of a list of numbers, as the specification uses the
    word: the sum of the entries, added up from 0, divided by their count. *)
Definition mean (l : list T) : T := div (add_up zero l) (of_Z (len l)).

(** The entry that the loop of calculateSMA pushes at index [i]. *)
Definition sma_entry (prices : list T) (period : Z) (i : Z) : jsval T :=
  if (i <? period - 1)%Z then Null
  else Num (div (sum0 (slice prices (i - period + 1) (i + 1))) (of_Z period)).

(** Rebuilding a price series from its first price and its daily returns,
    in the specification's words: p[0] = S[0] and
    p[i] = p[i-1] * (1 + returns[i]). *)
Fixpoint rebuild (prev : T) (returns : list T) : list T :=
  match returns with
  | [] => []
  | r :: rest =>
    let p := mul prev (add (of_Z 1) r) in
    p :: rebuild p rest
  end.

Definition reconstruct (s0 : T) (returns : list T) : list T :=
  match returns with
  | [] => []
  | _ :: rest => s0 :: rebuild s0 rest
  end.

(** The callback of the [map] in calculateDailyReturns. *)
Definition daily_return (prices : list T) (index : Z) (price : T) : T :=
  if (index =? 0)%Z then zero
  else div (sub price (at_ prices (index - 1))) (at_ prices (index - 1)).

(** The function folded by findMaxSharpeRatio. *)
Definition keep_max (max p : point T) : point T :=
  if gt (sharpeRatio p) (sharpeRatio max) then p else max.

(** The point pushed by the i-th iteration of generateEfficientFrontier. *)
Definition frontier_point (selectedStocks : list (stock T))
    (returns : list (list T)) (rnd : nat -> T) (i : Z) : point T :=
  let weights :=
    random_weights rnd (length selectedStocks)
      (Z.to_nat i * length selectedStocks) in
  let metrics := calculatePortfolioMetrics weights returns in
  {| risk := m_volatility metrics;
     p_return := m_return metrics;
     sharpeRatio := m_sharpeRatio metrics;
     weights := weights |}.

(** The gain and the loss that the loop of calculateRSI pushes at day [i]. *)
Definition gain (prices : list T) (i : Z) : T :=
  jmax (sub (at_ prices i) (at_ prices (i - 1))) zero.

Definition loss (prices : list T) (i : Z) : T :=
  jmax (neg (sub (at_ prices i) (at_ prices (i - 1)))) zero.

(** The value of [l.reduce((a, b) => a + b)] on an array that is not empty. *)
Definition sum1 (l : list T) : T :=
  match l with
  | [] => nan
  | x :: r => fold_left add r x
  end.

(** [100 - 100 / (1 + avgGain / avgLoss)]. *)
Definition rsi_value (avgGain avgLoss : T) : T :=
  sub (of_Z 100) (div (of_Z 100) (add (of_Z 1) (div avgGain avgLoss))).

(** The days whose gains and losses enter the averages of day [i]. *)
Definition rsi_window (period i : Z) : list Z :=
  range (Z.to_nat (i - period + 1)) (Z.to_nat (i + 1)).

(** The entry that the loop of calculateRSI pushes at day [i]. *)
Definition rsi_entry (prices : list T) (period : Z) (i : Z) : jsval T :=
  if (i <? period)%Z then Null
  else
    Num (rsi_value
           (div (sum1 (map (gain prices) (rsi_window period i))) (of_Z period))
           (div (sum1 (map (loss prices) (rsi_window period i))) (of_Z period))).

(** The mean of column [j] and the entry [i], [j] that the loops of
    calculateCovarianceMatrix compute. *)
Definition cov_mean (returnsData : list (list T)) (j : Z) : T :=
  div (sum0 (map (fun row => at_ row j) returnsData)) (of_Z (len returnsData)).

Definition cov_entry (returnsData : list (list T)) (i j : Z) : T :=
  div (fold_left
         (fun sumProduct row =>
            add sumProduct
              (mul (sub (at_ row i) (cov_mean returnsData i))
                   (sub (at_ row j) (cov_mean returnsData j))))
         returnsData zero)
      (of_Z (len returnsData - 1)).

End Specification.

(** The sum of a list of reals, added from the left as [reduce] does. *)
Definition Rsum (l : list R) : R := fold_left Rplus l 0%R.


(** What the fold keeps: [best] sits at position [k], nothing seen so far
    beats it, and nothing before [k] ties with it. *)
Definition is_first_max (seen : list (point xreal)) (k : nat)
    (best : point xreal) : Prop :=
  nth_error seen k = Some best
  /\ (forall q, In q seen -> gt (sharpeRatio q) (sharpeRatio best) = false)
  /\ (forall j q, (j < k)%nat -> nth_error seen j = Some q ->
        strict_neq (sharpeRatio q) (sharpeRatio best) = true).

(** A series of real prices: the price of day [k], the gain and the loss of
    day [k] against the day before. *)
Definition price (S : list R) (k : Z) : R := nth (Z.to_nat k) S 0%R.

Definition Rgain (S : list R) (k : Z) : R :=
  Rmax (price S k - price S (k - 1)) 0.

Definition Rloss (S : list R) (k : Z) : R :=
  Rmax (- (price S k - price S (k - 1))) 0.

Definition strictly_increasing (S : list R) : Prop :=
  forall k, (1 <= k < len S)%Z -> (price S (k - 1) < price S k)%R.

(** Sums over a list of indices, and the quantities of the two portfolio
    computations over the reals: [D] lists the days, [A] the assets, [x k j] is
    the return of asset [j] on day [k], [w j] the weight of asset [j] and [n]
    the number of days. *)
Definition sumR (l : list Z) (f : Z -> R) : R := Rsum (map f l).

Definition port_ret (A : list Z) (x : Z -> Z -> R) (w : Z -> R) (k : Z) : R :=
  sumR A (fun j => x k j * w j)%R.

Definition port_mean (D A : list Z) (x : Z -> Z -> R) (w : Z -> R) (n : R) : R :=
  (sumR D (port_ret A x w) / n)%R.

Definition port_var (D A : list Z) (x : Z -> Z -> R) (w : Z -> R) (n : R) : R :=
  (sumR D (fun k => (port_ret A x w k - port_mean D A x w n)
                    * (port_ret A x w k - port_mean D A x w n)) / n)%R.

Definition col_mean (D : list Z) (x : Z -> Z -> R) (n : R) (j : Z) : R :=
  (sumR D (fun k => x k j) / n)%R.

Definition cov (D : list Z) (x : Z -> Z -> R) (n : R) (i j : Z) : R :=
  (sumR D (fun k => (x k i - col_mean D x n i) * (x k j - col_mean D x n j))
   / (n - 1))%R.

Definition mc_ret (D A : list Z) (x : Z -> Z -> R) (w : Z -> R) (n : R) : R :=
  sumR A (fun j => w j * col_mean D x n j * 252)%R.

Definition mc_var (D A : list Z) (x : Z -> Z -> R) (w : Z -> R) (n : R) : R :=
  sumR A (fun r => sumR A (fun c => w r * w c * cov D x n r c))%R.

(** The selected stocks whose series of daily returns are the lists of reals
    [cols], the return of asset [j] on day [k], and the day-by-asset matrix of
    the returns [x k j]. *)
Definition stocks_of (cols : list (list R)) : list (stock xreal) :=
  map (fun c => {| dailyReturns := map Fin c |}) cols.

Definition entry (cols : list (list R)) (k j : Z) : R :=
  price (nth (Z.to_nat j) cols []) k.

Definition matrix_of (x : Z -> Z -> R) (N K : nat) : list (list xreal) :=
  map (fun k => map (fun j => Fin (x k j)) (range 0 K)) (range 0 N).

(** Two assets over two days, and equal weights. *)
Definition two_assets : list (list R) := [[1; 3]; [2; 5]]%R.

Definition half_half : list R := [1 / 2; 1 / 2]%R.

(** Sixteen strictly increasing real prices. *)
Definition rising16 : list R :=
  [1; 2; 3; 4; 5; 6; 7; 8; 9; 10; 11; 12; 13; 14; 15; 16]%R.

(** The step of the recurrence of calculateEMA at index [i], from the value
    [prev] at index [i - 1]. *)
Definition ema_next {T} `{JSNumber T} (prices : list T) (period i : Z) (prev : T)
  : T :=
  add (mul (sub (at_ prices i) prev) (div (of_Z 2) (of_Z (period + 1)))) prev.

(** The value with which calculateEMA starts, at index [period - 1]. *)
Definition ema_seed {T} `{JSNumber T} (prices : list T) (period : Z) : T :=
  div (sum1 (slice prices 0 period)) (of_Z period).

(** What the entries of an array [ema] built by the loop of calculateEMA
    are. *)
Definition ema_shape {T} `{JSNumber T} (prices : list T) (period : Z)
    (ema : list (jsval T)) : Prop :=
  (forall i, (0 <= i < len ema)%Z -> (i < period - 1)%Z -> read ema i = Null)
  /\ ((period - 1 < len ema)%Z ->
      read ema (period - 1) = Num (ema_seed prices period))
  /\ (forall i, (period <= i < len ema)%Z ->
        exists prev, read ema (i - 1) = Num prev
                     /\ read ema i = Num (ema_next prices period i prev)).

Definition strictly_decreasing (S : list R) : Prop :=
  forall k, (1 <= k < len S)%Z -> (price S k < price S (k - 1))%R.

(** Sixteen strictly decreasing real prices. *)
Definition falling16 : list R :=
  [16; 15; 14; 13; 12; 11; 10; 9; 8; 7; 6; 5; 4; 3; 2; 1]%R.

(** The rows that generateEfficientFrontier hands to
    calculatePortfolioMetrics: for each of 252 days the returns of the
    selected stocks on that day. *)
Definition frontier_returns {T} `{JSNumber T} (selectedStocks : list (stock T))
  : list (list T) :=
  map (fun i => map (fun stock => at_ (dailyReturns stock) i) selectedStocks)
    (range 0 252).

(** Whether the comparator of the sort of generateEfficientFrontier,
    [(a, b) => a.risk - b.risk], is negative at [(p, q)]: the sort then
    wants [p] before [q]. *)
Definition sorts_before {T} `{JSNumber T} (p q : point T) : bool :=
  gt zero (sub (risk p) (risk q)).

(** Whether that comparator orders the points of [pts] consistently: it
    never wants each of two points before the other, and if it does not
    want [q] before [p] nor [r] before [q], it does not want [r] before
    [p]. *)
Definition consistent_order {T} `{JSNumber T} (pts : list (point T)) : bool :=
  forallb
    (fun p =>
       forallb
         (fun q =>
            implb (sorts_before p q) (negb (sorts_before q p))
            && forallb
                 (fun r =>
                    implb (negb (sorts_before q p) && negb (sorts_before r q))
                      (negb (sorts_before r p)))
                 pts)
         pts)
    pts.

(** Concrete inputs, in binary64. *)
Module Examples.
Local Open Scope float_scope.

Definition S10 : list float :=
  [100; 102; 101; 105; 110; 108; 107; 112; 115; 113].

(** A series in which a price of 0 is followed by a nonzero price and by
    another 0. *)
Definition zero_prices : list float := [0; 5; 0; 0].

(** Sixteen prices, not all equal, of which the last fifteen are. *)
Definition flat_tail : list float :=
  [1; 2; 2; 2; 2; 2; 2; 2; 2; 2; 2; 2; 2; 2; 2; 2].

(** Sixteen equal prices. *)
Definition constant16 : list float := repeat 5 16.

(** Twenty-six days at the price 0. *)
Definition zeros26 : list float := repeat 0 26.

(** The returns of two assets on a single day. *)
Definition one_day : list (list float) := [[1; 2]].


Definition one_stock : list (stock float) := [{| dailyReturns := [1; 2; 3] |}].

(** Two assets over two days, by asset and by day; equal weights, and the
    random generator that yields them. *)
Definition two_stocks : list (stock float) :=
  [{| dailyReturns := [1; 3] |}; {| dailyReturns := [2; 5] |}].

Definition two_days : list (list float) := [[1; 2]; [3; 5]].

Definition halves : list float := [0.5; 0.5].

Definition half_draws : nat -> float := fun _ => 0.5.

(** Two stocks with the daily returns 1%, 2%, -1%, 3% and 2%, -1%, 4%, 1%,
    and draws that give the weights 0.25 and 0.75. *)
Definition ordinary_stocks : list (stock float) :=
  [{| dailyReturns :=
        [0x1.47ae147ae147bp-7; 0x1.47ae147ae147bp-6; -0x1.47ae147ae147bp-7;
         0x1.eb851eb851eb8p-6] |};
   {| dailyReturns :=
        [0x1.47ae147ae147bp-6; -0x1.47ae147ae147bp-7; 0x1.47ae147ae147bp-5;
         0x1.47ae147ae147bp-7] |}].

Definition quarter_draws : nat -> float :=
  fun k => match k with O => 0.25 | _ => 0.75 end.

(** Two nonzero prices of very different size. *)
Definition far_apart : list float := [1e17; 1].

(** Sixteen prices that alternate between 0 and the largest finite
    number. *)
Definition alternating16 : list float :=
  [0; 0x1.fffffffffffffp+1023; 0; 0x1.fffffffffffffp+1023;
   0; 0x1.fffffffffffffp+1023; 0; 0x1.fffffffffffffp+1023;
   0; 0x1.fffffffffffffp+1023; 0; 0x1.fffffffffffffp+1023;
   0; 0x1.fffffffffffffp+1023; 0; 0x1.fffffffffffffp+1023].

End Examples.

(** Concrete listings for the screening, in binary64. *)
Module ScreeningExamples.
Import String.
Local Open Scope string_scope.
Local Open Scope float_scope.

(** The criteria with which the component starts. *)
Definition default_criteria : screening_criteria float :=
  {| maxPE := 25; maxPB := 5; minROE := 10; minROI := 8;
     maxDebtToEquity := 0x1.8p+0; maxPEG := 2; minEPS := 1 |}.

Definition company (sym sec : string) (r1 r2 : float) : listing float :=
  {| symbol := sym; sector := sec; pe := 20; pb := 3; roe := r1; roi := r2;
     debtToEquity := 1; peg := 0x1.8p+0; eps := 4 |}.

(** Six companies of four sectors; the last one misses the threshold on
    ROE. *)
Definition market : list (listing float) :=
  [company "AAA" "Technology" 30 12; company "BBB" "Technology" 40 15;
   company "CCC" "Healthcare" 20 10; company "DDD" "Energy" 15 9;
   company "EEE" "Financials" 12 9; company "FFF" "Energy" 5 9].

(** The first three of them, of two sectors. *)
Definition small_market : list (listing float) :=
  [company "AAA" "Technology" 30 12; company "BBB" "Technology" 40 15;
   company "CCC" "Healthcare" 20 10].

Definition market_selection : list (listing float) :=
  [company "AAA" "Technology" 30 12; company "CCC" "Healthcare" 20 10;
   company "DDD" "Energy" 15 9; company "EEE" "Financials" 12 9;
   company "BBB" "Technology" 40 15].

Definition two_sectors : list string := ["Technology"; "Healthcare"].

End ScreeningExamples.

(** Concrete stocks for the efficient frontier, in binary64: 252 daily
    returns each, and draws in [0, 1) that change from call to call. *)
Module FrontierExamples.
Local Open Scope float_scope.

Definition wave (a b : Z) : list float :=
  map (fun k => Float64.float_of_Z ((a * k) mod b) / 100) (range 0 252).

Definition stocks : list (stock float) :=
  [{| dailyReturns := wave 3 7 |}; {| dailyReturns := wave 5 11 |}].

Definition draws : nat -> float :=
  fun k =>
    Float64.float_of_Z ((7 * Z.of_nat k * Z.of_nat k + 3 * Z.of_nat k) mod 97 + 1)
    / 100.

(** The fifty points in the order in which they are sampled. *)
Definition sampled : list (point float) :=
  map (frontier_point stocks (frontier_returns stocks) draws) (range 0 50).

(** Whether each number of a list is less than the next one. *)
Fixpoint ascending (l : list float) : bool :=
  match l with
  | a :: (b :: _) as rest => PrimFloat.ltb a b && ascending rest
  | _ => true
  end.

End FrontierExamples.

Unset Implicit Arguments.

(** ** Loops and arrays: general facts *)

Lemma fold_push {A B} (f : B -> A) (l : list B) (acc : list A) :
  fold_left (fun acc i => acc ++ [f i]) l acc = acc ++ map f l.
Proof.
  revert acc; induction l as [|i l IH]; intros acc; simpl.
  - now rewrite app_nil_r.
  - rewrite IH, <- app_assoc. reflexivity.
Qed.

Lemma fold_left_ext {A B} (f g : A -> B -> A) (l : list B) (a : A) :
  (forall a b, f a b = g a b) -> fold_left f l a = fold_left g l a.
Proof.
  intros E; revert a; induction l as [|b l IH]; intros a; simpl; auto.
  now rewrite E, IH.
Qed.

Lemma range_length lo hi : length (range lo hi) = (hi - lo)%nat.
Proof. unfold range. now rewrite length_map, length_seq. Qed.

Lemma range_snoc lo hi :
  (lo <= hi)%nat -> range lo (S hi) = range lo hi ++ [Z.of_nat hi].
Proof.
  intros L. unfold range.
  replace (S hi - lo)%nat with (S (hi - lo)) by lia.
  rewrite seq_S, map_app. simpl. do 3 f_equal. lia.
Qed.

Lemma lookup_nat {A} (l : list A) (k : nat) :
  lookup l (Z.of_nat k) = nth_error l k.
Proof.
  unfold lookup. destruct (Z.ltb_spec (Z.of_nat k) 0); [lia|].
  now rewrite Nat2Z.id.
Qed.

Lemma lookup_range_map {A} (f : Z -> A) (n : nat) (i : Z) :
  (0 <= i < Z.of_nat n)%Z -> lookup (map f (range 0 n)) i = Some (f i).
Proof.
  intros B. rewrite <- (Z2Nat.id i) by lia. rewrite lookup_nat.
  unfold range. rewrite Nat.sub_0_r, map_map.
  rewrite nth_error_map, nth_error_seq.
  destruct (Nat.ltb_spec (Z.to_nat i) n); [reflexivity | lia].
Qed.

Lemma in_range (k : Z) (lo hi : nat) :
  In k (range lo hi) -> (Z.of_nat lo <= k < Z.of_nat hi)%Z.
Proof.
  unfold range. intros Hin. apply in_map_iff in Hin.
  destruct Hin as (n & <- & Hn). apply in_seq in Hn. lia.
Qed.

Lemma lookup_range_map_from {A} (f : Z -> A) (lo hi : nat) (j : Z) :
  (0 <= j < Z.of_nat (hi - lo))%Z ->
  lookup (map f (range lo hi)) j = Some (f (Z.of_nat lo + j)%Z).
Proof.
  intros B. rewrite <- (Z2Nat.id j) at 1 by lia. rewrite lookup_nat.
  unfold range. rewrite map_map, nth_error_map, nth_error_seq.
  destruct (Nat.ltb_spec (Z.to_nat j) (hi - lo)); [|lia].
  simpl. do 2 f_equal. lia.
Qed.

Lemma lookup_beyond {A} (l : list A) (j : Z) :
  (j < 0 \/ len l <= j)%Z -> lookup l j = None.
Proof.
  unfold lookup, len. intros B. destruct (Z.ltb_spec j 0); [reflexivity|].
  apply nth_error_None. lia.
Qed.

Lemma slice_inside {A} (l : list A) (s e : Z) :
  (0 <= s <= e)%Z -> (e <= len l)%Z ->
  slice l s e = firstn (Z.to_nat (e - s)) (skipn (Z.to_nat s) l).
Proof.
  intros B1 B2. unfold slice, clamp_index.
  destruct (Z.ltb_spec s 0); [lia|]. destruct (Z.ltb_spec e 0); [lia|].
  now rewrite !Z.min_l by lia.
Qed.

Lemma slice_length {A} (l : list A) (s e : Z) :
  (0 <= s <= e)%Z -> (e <= len l)%Z -> length (slice l s e) = Z.to_nat (e - s).
Proof.
  intros B1 B2. rewrite slice_inside by assumption.
  rewrite length_firstn, length_skipn. unfold len in B2. lia.
Qed.

(** ** calculateSMA *)

Section SMA.
Context {T : Type} `{JSNumber T}.

Lemma calculateSMA_map (prices : list T) (period : Z) :
  calculateSMA prices period
  = map (sma_entry prices period) (range 0 (length prices)).
Proof.
  unfold calculateSMA.
  rewrite fold_left_ext
    with (g := fun sma i => sma ++ [sma_entry prices period i]).
  - now rewrite fold_push.
  - intros a i. unfold sma_entry. now destruct (i <? period - 1)%Z.
Qed.

(** The [reduce] of the code adds up as the specification's sum does. *)
Lemma sum0_add_up (l : list T) : sum0 l = add_up zero l.
Proof.
  unfold sum0. generalize zero.
  induction l as [|x l IH]; intros acc; cbn [fold_left add_up];
    [reflexivity | apply IH].
Qed.

(** C1.  For a period P >= 1 and a series S of at least P prices,
    calculateSMA(S, P) is as long as S, its entries at the indices below
    P-1 are null, and its entry at every index i >= P-1 is the arithmetic
    mean of the P prices S[i-P+1], ..., S[i]. *)
Theorem calculateSMA_spec (S : list T) (P : Z) :
  (1 <= P)%Z -> (P <= len S)%Z ->
  length (calculateSMA S P) = length S
  /\ (forall i, (0 <= i < P - 1)%Z -> read (calculateSMA S P) i = Null)
  /\ (forall i, (P - 1 <= i < len S)%Z ->
        let window := firstn (Z.to_nat P) (skipn (Z.to_nat (i - P + 1)) S) in
        length window = Z.to_nat P
        /\ read (calculateSMA S P) i = Num (mean window)).
Proof.
  intros HP HS. rewrite calculateSMA_map. unfold len in *.
  split; [|split].
  - now rewrite length_map, range_length, Nat.sub_0_r.
  - intros i Hi. unfold read. rewrite lookup_range_map by lia.
    unfold sma_entry. destruct (Z.ltb_spec i (P - 1)); [reflexivity | lia].
  - intros i Hi. cbv zeta.
    set (window := firstn _ _).
    assert (Hlen : length window = Z.to_nat P).
    { unfold window. rewrite length_firstn, length_skipn. lia. }
    split; [exact Hlen|].
    unfold read. rewrite lookup_range_map by lia.
    unfold sma_entry. destruct (Z.ltb_spec i (P - 1)); [lia|].
    unfold mean, len. rewrite Hlen, Z2Nat.id by lia.
    rewrite slice_inside by (unfold len; lia).
    rewrite sum0_add_up.
    unfold window. do 4 f_equal. lia.
Qed.

End SMA.

(** The scenario of the specification, in binary64: ten prices and the
    period 5; the first mean is 518 / 5 = 103.6, the last 555 / 5 = 111. *)
Lemma calculateSMA_spec_witness :
  (1 <= 5)%Z /\ (5 <= len Examples.S10)%Z
  /\ (length (calculateSMA Examples.S10 5) = length Examples.S10
      /\ (forall i, (0 <= i < 5 - 1)%Z ->
            read (calculateSMA Examples.S10 5) i = Null)
      /\ (forall i, (5 - 1 <= i < len Examples.S10)%Z ->
            let window :=
              firstn (Z.to_nat 5) (skipn (Z.to_nat (i - 5 + 1)) Examples.S10) in
            length window = Z.to_nat 5
            /\ read (calculateSMA Examples.S10 5) i = Num (mean window)))
  /\ mean [100; 102; 101; 105; 110]%float = 0x1.9e66666666666p+6%float
  /\ calculateSMA Examples.S10 5
     = [Null; Null; Null; Null; Num 0x1.9e66666666666p+6%float;
        Num 0x1.a4ccccccccccdp+6%float; Num 0x1.a8ccccccccccdp+6%float;
        Num 0x1.b19999999999ap+6%float; Num 0x1.b99999999999ap+6%float;
        Num 111%float].
Proof.
  split; [lia | split; [vm_compute; discriminate |]].
  split; [apply (calculateSMA_spec Examples.S10 5%Z);
          [lia | vm_compute; discriminate]|].
  split; vm_compute; reflexivity.
Defined.

(** ** calculateDailyReturns *)

Ltac xsimpl :=
  cbn [add sub mul div neg jmax jsqrt gt strict_neq falsy of_Z nan
       xreal_number zero] in *.

Lemma lookup_middle {A} (l1 l2 : list A) (x : A) :
  lookup (l1 ++ x :: l2) (len l1) = Some x.
Proof.
  unfold len. rewrite lookup_nat, nth_error_app2 by lia.
  now rewrite Nat.sub_diag.
Qed.

Lemma xdiv_fin (a b : R) : b <> 0%R -> XReal.xdiv (Fin a) (Fin b) = Fin (a / b).
Proof. intros Hb. simpl. destruct (Req_dec_T b 0); [contradiction | reflexivity]. Qed.

Lemma xdiv_by_zero (a : R) :
  XReal.xdiv (Fin a) (Fin 0)
  = if Rlt_dec 0 a then PInf else if Rlt_dec a 0 then NInf else XNaN.
Proof. simpl. destruct (Req_dec_T 0 0); [reflexivity | contradiction]. Qed.

Section DailyReturns.

Lemma rebuild_returns (suffix pre : list R) (prev : R) (prices : list xreal) :
  prices = map Fin (pre ++ prev :: suffix) ->
  prev <> 0%R -> Forall (fun r => r <> 0%R) suffix ->
  rebuild (Fin prev)
    (mapi_from (daily_return prices) (len pre + 1) (map Fin suffix))
  = map Fin suffix.
Proof.
  revert pre prev. induction suffix as [|x rest IH]; intros pre prev E Hp Hs.
  - reflexivity.
  - inversion Hs as [|? ? Hx Hrest]; subst x0 l.
    assert (A : at_ prices (len pre + 1 - 1) = Fin prev).
    { unfold at_. replace (len pre + 1 - 1)%Z with (len (map Fin pre)).
      - rewrite E, map_app. simpl. now rewrite lookup_middle.
      - unfold len. rewrite length_map. lia. }
    simpl. unfold daily_return at 1 2.
    destruct (Z.eqb_spec (len pre + 1) 0); [unfold len in *; lia|].
    rewrite A. xsimpl. cbn [XReal.xsub]. rewrite xdiv_fin by assumption.
    cbn [XReal.xadd XReal.xmul].
    replace (prev * (1 + (x - prev) / prev))%R with x by (field; assumption).
    f_equal.
    specialize (IH (pre ++ [prev]) x).
    replace (len (pre ++ [prev]) + 1)%Z with (len pre + 1 + 1)%Z in IH
      by (unfold len; rewrite length_app; simpl; lia).
    apply IH; auto. now rewrite <- app_assoc.
Qed.

(** The specification's statement that the rebuilt prices stay within a
    floating-point tolerance of the series does not hold in binary64: for
    the nonzero prices 1e17 and 1 the difference 1 - 1e17 rounds to -1e17,
    the return is exactly -1, and the rebuilt second price is 0, not 1. *)
Lemma calculateDailyReturns_roundtrip_binary64_counterexample :
  calculateDailyReturns Examples.far_apart = [0; -1]%float
  /\ reconstruct 1e17%float (calculateDailyReturns Examples.far_apart)
     = [1e17; 0]%float
  /\ PrimFloat.eqb 0 1 = false.
Proof. repeat split; vm_compute; reflexivity. Qed.

(** C7 (amended).  In every arithmetic the first entry of
    calculateDailyReturns is 0 for every series that has a first price; and
    over exact arithmetic, for every series of nonzero finite prices,
    rebuilding the prices from the first one by
    p[i] = p[i-1] * (1 + returns[i]) gives the series back exactly.  (In
    binary64 the rebuilt prices can be far off, see the counterexample.) *)
Theorem calculateDailyReturns_roundtrip :
  (forall (T : Type) (N : JSNumber T) (p : T) (S : list T),
      lookup (calculateDailyReturns (p :: S)) 0 = Some zero)
  /\ (forall (s0 : R) (S : list R),
        Forall (fun r => r <> 0%R) (s0 :: S) ->
        reconstruct (Fin s0) (calculateDailyReturns (map Fin (s0 :: S)))
        = map Fin (s0 :: S)).
Proof.
  split.
  - intros T N p S. reflexivity.
  - intros s0 S HS. inversion HS as [|? ? H0 HS']; subst.
    unfold calculateDailyReturns, mapi. simpl. f_equal.
    apply (rebuild_returns S [] s0); auto.
Qed.

Lemma calculateDailyReturns_roundtrip_witness :
  Forall (fun r => r <> 0%R) [100; 102; 51]%R
  /\ reconstruct (Fin 100) (calculateDailyReturns (map Fin [100; 102; 51]%R))
     = map Fin [100; 102; 51]%R.
Proof.
  assert (H : Forall (fun r => r <> 0%R) [100; 102; 51]%R)
    by (repeat constructor; lra).
  split; [exact H |].
  exact (proj2 calculateDailyReturns_roundtrip 100%R [102; 51]%R H).
Defined.

End DailyReturns.

Lemma nth_error_mapi_from {A B} (f : Z -> A -> B) (l : list A) (k : Z) (n : nat) :
  nth_error (mapi_from f k l) n
  = option_map (f (k + Z.of_nat n)%Z) (nth_error l n).
Proof.
  revert k n. induction l as [|x l IH]; intros k n.
  - destruct n; reflexivity.
  - destruct n as [|n]; simpl.
    + now rewrite Z.add_0_r.
    + rewrite IH. do 2 f_equal. lia.
Qed.

Lemma lookup_mapi {A B} (f : Z -> A -> B) (l : list A) (i : Z) :
  lookup (mapi f l) i = option_map (f i) (lookup l i).
Proof.
  unfold lookup, mapi. destruct (Z.ltb_spec i 0); [reflexivity|].
  rewrite nth_error_mapi_from. now rewrite Z.add_0_l, Z2Nat.id by lia.
Qed.

Lemma mapi_length {A B} (f : Z -> A -> B) (l : list A) :
  length (mapi f l) = length l.
Proof.
  unfold mapi. generalize 0%Z. induction l as [|x l IH]; intros k; simpl; auto.
Qed.

(** The specification's statement that a zero price makes calculateDailyReturns fail does not
    hold: the function returns, with infinity and NaN among the returns. *)
Lemma calculateDailyReturns_zero_price_counterexample :
  calculateDailyReturns Examples.zero_prices
  = [0; PrimFloat.infinity; -1; PrimFloat.nan]%float.
Proof. vm_compute. reflexivity. Qed.

(** C5 (amended).  calculateDailyReturns raises nothing when the price of
    the day before is 0 (the zero of [xreal], which stands for +0): the
    return of that day is +Infinity, -Infinity or NaN as the price of the day
    is positive, negative or 0.  And whenever the
    volatility computed by calculatePortfolioMetrics is 0 (that is, fails the
    test [volatility !== 0]), the sharpeRatio it returns is exactly 0; this
    part holds in every arithmetic. *)
Theorem zero_price_returns_and_sharpe_guard :
  (forall (prices : list xreal) (i : Z) (x : R),
      (1 <= i)%Z ->
      lookup prices (i - 1) = Some (Fin 0) ->
      lookup prices i = Some (Fin x) ->
      lookup (calculateDailyReturns prices) i
      = Some (if Rlt_dec 0 x then PInf
              else if Rlt_dec x 0 then NInf else XNaN))
  /\ (forall (T : Type) (N : JSNumber T) (weights : list T)
             (returns : list (list T)),
        strict_neq (m_volatility (calculatePortfolioMetrics weights returns))
          zero = false ->
        m_sharpeRatio (calculatePortfolioMetrics weights returns) = zero).
Proof.
  split.
  - intros prices i x Hi Hprev Hcur.
    unfold calculateDailyReturns. rewrite lookup_mapi, Hcur. simpl.
    destruct (Z.eqb_spec i 0); [lia|].
    unfold at_. rewrite Hprev. f_equal.
    cbn [XReal.xsub]. rewrite Rminus_0_r. apply xdiv_by_zero.
  - intros T N weights returns Hv.
    unfold calculatePortfolioMetrics in *. cbn [m_volatility m_sharpeRatio] in *.
    now rewrite Hv.
Qed.

Lemma zero_price_returns_and_sharpe_guard_witness :
  ((1 <= 1)%Z
   /\ lookup [Fin 0; Fin 5] (1 - 1) = Some (Fin 0)
   /\ lookup [Fin 0; Fin 5] 1 = Some (Fin 5)
   /\ lookup (calculateDailyReturns [Fin 0; Fin 5]) 1
      = Some (if Rlt_dec 0 5 then PInf else if Rlt_dec 5 0 then NInf else XNaN))
  /\ (strict_neq
        (m_volatility
           (calculatePortfolioMetrics [1%float] [[2%float]; [2%float]]))
        zero = false
      /\ m_sharpeRatio
           (calculatePortfolioMetrics [1%float] [[2%float]; [2%float]])
         = zero).
Proof.
  split.
  - split; [lia | split; [reflexivity | split; [reflexivity |]]].
    apply (proj1 zero_price_returns_and_sharpe_guard [Fin 0; Fin 5] 1%Z 5%R);
      [lia | reflexivity | reflexivity].
  - split; [vm_compute; reflexivity |].
    apply (proj2 zero_price_returns_and_sharpe_guard _ float64).
    vm_compute; reflexivity.
Defined.

(** ** findMaxSharpeRatio and the empty selection *)

Section MaxSharpe.

Lemma xgt_irrefl (a : xreal) : XReal.xgt a a = false.
Proof. destruct a; simpl; auto. destruct (Rlt_dec r r); auto; lra. Qed.

Lemma xgt_trans (a b c : xreal) :
  XReal.xgt a b = true -> XReal.xgt b c = true -> XReal.xgt a c = true.
Proof.
  destruct a, b, c; simpl; auto; try discriminate.
  destruct (Rlt_dec r0 r), (Rlt_dec r1 r0), (Rlt_dec r1 r);
    auto; try discriminate; lra.
Qed.

Lemma xstrict_neq_false (a b : xreal) :
  XReal.xstrict_neq a b = false -> a = b.
Proof.
  destruct a, b; simpl; auto; try discriminate.
  destruct (Req_dec_T r r0); [congruence | discriminate].
Qed.

Lemma findMaxSharpeRatio_fold (first : point xreal) (rest : list (point xreal)) :
  findMaxSharpeRatio (first :: rest) = Some (fold_left keep_max rest first).
Proof.
  unfold findMaxSharpeRatio. simpl. xsimpl.
  rewrite xgt_irrefl. reflexivity.
Qed.

Lemma keep_max_step (seen : list (point xreal)) (k : nat)
    (best p : point xreal) :
  is_first_max seen k best ->
  exists k', is_first_max (seen ++ [p]) k' (keep_max best p).
Proof.
  intros (Hk & Hmax & Htie). unfold keep_max. xsimpl.
  destruct (XReal.xgt (sharpeRatio p) (sharpeRatio best)) eqn:G.
  - exists (length seen). repeat split.
    + rewrite nth_error_app2 by lia. now rewrite Nat.sub_diag.
    + intros q Hq. apply in_app_or in Hq. destruct Hq as [Hq | [<- | []]].
      * xsimpl.
        destruct (XReal.xgt (sharpeRatio q) (sharpeRatio p)) eqn:G'; auto.
        pose proof (xgt_trans _ _ _ G' G) as C.
        rewrite (Hmax q Hq) in C. discriminate.
      * apply xgt_irrefl.
    + intros j q Hj Hq. rewrite nth_error_app1 in Hq by lia. xsimpl.
      destruct (XReal.xstrict_neq (sharpeRatio q) (sharpeRatio p)) eqn:E; auto.
      apply xstrict_neq_false in E.
      assert (Hin : In q seen) by (eapply nth_error_In; eauto).
      pose proof (Hmax q Hin) as C. rewrite E, G in C. discriminate.
  - exists k. repeat split.
    + rewrite nth_error_app1; auto. apply nth_error_Some. congruence.
    + intros q Hq. apply in_app_or in Hq. destruct Hq as [Hq | [<- | []]]; auto.
    + intros j q Hj Hq. apply (Htie j); auto.
      rewrite nth_error_app1 in Hq; auto.
      assert (k < length seen)%nat by (apply nth_error_Some; congruence). lia.
Qed.

Lemma keep_max_fold (todo seen : list (point xreal)) (k : nat)
    (best : point xreal) :
  is_first_max seen k best ->
  exists k', is_first_max (seen ++ todo) k' (fold_left keep_max todo best).
Proof.
  revert seen k best. induction todo as [|p todo IH]; intros seen k best Hinv.
  - exists k. now rewrite app_nil_r.
  - destruct (keep_max_step seen k best p Hinv) as (k1 & H1).
    destruct (IH _ _ _ H1) as (k2 & H2).
    exists k2. now rewrite <- app_assoc in H2.
Qed.

(** C9.  With no stock selected generateEfficientFrontier returns the empty
    collection; findMaxSharpeRatio of the empty collection is null, not an
    exception; and of a collection that is not empty it is one of its
    points, at some position k, such that no point has a sharpeRatio
    greater than its own, and no point before position k has a sharpeRatio
    equal to its own: of the points that tie for the maximum the earliest
    is kept. *)
Theorem frontier_empty_and_max_sharpe :
  (forall rnd : nat -> xreal, generateEfficientFrontier [] rnd = [])
  /\ findMaxSharpeRatio (@nil (point xreal)) = None
  /\ (forall (first : point xreal) (rest : list (point xreal)),
        exists (k : nat) (best : point xreal),
          findMaxSharpeRatio (first :: rest) = Some best
          /\ nth_error (first :: rest) k = Some best
          /\ (forall q, In q (first :: rest) ->
                gt (sharpeRatio q) (sharpeRatio best) = false)
          /\ (forall j q, (j < k)%nat ->
                nth_error (first :: rest) j = Some q ->
                strict_neq (sharpeRatio q) (sharpeRatio best) = true)).
Proof.
  split; [reflexivity | split; [reflexivity |]].
  intros first rest. rewrite findMaxSharpeRatio_fold.
  destruct (keep_max_fold rest [first] 0 first) as (k & Hk & Hmax & Htie).
  - repeat split.
    + intros q [<- | []]. apply xgt_irrefl.
    + intros j q Hj. lia.
  - exists k, (fold_left keep_max rest first). auto.
Qed.

End MaxSharpe.

(** ** The random weight vectors *)

Section Weights.
Local Open Scope R_scope.

Lemma fold_add_fin (l : list R) (a : R) :
  fold_left add (map Fin l) (Fin a) = Fin (fold_left Rplus l a).
Proof. revert a. induction l as [|x l IH]; intros a; simpl; auto. Qed.

Lemma sum0_fin (l : list R) : sum0 (map Fin l) = Fin (Rsum l).
Proof. apply fold_add_fin. Qed.

Lemma fold_Rplus_acc (l : list R) (a : R) :
  fold_left Rplus l a = a + Rsum l.
Proof.
  unfold Rsum. revert a. induction l as [|x l IH]; intros a; simpl.
  - lra.
  - rewrite IH, (IH (0 + x)). lra.
Qed.

Lemma Rsum_cons (x : R) (l : list R) : Rsum (x :: l) = x + Rsum l.
Proof. unfold Rsum at 1. simpl. rewrite fold_Rplus_acc. lra. Qed.

Lemma Rsum_nonneg (l : list R) : Forall (fun r => 0 <= r) l -> 0 <= Rsum l.
Proof.
  induction 1 as [|x l Hx Hl IH]; [unfold Rsum; simpl; lra|].
  rewrite Rsum_cons. lra.
Qed.

Lemma Rsum_zero (l : list R) : Forall (fun r => r = 0) l -> Rsum l = 0.
Proof.
  induction 1 as [|x l Hx Hl IH]; [reflexivity|].
  rewrite Rsum_cons. lra.
Qed.

Lemma Rsum_positive (l : list R) (x : R) :
  Forall (fun r => 0 <= r) l -> In x l -> 0 < x -> 0 < Rsum l.
Proof.
  induction 1 as [|y l Hy Hl IH]; intros Hin Hx; [destruct Hin|].
  rewrite Rsum_cons. pose proof (Rsum_nonneg l Hl).
  destruct Hin as [-> | Hin]; [lra|]. specialize (IH Hin Hx). lra.
Qed.


Lemma random_weights_fin (rv : nat -> R) (K n : nat) :
  (forall k, 0 <= rv k < 1) ->
  (exists k, (n <= k < n + K)%nat /\ rv k <> 0) ->
  let draws := map rv (seq n K) in
  0 < Rsum draws
  /\ random_weights (fun k => Fin (rv k)) K n
     = map Fin (map (fun r => r / Rsum draws) draws).
Proof.
  intros Hrv (k & Hk & Hnz) draws.
  assert (Hpos : 0 < Rsum draws).
  { apply (Rsum_positive draws (rv k)).
    - unfold draws. apply Forall_forall. intros r Hr.
      apply in_map_iff in Hr. destruct Hr as (i & <- & _). apply Hrv.
    - unfold draws. apply in_map, in_seq. lia.
    - destruct (Hrv k). lra. }
  split; [exact Hpos|].
  unfold random_weights.
  rewrite <- (map_map rv Fin). fold draws. rewrite sum0_fin.
  rewrite !map_map. apply map_ext. intros r.
  xsimpl. apply xdiv_fin. lra.
Qed.








End Weights.

(** ** calculateRSI *)

Lemma for_loop_app {S} (body : Z -> S -> result S) (l1 l2 : list Z) (s : S) :
  for_loop body (l1 ++ l2) s
  = (s' <- for_loop body l1 s ;; for_loop body l2 s').
Proof.
  revert s. induction l1 as [|i l1 IH]; intros s; simpl; auto.
  destruct (body i s); simpl; auto.
Qed.

Lemma slice_map {A B} (f : A -> B) (l : list A) (s e : Z) :
  slice (map f l) s e = map f (slice l s e).
Proof.
  unfold slice, len. rewrite length_map.
  now rewrite skipn_map, firstn_map.
Qed.

Lemma firstn_seq (n lo k : nat) : firstn n (seq lo k) = seq lo (Nat.min n k).
Proof.
  revert lo k. induction n as [|n IH]; intros lo k; [reflexivity|].
  destruct k as [|k]; [reflexivity|]. simpl. now rewrite IH.
Qed.

Lemma slice_seq (lo n : nat) (s e : Z) :
  (0 <= s <= e)%Z -> (e <= Z.of_nat n)%Z ->
  slice (seq lo n) s e = seq (lo + Z.to_nat s) (Z.to_nat (e - s)).
Proof.
  intros B1 B2. rewrite slice_inside by (unfold len; rewrite ?length_seq; lia).
  rewrite skipn_seq, firstn_seq. f_equal. lia.
Qed.

Lemma slice_range (lo hi : nat) (s e : Z) :
  (0 <= s <= e)%Z -> (e <= Z.of_nat (hi - lo))%Z ->
  slice (range lo hi) s e = range (lo + Z.to_nat s) (lo + Z.to_nat e).
Proof.
  intros B1 B2. unfold range. rewrite slice_map, slice_seq by lia.
  do 2 f_equal. lia.
Qed.

Section RSI.
Context {T : Type} `{JSNumber T}.

Lemma reduce1_sum1 (l : list T) : l <> [] -> reduce1 l = Ok (sum1 l).
Proof. destruct l; [congruence | reflexivity]. Qed.

Lemma range_nonempty (lo hi : nat) : (lo < hi)%nat -> range lo hi <> [].
Proof.
  intros L E. apply (f_equal (@length Z)) in E.
  rewrite range_length in E. simpl in E. lia.
Qed.

(** One iteration, from the state that the iterations before it leave. *)
Lemma rsi_step_closed (prices : list T) (period : Z) (m : nat) :
  (1 <= period)%Z ->
  rsi_step prices period (Z.of_nat (S m))
    (map (rsi_entry prices period) (range 1 (S m)),
     map (gain prices) (range 1 (S m)),
     map (loss prices) (range 1 (S m)))
  = Ok (map (rsi_entry prices period) (range 1 (S (S m))),
        map (gain prices) (range 1 (S (S m))),
        map (loss prices) (range 1 (S (S m)))).
Proof.
  intros HP. set (i := Z.of_nat (S m)).
  rewrite (range_snoc 1 (S m)) by lia. fold i. rewrite !map_app.
  cbn [map]. unfold rsi_step. fold (gain prices i) (loss prices i).
  assert (E : rsi_entry prices period i
              = if (i <? period)%Z then Null
                else Num (rsi_value
                            (div (sum1 (map (gain prices) (rsi_window period i)))
                               (of_Z period))
                            (div (sum1 (map (loss prices) (rsi_window period i)))
                               (of_Z period)))) by reflexivity.
  rewrite E. clear E.
  destruct (Z.ltb_spec i period) as [Hlt | Hge]; [reflexivity|].
  assert (W : forall f : Z -> T,
             slice (map f (range 1 (S m)) ++ [f i]) (i - period) i
             = map f (rsi_window period i)).
  { intros f.
    replace (map f (range 1 (S m)) ++ [f i]) with (map f (range 1 (S (S m))))
      by (rewrite (range_snoc 1 (S m)) by lia; fold i; now rewrite map_app).
    rewrite slice_map, slice_range by lia.
    unfold rsi_window. do 2 f_equal; lia. }
  assert (NE : forall f : Z -> T, map f (rsi_window period i) <> []).
  { intros f E. apply map_eq_nil in E. revert E.
    apply range_nonempty. lia. }
  rewrite !W, !reduce1_sum1 by apply NE. reflexivity.
Qed.

Lemma rsi_loop_closed (prices : list T) (period : Z) (m : nat) :
  (1 <= period)%Z ->
  for_loop (rsi_step prices period) (range 1 (S m)) ([], [], [])
  = Ok (map (rsi_entry prices period) (range 1 (S m)),
        map (gain prices) (range 1 (S m)),
        map (loss prices) (range 1 (S m))).
Proof.
  intros HP. induction m as [|m IH].
  - reflexivity.
  - rewrite (range_snoc 1 (S m)) by lia. rewrite for_loop_app, IH.
    cbn [bind for_loop]. rewrite rsi_step_closed by assumption.
    cbn [bind]. now rewrite <- (range_snoc 1 (S m)) by lia.
Qed.

(** calculateRSI never throws for a period of at least 1, and its entries
    are those of [rsi_entry], one for each day from day 1 on. *)
Lemma calculateRSI_closed (prices : list T) (period : Z) :
  (1 <= period)%Z ->
  calculateRSI prices period
  = Ok (map (rsi_entry prices period) (range 1 (length prices))).
Proof.
  intros HP. unfold calculateRSI.
  destruct (length prices) as [|m]; [reflexivity|].
  now rewrite rsi_loop_closed.
Qed.

End RSI.

(** *** calculateRSI over exact arithmetic *)

Section RSI_exact.
Local Open Scope R_scope.

Lemma at_fin (S : list R) (k : Z) :
  (0 <= k < len S)%Z -> at_ (map Fin S) k = Fin (price S k).
Proof.
  intros B. unfold at_, price, lookup, len in *.
  destruct (Z.ltb_spec k 0); [lia|].
  rewrite nth_error_map, (nth_error_nth' S 0) by lia. reflexivity.
Qed.

Lemma gain_fin (S : list R) (k : Z) :
  (1 <= k < len S)%Z -> gain (map Fin S) k = Fin (Rgain S k).
Proof. intros B. unfold gain. now rewrite !at_fin by lia. Qed.

Lemma loss_fin (S : list R) (k : Z) :
  (1 <= k < len S)%Z -> loss (map Fin S) k = Fin (Rloss S k).
Proof. intros B. unfold loss. now rewrite !at_fin by lia. Qed.

Lemma sum1_fin (l : list R) : l <> [] -> sum1 (map Fin l) = Fin (Rsum l).
Proof.
  destruct l as [|x r]; [congruence|]. intros _. simpl.
  rewrite fold_add_fin. f_equal. unfold Rsum. simpl.
  rewrite fold_Rplus_acc, (fold_Rplus_acc r (0 + x)). lra.
Qed.

Lemma rsi_value_nan : rsi_value (Fin 0) (Fin 0) = XNaN.
Proof.
  unfold rsi_value. xsimpl. rewrite xdiv_by_zero.
  destruct (Rlt_dec 0 0); [lra|]. reflexivity.
Qed.

Lemma rsi_value_saturated (a : R) : 0 < a -> rsi_value (Fin a) (Fin 0) = Fin 100.
Proof.
  intros Ha. unfold rsi_value. xsimpl. rewrite xdiv_by_zero.
  destruct (Rlt_dec 0 a); [|lra]. simpl. f_equal. lra.
Qed.

Lemma rsi_value_ratio (a b : R) :
  0 <= a -> 0 < b ->
  exists r, rsi_value (Fin a) (Fin b) = Fin r /\ 0 <= r <= 100.
Proof.
  intros Ha Hb. unfold rsi_value. xsimpl.
  assert (Hq : 0 <= a / b) by (apply Rle_mult_inv_pos; assumption).
  rewrite xdiv_fin by lra. cbn [XReal.xadd].
  rewrite xdiv_fin by lra. cbn [XReal.xsub].
  eexists. split; [reflexivity|].
  assert (Hi : 0 < / (1 + a / b) <= 1).
  { split; [apply Rinv_0_lt_compat; lra|].
    rewrite <- Rinv_1. apply Rinv_le_contravar; lra. }
  unfold Rdiv at 1. lra.
Qed.

(** The entry of day [i], from the sums of the gains and of the losses of
    its window. *)
Lemma rsi_entry_fin (S : list R) (period i : Z) :
  (1 <= period <= i)%Z -> (i < len S)%Z ->
  rsi_entry (map Fin S) period i
  = Num (rsi_value
           (Fin (Rsum (map (Rgain S) (rsi_window period i)) / IZR period))
           (Fin (Rsum (map (Rloss S) (rsi_window period i)) / IZR period))).
Proof.
  intros HP Hi. unfold rsi_entry.
  destruct (Z.ltb_spec i period); [lia|].
  assert (Hw : forall k, In k (rsi_window period i) -> (1 <= k < len S)%Z).
  { intros k Hk. apply in_range in Hk. lia. }
  assert (NE : rsi_window period i <> []) by (apply range_nonempty; lia).
  assert (P0 : IZR period <> 0) by (apply not_0_IZR; lia).
  rewrite (map_ext_in (gain (map Fin S)) (fun k => Fin (Rgain S k)))
    by (intros k Hk; apply gain_fin, Hw, Hk).
  rewrite (map_ext_in (loss (map Fin S)) (fun k => Fin (Rloss S k)))
    by (intros k Hk; apply loss_fin, Hw, Hk).
  rewrite <- (map_map (Rgain S) Fin), <- (map_map (Rloss S) Fin).
  rewrite !sum1_fin by (intros E; apply map_eq_nil in E; contradiction).
  xsimpl. now rewrite !xdiv_fin by assumption.
Qed.

Lemma Rgain_nonneg (S : list R) (k : Z) : 0 <= Rgain S k.
Proof. apply Rmax_r. Qed.

Lemma Rloss_nonneg (S : list R) (k : Z) : 0 <= Rloss S k.
Proof. apply Rmax_r. Qed.

Lemma Forall_map_nonneg (f : Z -> R) (l : list Z) :
  (forall k, 0 <= f k) -> Forall (fun r => 0 <= r) (map f l).
Proof.
  intros Hf. apply Forall_forall. intros r Hr.
  apply in_map_iff in Hr. destruct Hr as (k & <- & _). apply Hf.
Qed.

(** The specification's statement that every entry of the RSI of a series that is not constant
    lies in [0, 100] does not hold: a series that is flat over a whole
    window has NaN there, which is neither null nor in the interval. *)
Lemma calculateRSI_flat_window_counterexample :
  calculateRSI Examples.flat_tail 14
  = Ok (repeat Null 13 ++ [Num 100%float; Num PrimFloat.nan])
  /\ (PrimFloat.leb 0 PrimFloat.nan && PrimFloat.leb PrimFloat.nan 100)%bool
     = false.
Proof. split; vm_compute; reflexivity. Qed.

(** In binary64 NaN also comes out of windows that are not flat: when the
    prices alternate between 0 and the largest finite number, the sums of
    the gains and of the losses both overflow, and Infinity / Infinity is
    NaN.  Exact arithmetic has no such case; the amended statement allows
    for NaN on every window. *)
Lemma calculateRSI_overflow_binary64 :
  calculateRSI Examples.alternating16 14
  = Ok (repeat Null 13 ++ [Num PrimFloat.nan; Num PrimFloat.nan]).
Proof. vm_compute. reflexivity. Qed.

Lemma flat_tail_not_constant :
  nth_error Examples.flat_tail 0 = Some 1%float
  /\ nth_error Examples.flat_tail 1 = Some 2%float
  /\ PrimFloat.eqb 1 2 = false.
Proof. repeat split. Qed.

(** C3 (amended).  For every series S of finite prices calculateRSI(S, 14)
    returns without throwing, and its entry for every day i >= 14 (index
    i-1) is a number that is either NaN or lies in [0, 100]; and if S is
    strictly increasing, its entry for every day i >= 14 is exactly 100,
    and no entry is any other number. *)
Theorem calculateRSI_bounds (S : list R) :
  exists out,
    calculateRSI (map Fin S) 14 = Ok out
    /\ (forall i, (14 <= i < len S)%Z ->
          read out (i - 1) = Num XNaN
          \/ exists r, read out (i - 1) = Num (Fin r) /\ 0 <= r <= 100)
    /\ (strictly_increasing S ->
        (forall i, (14 <= i < len S)%Z -> read out (i - 1) = Num (Fin 100))
        /\ forall j v, read out j = Num v -> v = Fin 100).
Proof.
  exists (map (rsi_entry (map Fin S) 14) (range 1 (length S))).
  split; [rewrite calculateRSI_closed, length_map by lia; reflexivity|].
  assert (Hentry : forall i, (14 <= i < len S)%Z ->
            read (map (rsi_entry (map Fin S) 14) (range 1 (length S))) (i - 1)
            = Num (rsi_value
                     (Fin (Rsum (map (Rgain S) (rsi_window 14 i)) / IZR 14))
                     (Fin (Rsum (map (Rloss S) (rsi_window 14 i)) / IZR 14)))).
  { intros i Hi. unfold read.
    rewrite lookup_range_map_from by (unfold len in Hi; lia).
    replace (Z.of_nat 1 + (i - 1))%Z with i by lia.
    apply rsi_entry_fin; lia. }
  assert (Hrising : strictly_increasing S ->
            forall i, (14 <= i < len S)%Z ->
              rsi_value
                (Fin (Rsum (map (Rgain S) (rsi_window 14 i)) / IZR 14))
                (Fin (Rsum (map (Rloss S) (rsi_window 14 i)) / IZR 14))
              = Fin 100).
  { intros Hinc i Hi.
    assert (Hw : forall k, In k (rsi_window 14 i) -> (1 <= k < len S)%Z).
    { intros k Hk. apply in_range in Hk. lia. }
    assert (Hin : In i (rsi_window 14 i)).
    { unfold rsi_window, range. apply in_map_iff. exists (Z.to_nat i).
      split; [lia|]. apply in_seq. lia. }
    assert (HL : Rsum (map (Rloss S) (rsi_window 14 i)) = 0).
    { apply Rsum_zero, Forall_forall. intros r Hr.
      apply in_map_iff in Hr. destruct Hr as (k & <- & Hk).
      specialize (Hinc k (Hw k Hk)). unfold Rloss. apply Rmax_right. lra. }
    assert (HG : 0 < Rsum (map (Rgain S) (rsi_window 14 i))).
    { apply (Rsum_positive _ (Rgain S i)).
      - apply Forall_map_nonneg, Rgain_nonneg.
      - now apply in_map.
      - specialize (Hinc i (Hw i Hin)). unfold Rgain.
        apply Rlt_le_trans with (price S i - price S (i - 1)); [lra|].
        apply Rmax_l. }
    rewrite HL. replace (0 / 14) with 0 by lra.
    apply rsi_value_saturated. lra. }
  split; [|intros Hinc; split].
  - intros i Hi. rewrite (Hentry i Hi).
    set (G := Rsum (map (Rgain S) (rsi_window 14 i))).
    set (L := Rsum (map (Rloss S) (rsi_window 14 i))).
    assert (HG : 0 <= G) by (apply Rsum_nonneg, Forall_map_nonneg, Rgain_nonneg).
    assert (HL : 0 <= L) by (apply Rsum_nonneg, Forall_map_nonneg, Rloss_nonneg).
    destruct (Rle_lt_or_eq_dec 0 L HL) as [HLpos | HL0].
    + right. destruct (rsi_value_ratio (G / 14) (L / 14)) as (r & -> & Hr);
        try lra.
      exists r. auto.
    + rewrite <- HL0. replace (0 / 14) with 0 by lra.
      destruct (Rle_lt_or_eq_dec 0 G HG) as [HGpos | HG0].
      * right. rewrite rsi_value_saturated by lra.
        exists 100. split; [reflexivity | lra].
      * left. rewrite <- HG0. replace (0 / 14) with 0 by lra.
        now rewrite rsi_value_nan.
  - intros i Hi. rewrite (Hentry i Hi). f_equal. now apply Hrising.
  - intros j v. unfold read.
    destruct (Z_lt_ge_dec j 0) as [Hneg | Hj0];
      [rewrite lookup_beyond by lia; discriminate|].
    destruct (Z_lt_ge_dec j (Z.of_nat (length S - 1))) as [Hj | Hj];
      [| rewrite lookup_beyond
           by (unfold len; rewrite length_map, range_length; lia);
         discriminate].
    destruct (Z_lt_ge_dec (j + 1) 14) as [Hi | Hi].
    + rewrite lookup_range_map_from by lia.
      unfold rsi_entry. destruct (Z.ltb_spec (Z.of_nat 1 + j) 14);
        [discriminate | lia].
    + assert (Hr : (14 <= j + 1 < len S)%Z) by (unfold len; lia).
      pose proof (Hentry (j + 1)%Z Hr) as E. unfold read in E.
      replace (j + 1 - 1)%Z with j in E by lia.
      rewrite E, (Hrising Hinc (j + 1)%Z Hr). congruence.
Qed.

Lemma rising16_increasing : strictly_increasing rising16.
Proof.
  intros k Hk. unfold len in Hk. simpl in Hk.
  assert (E : exists n, k = Z.of_nat (S n) /\ (n < 15)%nat)
    by (exists (Z.to_nat (k - 1)); lia).
  destruct E as (n & -> & Hn). unfold price.
  replace (Z.of_nat (S n) - 1)%Z with (Z.of_nat n) by lia.
  rewrite !Nat2Z.id.
  do 15 (destruct n as [|n]; [simpl; lra|]). lia.
Qed.

Lemma calculateRSI_bounds_witness :
  strictly_increasing rising16
  /\ exists out,
      calculateRSI (map Fin rising16) 14 = Ok out
      /\ (forall i, (14 <= i < len rising16)%Z ->
            read out (i - 1) = Num XNaN
            \/ exists r, read out (i - 1) = Num (Fin r) /\ 0 <= r <= 100)
      /\ (forall i, (14 <= i < len rising16)%Z ->
            read out (i - 1) = Num (Fin 100))
      /\ (forall j v, read out j = Num v -> v = Fin 100).
Proof.
  split; [exact rising16_increasing|].
  destruct (calculateRSI_bounds rising16) as (out & Hout & Hbound & Hinc).
  exists out. split; [exact Hout | split; [exact Hbound|]].
  exact (Hinc rising16_increasing).
Defined.

(** The specification's statement that the RSI of a constant series resolves to a defined value
    and not to NaN does not hold: the entries from day 14 on are NaN. *)
Lemma calculateRSI_constant_counterexample :
  calculateRSI Examples.constant16 14
  = Ok (repeat Null 13 ++ [Num PrimFloat.nan; Num PrimFloat.nan]).
Proof. vm_compute. reflexivity. Qed.

Lemma price_repeat (c : R) (n : nat) (k : Z) :
  (0 <= k < Z.of_nat n)%Z -> price (repeat c n) k = c.
Proof.
  intros B. unfold price. apply nth_repeat_lt. lia.
Qed.

(** C6 (amended).  For a constant series of n finite prices calculateRSI
    with the period 14 does not throw; it returns null for the days 1 to 13
    and NaN, the value of 0/0, for every day from 14 on. *)
Theorem calculateRSI_constant (c : R) (n : nat) :
  calculateRSI (repeat (Fin c) n) 14
  = Ok (map (fun i => if (i <? 14)%Z then Null else Num XNaN) (range 1 n)).
Proof.
  rewrite calculateRSI_closed by lia. rewrite repeat_length. f_equal.
  apply map_ext_in. intros i Hi. apply in_range in Hi.
  destruct (Z.ltb_spec i 14) as [Hlt | Hge].
  - unfold rsi_entry. destruct (Z.ltb_spec i 14); [reflexivity | lia].
  - replace (repeat (Fin c) n) with (map Fin (repeat c n))
      by apply map_repeat.
    rewrite rsi_entry_fin by (unfold len; rewrite ?repeat_length; lia).
    assert (Hz : forall k, In k (rsi_window 14 i) ->
                 price (repeat c n) k - price (repeat c n) (k - 1) = 0).
    { intros k Hk. apply in_range in Hk.
      rewrite !price_repeat by lia. lra. }
    rewrite !Rsum_zero.
    + replace (0 / 14) with 0 by lra. now rewrite rsi_value_nan.
    + apply Forall_forall. intros r Hr. apply in_map_iff in Hr.
      destruct Hr as (k & <- & Hk). unfold Rloss. rewrite (Hz k Hk).
      rewrite Ropp_0. apply Rmax_left. lra.
    + apply Forall_forall. intros r Hr. apply in_map_iff in Hr.
      destruct Hr as (k & <- & Hk). unfold Rgain. rewrite (Hz k Hk).
      apply Rmax_left. lra.
Qed.

End RSI_exact.

(** ** calculateEMA and calculateMACD *)

Section MACD.
Context {T : Type} `{JSNumber T}.

Lemma for_loop_total {S} (body : Z -> S -> result S) (idxs : list Z) (s : S) :
  (forall i s, In i idxs -> exists s', body i s = Ok s') ->
  exists s', for_loop body idxs s = Ok s'.
Proof.
  revert s. induction idxs as [|i idxs IH]; intros s Hbody; simpl.
  - now exists s.
  - destruct (Hbody i s) as (s1 & ->); [now left|]. simpl.
    apply IH. intros j s2 Hj. apply Hbody. now right.
Qed.

(** calculateEMA never throws for a period of at least 1: the only
    [reduce] without an initial value runs on the first [period] prices, at
    an index that exists. *)
Lemma calculateEMA_total (prices : list T) (period : Z) :
  (1 <= period)%Z -> exists ema, calculateEMA prices period = Ok ema.
Proof.
  intros HP. unfold calculateEMA. apply for_loop_total.
  intros i ema Hi. apply in_range in Hi. unfold ema_step.
  destruct (i <? period - 1)%Z; [eexists; reflexivity|].
  destruct (i =? period - 1)%Z; [|eexists; reflexivity].
  rewrite reduce1_sum1; [eexists; reflexivity|].
  intros E. apply (f_equal (@length T)) in E. simpl in E.
  unfold slice, clamp_index, len in E.
  destruct (Z.ltb_spec period 0); [lia|]. simpl in E.
  rewrite length_firstn, length_skipn in E. lia.
Qed.

Lemma calculateMACD_total (prices : list T) (fastPeriod slowPeriod signalPeriod : Z) :
  (1 <= fastPeriod)%Z -> (1 <= slowPeriod)%Z -> (1 <= signalPeriod)%Z ->
  exists r, calculateMACD prices fastPeriod slowPeriod signalPeriod = Ok r.
Proof.
  intros Hf Hs Hg. unfold calculateMACD.
  destruct (calculateEMA_total prices fastPeriod Hf) as (ema12 & ->).
  destruct (calculateEMA_total prices slowPeriod Hs) as (ema26 & ->).
  cbn [bind].
  destruct (calculateEMA_total
              (map to_number
                 (filter (fun x => negb (is_null x)) (mapi (macd_entry ema26) ema12)))
              signalPeriod Hg) as (sig & ->).
  eexists. reflexivity.
Qed.

(** The two lines of calculateMACD in terms of the three averages. *)
Lemma calculateMACD_lines (prices : list T) (fastPeriod slowPeriod signalPeriod : Z)
    (ema12 ema26 : list (jsval T)) (r : macd_result T) :
  calculateEMA prices fastPeriod = Ok ema12 ->
  calculateEMA prices slowPeriod = Ok ema26 ->
  calculateMACD prices fastPeriod slowPeriod signalPeriod = Ok r ->
  macd r = mapi (macd_entry ema26) ema12
  /\ calculateEMA
       (map to_number (filter (fun x => negb (is_null x)) (macd r)))
       signalPeriod
     = Ok (signal r).
Proof.
  intros E12 E26. unfold calculateMACD. rewrite E12, E26. cbn [bind].
  destruct (calculateEMA _ signalPeriod) as [sig|e] eqn:Es; cbn [bind];
    [|discriminate].
  intros [= <-]. cbn [macd signal]. auto.
Qed.

(** An entry of the MACD line is the difference of the two averages when
    both are numbers that are not falsy, and null when one of them is null. *)
Lemma macd_entry_numbers (ema26 : list (jsval T)) (i : Z) (fast slow : T) :
  read ema26 i = Num slow -> falsy fast = false -> falsy slow = false ->
  macd_entry ema26 i (Num fast) = Num (sub fast slow).
Proof.
  intros Hs Hf1 Hf2. unfold macd_entry. rewrite Hs. simpl.
  now rewrite Hf1, Hf2.
Qed.

Lemma macd_entry_null (ema26 : list (jsval T)) (i : Z) (fast : jsval T) :
  fast = Null \/ read ema26 i = Null -> macd_entry ema26 i fast = Null.
Proof.
  intros [-> | Hs]; unfold macd_entry; [reflexivity|].
  rewrite Hs. simpl. now rewrite orb_true_r.
Qed.

(** But it is null as well when one of the averages is a falsy number: 0
    or NaN. *)
Lemma macd_entry_falsy (ema26 : list (jsval T)) (i : Z) (fast : T) :
  falsy fast = true -> macd_entry ema26 i (Num fast) = Null.
Proof. intros Hf. unfold macd_entry. simpl. now rewrite Hf. Qed.

End MACD.

(** C4 (the code departs from the specification).  On twenty-six days at
    the price 0 both moving averages are defined at day 25, where they are 0,
    and the specification makes the MACD entry there the number 0 - 0;
    calculateMACD returns null at that index, as at every other, and an empty
    signal line. *)
Theorem calculateMACD_zero_average :
  calculateEMA Examples.zeros26 12 = Ok (repeat Null 11 ++ repeat (Num 0%float) 15)
  /\ calculateEMA Examples.zeros26 26 = Ok (repeat Null 25 ++ [Num 0%float])
  /\ calculateMACD Examples.zeros26 12 26 9
     = Ok {| macd := repeat Null 26; signal := [] |}.
Proof. repeat split; vm_compute; reflexivity. Qed.

(** ** calculateCovarianceMatrix: what the loops compute *)

Lemma set_nth_middle {A} (l1 l2 : list A) (x v : A) :
  set_nth (l1 ++ x :: l2) (length l1) v = l1 ++ v :: l2.
Proof. induction l1 as [|y l1 IH]; simpl; [reflexivity | now rewrite IH]. Qed.

Lemma set_at_middle {A} (l1 l2 : list A) (x v : A) :
  set_at (l1 ++ x :: l2) (len l1) v = l1 ++ v :: l2.
Proof.
  unfold set_at, len. destruct (Z.ltb_spec (Z.of_nat (length l1)) 0); [lia|].
  rewrite Nat2Z.id. apply set_nth_middle.
Qed.

Lemma mapi_from_ext {A B} (f g : Z -> A -> B) (k : Z) (l : list A) :
  (forall j x, f j x = g j x) -> mapi_from f k l = mapi_from g k l.
Proof.
  intros E. revert k. induction l as [|x l IH]; intros k; simpl; auto.
  now rewrite E, IH.
Qed.

Lemma mapi_from_compose {A B C} (g : Z -> B -> C) (f : Z -> A -> B) (k : Z)
    (l : list A) :
  mapi_from g k (mapi_from f k l) = mapi_from (fun j x => g j (f j x)) k l.
Proof.
  revert k. induction l as [|x l IH]; intros k; simpl; auto. now rewrite IH.
Qed.

Lemma mapi_from_id {A} (k : Z) (l : list A) : mapi_from (fun _ x => x) k l = l.
Proof.
  revert k. induction l as [|x l IH]; intros k; simpl; auto. now rewrite IH.
Qed.

Lemma mapi_from_repeat {A B} (g : Z -> A -> B) (x : A) (n k : nat) :
  mapi_from g (Z.of_nat k) (repeat x n)
  = map (fun j => g j x) (map Z.of_nat (seq k n)).
Proof.
  revert k. induction n as [|n IH]; intros k; simpl; auto.
  f_equal. rewrite <- IH. f_equal. lia.
Qed.

Lemma mapi_repeat {A B} (g : Z -> A -> B) (x : A) (n : nat) :
  mapi g (repeat x n) = map (fun j => g j x) (range 0 n).
Proof.
  unfold mapi, range. rewrite Nat.sub_0_r. apply (mapi_from_repeat g x n 0).
Qed.

(** A loop whose iteration [j] rewrites entry [j] of its array from the
    entry's own old value. *)
Lemma for_loop_pointwise_from {A} (g : Z -> A -> A)
    (body : Z -> list A -> result (list A)) (n : nat) (post done : list A) :
  (forall d x rest, In x post -> length (d ++ x :: rest) = n ->
     body (len d) (d ++ x :: rest) = Ok (d ++ g (len d) x :: rest)) ->
  length (done ++ post) = n ->
  for_loop body (map Z.of_nat (seq (length done) (length post))) (done ++ post)
  = Ok (done ++ mapi_from g (len done) post).
Proof.
  revert done. induction post as [|x post IH]; intros done Hbody Hn.
  - reflexivity.
  - cbn [length seq map for_loop mapi_from].
    change (Z.of_nat (length done)) with (len done).
    rewrite Hbody by (auto; now left). cbn [bind].
    specialize (IH (done ++ [g (len done) x])).
    rewrite <- !app_assoc in IH. cbn [app] in IH.
    replace (length (done ++ [g (len done) x])) with (S (length done)) in IH
      by (rewrite length_app; simpl; lia).
    replace (len (done ++ [g (len done) x])) with (len done + 1)%Z in IH
      by (unfold len; rewrite length_app; simpl; lia).
    apply IH.
    + intros d y rest Hy. apply Hbody. now right.
    + rewrite length_app in *. simpl in *. lia.
Qed.

Lemma for_loop_pointwise {A} (g : Z -> A -> A)
    (body : Z -> list A -> result (list A)) (l : list A) :
  (forall d x rest, In x l -> length (d ++ x :: rest) = length l ->
     body (len d) (d ++ x :: rest) = Ok (d ++ g (len d) x :: rest)) ->
  for_loop body (range 0 (length l)) l = Ok (mapi g l).
Proof.
  intros Hbody. unfold range. rewrite Nat.sub_0_r.
  apply (for_loop_pointwise_from g body (length l) l [] Hbody). reflexivity.
Qed.

(** A loop over the indices of an array that reads only the row of its
    index is a fold over the rows; [I] is what the state keeps. *)
Lemma for_loop_rows_from {A St} (I : St -> Prop) (body : Z -> St -> result St)
    (f : St -> A -> St) (data post pre : list A) (s : St) :
  data = pre ++ post ->
  (forall k row s, lookup data k = Some row -> I s ->
     body k s = Ok (f s row) /\ I (f s row)) ->
  I s ->
  for_loop body (map Z.of_nat (seq (length pre) (length post))) s
  = Ok (fold_left f post s).
Proof.
  revert pre s. induction post as [|row post IH]; intros pre s E Hbody Hs.
  - reflexivity.
  - cbn [length seq map for_loop fold_left].
    change (Z.of_nat (length pre)) with (len pre).
    destruct (Hbody (len pre) row s) as (-> & Hs'); auto.
    { rewrite E. apply lookup_middle. }
    cbn [bind]. specialize (IH (pre ++ [row]) (f s row)).
    replace (length (pre ++ [row])) with (S (length pre)) in IH
      by (rewrite length_app; simpl; lia).
    apply IH; auto. now rewrite <- app_assoc.
Qed.

Lemma for_loop_rows {A St} (I : St -> Prop) (body : Z -> St -> result St)
    (f : St -> A -> St) (data : list A) (s : St) :
  (forall k row s, lookup data k = Some row -> I s ->
     body k s = Ok (f s row) /\ I (f s row)) ->
  I s ->
  for_loop body (range 0 (length data)) s = Ok (fold_left f data s).
Proof.
  intros Hbody Hs. unfold range. rewrite Nat.sub_0_r.
  now apply (for_loop_rows_from I body f data data []).
Qed.

Lemma mapi_from_map_seq {A B} (g : Z -> A -> B) (F : Z -> A) (n k : nat) :
  mapi_from g (Z.of_nat k) (map F (map Z.of_nat (seq k n)))
  = map (fun j => g j (F j)) (map Z.of_nat (seq k n)).
Proof.
  revert k. induction n as [|n IH]; intros k; simpl; auto.
  f_equal. rewrite <- IH. f_equal. lia.
Qed.

Lemma mapi_map_range {A B} (g : Z -> A -> B) (F : Z -> A) (n : nat) :
  mapi g (map F (range 0 n)) = map (fun j => g j (F j)) (range 0 n).
Proof. unfold mapi, range. apply (mapi_from_map_seq g F (n - 0) 0). Qed.

Section Covariance.
Context {T : Type} `{JSNumber T}.

Lemma at_middle (l1 l2 : list T) (x : T) : at_ (l1 ++ x :: l2) (len l1) = x.
Proof. unfold at_. now rewrite lookup_middle. Qed.

Lemma at_range_map (F : Z -> T) (n : nat) (i : Z) :
  (0 <= i < Z.of_nat n)%Z -> at_ (map F (range 0 n)) i = F i.
Proof. intros B. unfold at_. now rewrite lookup_range_map. Qed.

(** The day [i] of the first pair of loops adds row [i] to the sums. *)
Lemma mean_accumulate_closed (returnsData : list (list T)) (i : Z)
    (row meanReturns : list T) :
  lookup returnsData i = Some row ->
  mean_accumulate returnsData (length meanReturns) i meanReturns
  = Ok (mapi (fun j x => add x (at_ row j)) meanReturns).
Proof.
  intros Hrow. unfold mean_accumulate. apply for_loop_pointwise.
  intros d x rest _ _. unfold at2. rewrite Hrow. cbn [bind].
  now rewrite at_middle, set_at_middle.
Qed.

Lemma mean_sum_fold (returnsData : list (list T)) (m0 : list T) :
  fold_left (fun m row => mapi (fun j x => add x (at_ row j)) m) returnsData m0
  = mapi (fun j x => fold_left add (map (fun row => at_ row j) returnsData) x) m0.
Proof.
  revert m0. induction returnsData as [|row rest IH]; intros m0; simpl.
  - unfold mapi. now rewrite mapi_from_id.
  - rewrite IH. unfold mapi. now rewrite mapi_from_compose.
Qed.

Lemma mean_loop_closed (returnsData : list (list T)) (numStocks : nat) :
  for_loop (mean_accumulate returnsData numStocks)
    (range 0 (length returnsData)) (repeat zero numStocks)
  = Ok (map (fun j => sum0 (map (fun row => at_ row j) returnsData))
          (range 0 numStocks)).
Proof.
  rewrite (for_loop_rows (fun m => length m = numStocks) _
             (fun m row => mapi (fun j x => add x (at_ row j)) m)).
  - now rewrite mean_sum_fold, mapi_repeat.
  - intros k row m Hrow Hm. split.
    + rewrite <- Hm. now apply mean_accumulate_closed.
    + now rewrite mapi_length.
  - apply repeat_length.
Qed.

Lemma mean_divide_closed (numDays numStocks : nat) (F : Z -> T) :
  for_loop (mean_divide numDays) (range 0 numStocks) (map F (range 0 numStocks))
  = Ok (map (fun j => div (F j) (of_Z (Z.of_nat numDays))) (range 0 numStocks)).
Proof.
  rewrite <- (mapi_map_range (fun _ v => div v (of_Z (Z.of_nat numDays))) F).
  set (m := map F (range 0 numStocks)).
  assert (Hm : length m = numStocks)
    by (unfold m; now rewrite length_map, range_length, Nat.sub_0_r).
  rewrite <- Hm at 1.
  apply for_loop_pointwise.
  intros d x rest _ _. unfold mean_divide.
  now rewrite at_middle, set_at_middle.
Qed.

(** The innermost loop: the sum of the products of the deviations. *)
Lemma cov_sum_closed (returnsData : list (list T)) (mi mj : T) (i j : Z) :
  for_loop
    (fun k sumProduct =>
       a <- at2 returnsData k i ;;
       b <- at2 returnsData k j ;;
       Ok (add sumProduct (mul (sub a mi) (sub b mj))))
    (range 0 (length returnsData)) zero
  = Ok (fold_left
          (fun sumProduct row =>
             add sumProduct (mul (sub (at_ row i) mi) (sub (at_ row j) mj)))
          returnsData zero).
Proof.
  apply (for_loop_rows (fun _ => True)); [|exact I].
  intros k row sp Hrow _. unfold at2. rewrite Hrow. now cbn [bind].
Qed.

Lemma cov_cell_closed (returnsData : list (list T)) (numStocks : nat) (i j : Z)
    (done rest : list (list T)) (rdone rpost : list T) (x : T) :
  (0 <= i < Z.of_nat numStocks)%Z -> (0 <= j < Z.of_nat numStocks)%Z ->
  i = len done -> j = len rdone ->
  cov_cell returnsData (map (cov_mean returnsData) (range 0 numStocks))
    (length returnsData) i j (done ++ (rdone ++ x :: rpost) :: rest)
  = Ok (done ++ (rdone ++ cov_entry returnsData i j :: rpost) :: rest).
Proof.
  intros Hi Hj Ei Ej. unfold cov_cell.
  rewrite cov_sum_closed. cbn [bind].
  rewrite !at_range_map by assumption.
  unfold set_at2. subst i j.
  now rewrite lookup_middle, !set_at_middle.
Qed.

Lemma cov_row_loop (returnsData : list (list T)) (numStocks : nat) (i : Z)
    (done rest : list (list T)) (rpost rdone : list T) :
  (0 <= i < Z.of_nat numStocks)%Z -> i = len done ->
  length (rdone ++ rpost) = numStocks ->
  for_loop
    (cov_cell returnsData (map (cov_mean returnsData) (range 0 numStocks))
       (length returnsData) i)
    (map Z.of_nat (seq (length rdone) (length rpost)))
    (done ++ (rdone ++ rpost) :: rest)
  = Ok (done ++ (rdone ++ mapi_from (fun j _ => cov_entry returnsData i j)
                            (len rdone) rpost) :: rest).
Proof.
  intros Hi Ei. revert rdone. induction rpost as [|x rpost IH]; intros rdone Hlen.
  - reflexivity.
  - cbn [length seq map for_loop mapi_from].
    rewrite length_app in Hlen. cbn [length] in Hlen.
    rewrite (cov_cell_closed returnsData numStocks i (Z.of_nat (length rdone)))
      by (auto; lia).
    cbn [bind].
    specialize (IH (rdone ++ [cov_entry returnsData i (Z.of_nat (length rdone))])).
    rewrite <- !app_assoc in IH. cbn [app] in IH.
    replace (length (rdone ++ [cov_entry returnsData i (Z.of_nat (length rdone))]))
      with (S (length rdone)) in IH by (rewrite length_app; simpl; lia).
    replace (len (rdone ++ [cov_entry returnsData i (Z.of_nat (length rdone))]))
      with (len rdone + 1)%Z in IH
      by (unfold len; rewrite length_app; simpl; lia).
    apply IH. rewrite length_app. simpl. lia.
Qed.

(** calculateCovarianceMatrix on a matrix with a first row that is not
    empty: it does not throw, and its entry [i], [j] is [cov_entry]. *)
Lemma calculateCovarianceMatrix_closed (row0 : list T) (rest : list (list T)) :
  row0 <> [] ->
  calculateCovarianceMatrix (row0 :: rest)
  = Ok (map (fun i => map (cov_entry (row0 :: rest) i) (range 0 (length row0)))
          (range 0 (length row0))).
Proof.
  intros Hne. 
  unfold calculateCovarianceMatrix.
  destruct (Nat.eqb_spec (length row0) 0) as [E|_].
  { destruct row0; [congruence | discriminate E]. }
  set (data := row0 :: rest). set (K := length row0).
  rewrite mean_loop_closed. cbn [bind].
  rewrite mean_divide_closed. cbn [bind].
  change (map (fun j => div (sum0 (map (fun row => at_ row j) data))
                          (of_Z (Z.of_nat (length data))))
            (range 0 K))
    with (map (cov_mean data) (range 0 K)).
  rewrite <- (mapi_repeat (fun i _ => map (cov_entry data i) (range 0 K))
                (repeat zero K) K).
  set (cov0 := repeat (repeat zero K) K).
  assert (Hcov0 : length cov0 = K) by apply repeat_length.
  generalize
    (for_loop_pointwise
       (fun i (_ : list T) => map (cov_entry data i) (range 0 K))
       (fun i cm =>
          for_loop (cov_cell data (map (cov_mean data) (range 0 K)) (length data) i)
            (range 0 K) cm)
       cov0).
  rewrite Hcov0. intros P. apply P. clear P.
  intros d x tl Hx Hlen. apply repeat_spec in Hx. subst x.
  assert (Hi : (0 <= len d < Z.of_nat K)%Z).
  { unfold len. rewrite length_app in Hlen. simpl in Hlen. lia. }
  pose proof (cov_row_loop data K (len d) d tl (repeat zero K) [] Hi eq_refl) as L.
  cbn [app length] in L. rewrite repeat_length in L.
  replace (map Z.of_nat (seq 0 K)) with (range 0 K) in L
    by (unfold range; now rewrite Nat.sub_0_r).
  rewrite L by reflexivity.
  do 3 f_equal.
  apply (mapi_repeat (fun j _ => cov_entry data (len d) j) zero K).
Qed.

(** calculateCovarianceMatrix throws on no input at all. *)
Lemma calculateCovarianceMatrix_total (returnsData : list (list T)) :
  exists m, calculateCovarianceMatrix returnsData = Ok m.
Proof.
  destruct returnsData as [|row0 rest]; [now exists []|].
  destruct row0 as [|x row0]; [now exists []|].
  rewrite calculateCovarianceMatrix_closed by discriminate.
  eexists. reflexivity.
Qed.

End Covariance.

(** *** calculateCovarianceMatrix with fewer than two days *)

Section Covariance_small.

Lemma map_constant {A B} (f : A -> B) (c : B) (l : list A) :
  (forall x, In x l -> f x = c) -> map f l = repeat c (length l).
Proof.
  induction l as [|x l IH]; intros Hf; simpl; [reflexivity|].
  rewrite Hf by now left. f_equal. apply IH. intros y Hy. apply Hf. now right.
Qed.

(** The deviation of the only value of a column from the mean of that
    column. *)
Lemma single_deviation (a : xreal) :
  let d := XReal.xsub a (XReal.xdiv (XReal.xadd (Fin 0) a) (Fin 1)) in
  d = XNaN \/ d = Fin 0.
Proof.
  destruct a as [| | |r]; cbn [XReal.xadd].
  - now left.
  - left. simpl. destruct (Rlt_dec 1 0); [lra | reflexivity].
  - left. simpl. destruct (Rlt_dec 1 0); [lra | reflexivity].
  - right. rewrite xdiv_fin by lra. cbn [XReal.xsub]. f_equal. field.
Qed.

Lemma single_day_entry (row : list xreal) (i j : Z) :
  cov_entry [row] i j = XNaN.
Proof.
  unfold cov_entry, cov_mean, sum0, len. cbn [length map fold_left Z.of_nat].
  xsimpl. change (Z.pos (Pos.of_succ_nat 0)) with 1%Z.
  change (IZR (1 - 1)) with 0%R. change (IZR 1) with 1%R.
  change (IZR 0) with 0%R.
  destruct (single_deviation (at_ row i)) as [-> | ->];
    destruct (single_deviation (at_ row j)) as [-> | ->]; try reflexivity.
  cbn [XReal.xmul XReal.xadd]. replace (0 + 0 * 0)%R with 0%R by lra.
  rewrite xdiv_by_zero. destruct (Rlt_dec 0 0); [lra | reflexivity].
Qed.

(** The specification's statement that calculateCovarianceMatrix fails on a single day or on an
    empty matrix does not hold: it returns a matrix of NaN in the first case
    and the empty matrix in the second. *)
Lemma calculateCovarianceMatrix_one_day_counterexample :
  calculateCovarianceMatrix Examples.one_day
  = Ok [[PrimFloat.nan; PrimFloat.nan]; [PrimFloat.nan; PrimFloat.nan]]
  /\ calculateCovarianceMatrix (@nil (list float)) = Ok [].
Proof. split; vm_compute; reflexivity. Qed.

(** C2 (amended).  calculateCovarianceMatrix raises nothing, whatever its
    input and in every arithmetic.  On the empty matrix, and on a matrix
    whose first row is empty, it returns the empty matrix; on a single day
    of K >= 1 returns it returns the K x K matrix whose entries are all NaN,
    the value of 0/0 in the N-1 denominator. *)
Theorem calculateCovarianceMatrix_small_inputs :
  (forall (T : Type) (N : JSNumber T) (returnsData : list (list T)),
      exists m, calculateCovarianceMatrix returnsData = Ok m)
  /\ calculateCovarianceMatrix (@nil (list xreal)) = Ok []
  /\ (forall rest : list (list xreal),
        calculateCovarianceMatrix ([] :: rest) = Ok [])
  /\ (forall (x : xreal) (row : list xreal),
        calculateCovarianceMatrix [x :: row]
        = Ok (repeat (repeat XNaN (S (length row))) (S (length row)))).
Proof.
  split; [|split; [reflexivity | split; [reflexivity|]]].
  - intros T N returnsData. apply calculateCovarianceMatrix_total.
  - intros x row. rewrite calculateCovarianceMatrix_closed by discriminate.
    f_equal. cbn [length].
    rewrite (map_constant _ (repeat XNaN (S (length row)))).
    + now rewrite range_length, Nat.sub_0_r.
    + intros i _. rewrite (map_constant _ XNaN).
      * now rewrite range_length, Nat.sub_0_r.
      * intros j _. apply single_day_entry.
Qed.

End Covariance_small.

(** ** The two volatilities: the algebra *)

Section PortfolioAlgebra.
Local Open Scope R_scope.

Lemma sumR_cons (a : Z) (l : list Z) (f : Z -> R) :
  sumR (a :: l) f = f a + sumR l f.
Proof. unfold sumR. simpl. apply Rsum_cons. Qed.

Lemma sumR_nil (f : Z -> R) : sumR [] f = 0.
Proof. reflexivity. Qed.

Lemma sumR_ext (l : list Z) (f g : Z -> R) :
  (forall a, In a l -> f a = g a) -> sumR l f = sumR l g.
Proof. intros E. unfold sumR. f_equal. now apply map_ext_in. Qed.

Lemma sumR_plus (l : list Z) (f g : Z -> R) :
  sumR l (fun a => f a + g a) = sumR l f + sumR l g.
Proof.
  induction l as [|a l IH]; [rewrite !sumR_nil; lra|].
  rewrite !sumR_cons, IH. lra.
Qed.

Lemma sumR_scal (l : list Z) (c : R) (f : Z -> R) :
  sumR l (fun a => c * f a) = c * sumR l f.
Proof.
  induction l as [|a l IH]; [rewrite !sumR_nil; lra|].
  rewrite !sumR_cons, IH. lra.
Qed.

Lemma sumR_minus (l : list Z) (f g : Z -> R) :
  sumR l (fun a => f a - g a) = sumR l f - sumR l g.
Proof.
  induction l as [|a l IH]; [rewrite !sumR_nil; lra|].
  rewrite !sumR_cons, IH. lra.
Qed.

Lemma sumR_div (l : list Z) (c : R) (f : Z -> R) :
  sumR l (fun a => f a / c) = sumR l f / c.
Proof.
  induction l as [|a l IH]; [rewrite !sumR_nil; unfold Rdiv; lra|].
  rewrite !sumR_cons, IH. unfold Rdiv. lra.
Qed.

Lemma sumR_swap (la lb : list Z) (f : Z -> Z -> R) :
  sumR la (fun a => sumR lb (fun b => f a b))
  = sumR lb (fun b => sumR la (fun a => f a b)).
Proof.
  induction la as [|a la IH].
  - rewrite sumR_nil. induction lb as [|b lb IHb]; [reflexivity|].
    rewrite sumR_cons, <- IHb, sumR_nil. lra.
  - rewrite sumR_cons, IH, <- sumR_plus. apply sumR_ext.
    intros b _. now rewrite sumR_cons.
Qed.

Lemma sumR_square (l : list Z) (a : Z -> R) :
  sumR l a * sumR l a = sumR l (fun r => sumR l (fun c => a r * a c)).
Proof.
  rewrite <- sumR_scal. rewrite (sumR_ext l (fun r => sumR l a * a r)
                                   (fun r => sumR l (fun c => a r * a c))).
  - reflexivity.
  - intros r _. rewrite Rmult_comm. now rewrite sumR_scal.
Qed.

Lemma sumR_nonneg (l : list Z) (f : Z -> R) :
  (forall a, 0 <= f a) -> 0 <= sumR l f.
Proof. intros Hf. apply Rsum_nonneg, Forall_map_nonneg, Hf. Qed.

Variables (D A : list Z) (x : Z -> Z -> R) (w : Z -> R) (n : R).
Hypothesis n_days : n <> 0.

(** The mean of the portfolio is the weighted sum of the means of the
    assets. *)
Lemma port_mean_weighted :
  port_mean D A x w n = sumR A (fun j => w j * col_mean D x n j).
Proof.
  unfold port_mean, port_ret, col_mean.
  rewrite sumR_swap, <- sumR_div. apply sumR_ext. intros j _.
  rewrite (sumR_ext D (fun k => x k j * w j) (fun k => w j * x k j))
    by (intros; lra).
  rewrite sumR_scal. field. exact n_days.
Qed.

Lemma mc_ret_port_mean : mc_ret D A x w n = port_mean D A x w n * 252.
Proof.
  rewrite port_mean_weighted. unfold mc_ret.
  rewrite Rmult_comm, <- sumR_scal. apply sumR_ext. intros j _. lra.
Qed.

(** The deviation of the portfolio on day [k] is the weighted sum of the
    deviations of the assets. *)
Lemma port_deviation (k : Z) :
  port_ret A x w k - port_mean D A x w n
  = sumR A (fun j => w j * (x k j - col_mean D x n j)).
Proof.
  rewrite port_mean_weighted. unfold port_ret. rewrite <- sumR_minus.
  apply sumR_ext. intros j _. lra.
Qed.

Lemma mc_var_port_var :
  n - 1 <> 0 -> mc_var D A x w n = port_var D A x w n * (n / (n - 1)).
Proof.
  intros Hn1.
  set (d := fun k j => x k j - col_mean D x n j).
  set (t := fun k r c => (w r * d k r) * (w c * d k c)).
  assert (E : mc_var D A x w n
              = sumR D (fun k => (port_ret A x w k - port_mean D A x w n)
                                 * (port_ret A x w k - port_mean D A x w n))
                / (n - 1)).
  { rewrite (sumR_ext D
               (fun k => (port_ret A x w k - port_mean D A x w n)
                         * (port_ret A x w k - port_mean D A x w n))
               (fun k => sumR A (fun r => sumR A (fun c => t k r c))))
      by (intros k _; rewrite port_deviation; apply sumR_square).
    rewrite (sumR_swap D A (fun k r => sumR A (fun c => t k r c))).
    rewrite <- (sumR_div A (n - 1)).
    unfold mc_var. apply sumR_ext. intros r _.
    rewrite (sumR_swap D A (fun k c => t k r c)).
    rewrite <- (sumR_div A (n - 1)).
    apply sumR_ext. intros c _. unfold cov. fold (d).
    rewrite (sumR_ext D (fun k => t k r c)
               (fun k => (w r * w c) * (d k r * d k c)))
      by (intros k _; unfold t; ring).
    rewrite sumR_scal. unfold d, Rdiv. ring. }
  rewrite E. unfold port_var. field. split; assumption.
Qed.

Lemma port_var_nonneg : 0 < n -> 0 <= port_var D A x w n.
Proof.
  intros Hn. unfold port_var. apply Rle_mult_inv_pos; [|exact Hn].
  apply sumR_nonneg. intros k. apply Rle_0_sqr.
Qed.

End PortfolioAlgebra.

(** ** The two volatilities: what the code computes on finite returns *)

Lemma mapi_from_ignore {A B} (g : Z -> B) (l : list A) (s : nat) :
  mapi_from (fun k _ => g k) (Z.of_nat s) l
  = map g (map Z.of_nat (seq s (length l))).
Proof.
  revert s. induction l as [|x l IH]; intros s; simpl; auto.
  f_equal. rewrite <- IH. f_equal. lia.
Qed.

Lemma mapi_ignore {A B} (g : Z -> B) (l : list A) :
  mapi (fun k _ => g k) l = map g (range 0 (length l)).
Proof.
  unfold mapi, range. rewrite Nat.sub_0_r. apply (mapi_from_ignore g l 0).
Qed.

Lemma map_by_index {A B} (f : A -> B) (d : A) (l : list A) :
  map f l = map (fun j => f (nth (Z.to_nat j) l d)) (range 0 (length l)).
Proof.
  induction l as [|x l IH] using rev_ind; [reflexivity|].
  rewrite length_app. cbn [length]. rewrite Nat.add_1_r.
  rewrite range_snoc, !map_app by lia. cbn [map]. f_equal.
  - rewrite IH at 1. apply map_ext_in. intros j Hj. apply in_range in Hj.
    now rewrite app_nth1 by lia.
  - rewrite Nat2Z.id, nth_middle. reflexivity.
Qed.

Lemma reducei_from_map_seq {A B} (f : B -> A -> Z -> B) (F : Z -> A) (n s : nat)
    (acc : B) :
  reducei_from f (Z.of_nat s) (map F (map Z.of_nat (seq s n))) acc
  = fold_left (fun acc j => f acc (F j) j) (map Z.of_nat (seq s n)) acc.
Proof.
  revert s acc. induction n as [|n IH]; intros s acc; simpl; auto.
  rewrite <- IH. f_equal. lia.
Qed.

Lemma reducei_map_range {A B} (f : B -> A -> Z -> B) (F : Z -> A) (n : nat)
    (acc : B) :
  reducei f (map F (range 0 n)) acc
  = fold_left (fun acc j => f acc (F j) j) (range 0 n) acc.
Proof. unfold reducei, range. apply (reducei_from_map_seq f F (n - 0) 0). Qed.

Lemma fold_left_mapped {A B C} (f : A -> B -> A) (g : C -> B) (l : list C) (a : A) :
  fold_left f (map g l) a = fold_left (fun a c => f a (g c)) l a.
Proof. revert a. induction l as [|c l IH]; intros a; simpl; auto. Qed.

Section SumsOfFinite.
Local Open Scope R_scope.

(** A fold that adds finite terms computes their sum. *)
Lemma fold_add_terms {A} (l : list A) (t : A -> xreal) (r : A -> R) (a : R) :
  (forall i, In i l -> t i = Fin (r i)) ->
  fold_left (fun acc i => add acc (t i)) l (Fin a) = Fin (a + Rsum (map r l)).
Proof.
  revert a. induction l as [|i l IH]; intros a Ht; simpl.
  - f_equal. unfold Rsum. simpl. lra.
  - rewrite Ht by now left. cbn [XReal.xadd].
    rewrite IH by (intros j Hj; apply Ht; now right).
    f_equal. rewrite Rsum_cons. lra.
Qed.

Lemma fold_add_terms0 (l : list Z) (t : Z -> xreal) (r : Z -> R) :
  (forall i, In i l -> t i = Fin (r i)) ->
  fold_left (fun acc i => add acc (t i)) l zero = Fin (sumR l r).
Proof.
  intros Ht. change (@zero xreal xreal_number) with (Fin 0).
  rewrite (fold_add_terms l t r 0 Ht).
  f_equal. unfold sumR. lra.
Qed.

Lemma for_loop_add_terms (l : list Z) (body : Z -> xreal -> result xreal)
    (r : Z -> R) (a : R) :
  (forall i b, In i l -> body i (Fin b) = Ok (Fin (b + r i))) ->
  for_loop body l (Fin a) = Ok (Fin (a + sumR l r)).
Proof.
  revert a. induction l as [|i l IH]; intros a Hb; simpl.
  - f_equal. f_equal. rewrite sumR_nil. lra.
  - rewrite Hb by now left. cbn [bind].
    rewrite IH by (intros j b Hj; apply Hb; now right).
    do 2 f_equal. rewrite sumR_cons. lra.
Qed.

Lemma Rsum_by_index (c : list R) : Rsum c = sumR (range 0 (length c)) (price c).
Proof.
  unfold sumR, price. rewrite <- (map_by_index (fun v => v) 0 c).
  now rewrite map_id.
Qed.

End SumsOfFinite.

Lemma calculateCovarianceMatrix_closed_hd {T} `{JSNumber T}
    (returnsData : list (list T)) (row0 : list T) :
  hd_error returnsData = Some row0 -> row0 <> [] ->
  calculateCovarianceMatrix returnsData
  = Ok (map (fun i => map (cov_entry returnsData i) (range 0 (length row0)))
          (range 0 (length row0))).
Proof.
  destruct returnsData as [|r rest]; [discriminate|].
  intros [= ->] Hne. now apply calculateCovarianceMatrix_closed.
Qed.

Section FiniteReturns.
Local Open Scope R_scope.

Variables (x : Z -> Z -> R) (w : list R) (N K : nat).
Hypothesis weights_length : length w = K.

Lemma sum0_fin_terms (l : list Z) (r : Z -> R) :
  sum0 (map (fun k => Fin (r k)) l) = Fin (sumR l r).
Proof.
  clear weights_length. rewrite <- (map_map r Fin). apply sum0_fin. Qed.

Lemma weight_at (j : Z) :
  In j (range 0 K) -> at_ (map Fin w) j = Fin (price w j).
Proof.
  intros Hj. apply in_range in Hj. apply at_fin. unfold len.
  rewrite weights_length. lia.
Qed.

Lemma matrix_of_length : len (matrix_of x N K) = Z.of_nat N.
Proof.
  clear weights_length.
  unfold len, matrix_of. now rewrite length_map, range_length, Nat.sub_0_r.
Qed.

Lemma matrix_of_column (j : Z) :
  In j (range 0 K) ->
  map (fun row => at_ row j) (matrix_of x N K)
  = map (fun k => Fin (x k j)) (range 0 N).
Proof.
  clear weights_length.
  intros Hj. apply in_range in Hj. unfold matrix_of. rewrite map_map.
  apply map_ext. intros k.
  now rewrite (at_range_map (fun c => Fin (x k c))) by lia.
Qed.

Lemma portfolio_returns_fin :
  map (fun dayReturns =>
         reducei (fun sum ret i => add sum (mul ret (at_ (map Fin w) i)))
           dayReturns zero)
      (matrix_of x N K)
  = map (fun k => Fin (port_ret (range 0 K) x (price w) k)) (range 0 N).
Proof.
  unfold matrix_of. rewrite map_map. apply map_ext. intros k.
  rewrite reducei_map_range.
  apply (fold_add_terms0 (range 0 K)
           (fun j => mul (Fin (x k j)) (at_ (map Fin w) j))
           (fun j => x k j * price w j)).
  intros j Hj. now rewrite weight_at.
Qed.

Lemma days_nonzero : (1 <= N)%nat -> IZR (Z.of_nat N) <> 0.
Proof.
  clear weights_length. intros HN. apply not_0_IZR. lia. Qed.

(** calculatePortfolioMetrics on finite returns and weights. *)
Lemma calculatePortfolioMetrics_fin :
  (1 <= N)%nat ->
  let pm := calculatePortfolioMetrics (map Fin w) (matrix_of x N K) in
  m_return pm
  = Fin (port_mean (range 0 N) (range 0 K) x (price w) (IZR (Z.of_nat N)) * 252)
  /\ m_volatility pm
     = Fin (sqrt (port_var (range 0 N) (range 0 K) x (price w) (IZR (Z.of_nat N))
                  * 252)).
Proof.
  intros HN. pose proof (days_nonzero HN) as Hn.
  unfold calculatePortfolioMetrics. cbv zeta. cbn [m_return m_volatility].
  rewrite portfolio_returns_fin.
  assert (Hlen : len (map (fun k => Fin (port_ret (range 0 K) x (price w) k))
                         (range 0 N)) = Z.of_nat N).
  { unfold len. now rewrite length_map, range_length, Nat.sub_0_r. }
  rewrite Hlen, sum0_fin_terms.
  change (div (Fin (sumR (range 0 N) (port_ret (range 0 K) x (price w))))
              (of_Z (Z.of_nat N)))
    with (XReal.xdiv (Fin (sumR (range 0 N) (port_ret (range 0 K) x (price w))))
              (Fin (IZR (Z.of_nat N)))).
  rewrite xdiv_fin by assumption.
  fold (port_mean (range 0 N) (range 0 K) x (price w) (IZR (Z.of_nat N))).
  set (P := port_mean _ _ _ _ _).
  split; [reflexivity|].
  rewrite fold_left_mapped.
  rewrite (fold_add_terms0 (range 0 N)
             (fun k => pow2 (sub (Fin (port_ret (range 0 K) x (price w) k)) (Fin P)))
             (fun k => (port_ret (range 0 K) x (price w) k - P)
                       * (port_ret (range 0 K) x (price w) k - P)))
    by reflexivity.
  xsimpl. rewrite xdiv_fin by assumption. subst P.
  change (sumR (range 0 N) _ / IZR (Z.of_nat N))
    with (port_var (range 0 N) (range 0 K) x (price w) (IZR (Z.of_nat N))).
  cbn [XReal.xmul XReal.xsqrt].
  destruct (Rlt_dec _ 0) as [Hneg|_]; [|reflexivity].
  exfalso.
  assert (0 <= port_var (range 0 N) (range 0 K) x (price w) (IZR (Z.of_nat N))).
  { apply port_var_nonneg. apply (IZR_lt 0). lia. }
  lra.
Qed.

Lemma cov_mean_fin (j : Z) :
  (1 <= N)%nat -> In j (range 0 K) ->
  cov_mean (matrix_of x N K) j
  = Fin (col_mean (range 0 N) x (IZR (Z.of_nat N)) j).
Proof.
  clear weights_length.
  intros HN Hj. unfold cov_mean.
  rewrite matrix_of_column, matrix_of_length, sum0_fin_terms by assumption.
  xsimpl. now rewrite xdiv_fin by (apply days_nonzero; assumption).
Qed.

Lemma cov_entry_fin (i j : Z) :
  (2 <= N)%nat -> In i (range 0 K) -> In j (range 0 K) ->
  cov_entry (matrix_of x N K) i j
  = Fin (cov (range 0 N) x (IZR (Z.of_nat N)) i j).
Proof.
  clear weights_length.
  intros HN Hi Hj. unfold cov_entry.
  rewrite !cov_mean_fin, matrix_of_length by (auto; lia).
  unfold matrix_of at 1. rewrite fold_left_mapped.
  rewrite (fold_add_terms0 (range 0 N) _
             (fun k => (x k i - col_mean (range 0 N) x (IZR (Z.of_nat N)) i)
                       * (x k j - col_mean (range 0 N) x (IZR (Z.of_nat N)) j))).
  - xsimpl. rewrite minus_IZR. rewrite xdiv_fin; [reflexivity|].
    assert (2 <= IZR (Z.of_nat N)) by (apply (IZR_le 2); lia). lra.
  - intros k _. apply in_range in Hi, Hj.
    now rewrite !at_range_map by lia.
Qed.

Lemma matrix_of_hd :
  (1 <= N)%nat ->
  hd_error (matrix_of x N K) = Some (map (fun j => Fin (x 0%Z j)) (range 0 K)).
Proof.
  clear weights_length.
  intros HN. unfold matrix_of. unfold range at 2. rewrite Nat.sub_0_r.
  destruct N; [lia | reflexivity].
Qed.

(** calculateCovarianceMatrix on finite returns of at least two days. *)
Lemma calculateCovarianceMatrix_fin :
  (2 <= N)%nat -> (1 <= K)%nat ->
  calculateCovarianceMatrix (matrix_of x N K)
  = Ok (map (fun i => map (fun j => Fin (cov (range 0 N) x (IZR (Z.of_nat N)) i j))
                        (range 0 K))
          (range 0 K)).
Proof.
  clear weights_length.
  intros HN HK.
  rewrite (calculateCovarianceMatrix_closed_hd (matrix_of x N K)
             (map (fun j => Fin (x 0%Z j)) (range 0 K))).
  - rewrite length_map, range_length, Nat.sub_0_r. f_equal.
    apply map_ext_in. intros i Hi. apply map_ext_in. intros j Hj.
    now apply cov_entry_fin.
  - apply matrix_of_hd. lia.
  - intros E. apply map_eq_nil in E. revert E. apply range_nonempty. lia.
Qed.

(** One trial of the simulation on finite data. *)
Lemma monte_carlo_trial_fin (means : list xreal) :
  (forall j, In j (range 0 K) ->
     at_ means j = Fin (col_mean (range 0 N) x (IZR (Z.of_nat N)) j)) ->
  monte_carlo_trial K
    (map (fun i => map (fun j => Fin (cov (range 0 N) x (IZR (Z.of_nat N)) i j))
                     (range 0 K))
       (range 0 K))
    means (map Fin w)
  = Ok {| s_return :=
            Fin (mc_ret (range 0 N) (range 0 K) x (price w) (IZR (Z.of_nat N)));
          s_volatility :=
            jsqrt (Fin (mc_var (range 0 N) (range 0 K) x (price w)
                          (IZR (Z.of_nat N)) * 252)) |}.
Proof.
  intros Hmeans. unfold monte_carlo_trial.
  rewrite (fold_add_terms0 (range 0 K) _
             (fun j => price w j
                       * col_mean (range 0 N) x (IZR (Z.of_nat N)) j * 252))
    by (intros j Hj; now rewrite weight_at, Hmeans).
  fold (mc_ret (range 0 N) (range 0 K) x (price w) (IZR (Z.of_nat N))).
  unfold zero at 1. xsimpl.
  rewrite (for_loop_add_terms (range 0 K) _
             (fun r => sumR (range 0 K)
                         (fun c => price w r * price w c
                                   * cov (range 0 N) x (IZR (Z.of_nat N)) r c))).
  - cbn [bind]. fold (mc_var (range 0 N) (range 0 K) x (price w) (IZR (Z.of_nat N))).
    rewrite Rplus_0_l. reflexivity.
  - intros r b Hr.
    apply (for_loop_add_terms (range 0 K) _
             (fun c => price w r * price w c
                       * cov (range 0 N) x (IZR (Z.of_nat N)) r c)).
    intros c b' Hc. unfold at2.
    pose proof (in_range _ _ _ Hr) as Br. pose proof (in_range _ _ _ Hc) as Bc.
    rewrite lookup_range_map by lia. cbn [bind].
    rewrite at_range_map by lia. now rewrite !weight_at.
Qed.

End FiniteReturns.

(** ** The two volatilities: the comparison *)

Section TwoVolatilities.
Local Open Scope R_scope.

Variables (cols : list (list R)) (N : nat).
Hypothesis series_length : Forall (fun c => length c = N) cols.

Lemma stocks_of_returns : map dailyReturns (stocks_of cols) = map (map Fin) cols.
Proof. unfold stocks_of. rewrite map_map. reflexivity. Qed.

Lemma column_length (j : Z) :
  In j (range 0 (length cols)) -> length (nth (Z.to_nat j) cols []) = N.
Proof.
  intros Hj. apply in_range in Hj.
  apply (proj1 (Forall_forall _ cols) series_length).
  apply nth_In. lia.
Qed.

(** The matrix that runMonteCarloSimulation hands to
    calculateCovarianceMatrix. *)
Lemma transposed_matrix :
  cols <> [] ->
  transposedReturns (map dailyReturns (stocks_of cols))
  = matrix_of (entry cols) N (length cols).
Proof.
  intros Hne. rewrite stocks_of_returns.
  assert (E : exists c0, hd_error cols = Some c0 /\ length c0 = N).
  { destruct cols as [|c0 rest]; [congruence|]. exists c0. split; [reflexivity|].
    inversion series_length; assumption. }
  destruct E as (c0 & Hhd & H0).
  assert (T : transposedReturns (map (map Fin) cols)
              = mapi (fun colIndex _ =>
                        map (fun row => at_ row colIndex) (map (map Fin) cols))
                  (map Fin c0)).
  { destruct cols; [discriminate|]. injection Hhd as ->. reflexivity. }
  rewrite T, mapi_ignore, length_map, H0. unfold matrix_of.
  apply map_ext_in. intros k Hk. apply in_range in Hk.
  rewrite map_map. rewrite (map_by_index _ [] cols).
  apply map_ext_in. intros j Hj. unfold entry.
  apply at_fin. unfold len. rewrite (column_length j Hj). lia.
Qed.

Lemma means_at (j : Z) :
  (1 <= N)%nat -> In j (range 0 (length cols)) ->
  at_ (meanDailyReturns (stocks_of cols)) j
  = Fin (col_mean (range 0 N) (entry cols) (IZR (Z.of_nat N)) j).
Proof.
  intros HN Hj. unfold meanDailyReturns, stocks_of. rewrite map_map.
  cbn [dailyReturns]. rewrite (map_by_index _ [] cols).
  pose proof (in_range _ _ _ Hj) as Bj. rewrite at_range_map by lia.
  rewrite sum0_fin. unfold len. rewrite length_map, (column_length j Hj).
  xsimpl. rewrite xdiv_fin by (apply not_0_IZR; lia).
  rewrite Rsum_by_index, (column_length j Hj). reflexivity.
Qed.

End TwoVolatilities.

(** What the two computations return on finite data, as real numbers. *)
Lemma simulation_values (cols : list (list R)) (w : list R) (N K : nat) :
  (2 <= N)%nat -> (1 <= K)%nat ->
  length cols = K -> Forall (fun c => length c = N) cols -> length w = K ->
  let returns := transposedReturns (map dailyReturns (stocks_of cols)) in
  let pm := calculatePortfolioMetrics (map Fin w) returns in
  let D := range 0 N in
  let A := range 0 K in
  let n := IZR (Z.of_nat N) in
  exists covMatrix,
    calculateCovarianceMatrix returns = Ok covMatrix
    /\ monte_carlo_trial K covMatrix (meanDailyReturns (stocks_of cols))
         (map Fin w)
       = Ok {| s_return := Fin (mc_ret D A (entry cols) (price w) n);
               s_volatility :=
                 jsqrt (Fin (mc_var D A (entry cols) (price w) n * 252)) |}
    /\ m_return pm = Fin (port_mean D A (entry cols) (price w) n * 252)
    /\ m_volatility pm
       = Fin (sqrt (port_var D A (entry cols) (price w) n * 252)).
Proof.
  intros HN HK Hcols Hlen Hw. cbv zeta.
  assert (Hne : cols <> []) by (destruct cols; [simpl in Hcols; lia | discriminate]).
  rewrite (transposed_matrix cols N Hlen Hne), Hcols.
  destruct (calculatePortfolioMetrics_fin (entry cols) w N K Hw) as (Hret & Hvol);
    [lia|].
  eexists.
  split; [apply calculateCovarianceMatrix_fin; assumption|].
  split; [|split; assumption].
  apply (monte_carlo_trial_fin (entry cols) w N K Hw).
  intros j Hj. apply means_at; [assumption | lia | now rewrite Hcols].
Qed.

(** The square root of the variance of the simulation, which is the
    variance [V] of calculatePortfolioMetrics times n / (n - 1). *)
Lemma volatility_factor (V n : R) :
  (0 <= V)%R -> (2 <= n)%R ->
  jsqrt (Fin (V * (n / (n - 1)) * 252))
  = mul (jsqrt (div (Fin n) (Fin (n - 1)))) (Fin (sqrt (V * 252))).
Proof.
  intros HV Hn. xsimpl. rewrite xdiv_fin by lra. cbn [XReal.xsqrt].
  assert (Hq : (0 <= n / (n - 1))%R) by (apply Rle_mult_inv_pos; lra).
  assert (Hp : (0 <= V * (n / (n - 1)))%R) by (apply Rmult_le_pos; assumption).
  destruct (Rlt_dec (V * (n / (n - 1)) * 252) 0) as [Hneg|_]; [lra|].
  destruct (Rlt_dec (n / (n - 1)) 0) as [Hneg|_]; [lra|].
  cbn [XReal.xmul]. f_equal.
  replace (V * (n / (n - 1)) * 252)%R with ((n / (n - 1)) * (V * 252))%R by ring.
  apply sqrt_mult; lra.
Qed.

(** The specification's statement that the two annual returns are exactly
    equal, and the volatility of the simulation sqrt(N / (N - 1)) times
    that of calculatePortfolioMetrics, does not hold in binary64: on two
    stocks with four ordinary daily returns and the weights 0.25 and 0.75
    the returns are 3.6225000000000005 and 3.6224999999999996, and the
    volatility of the simulation is 0.19810035335657533 where sqrt(4 / 3)
    times the other one is 0.1981003533565753. *)
Lemma monte_carlo_versus_metrics_binary64_counterexample :
  let weights := random_weights Examples.quarter_draws 2 0 in
  let pm :=
    calculatePortfolioMetrics weights
      (transposedReturns (map dailyReturns Examples.ordinary_stocks)) in
  weights = [0.25; 0.75]%float
  /\ runMonteCarloSimulation Examples.ordinary_stocks Examples.quarter_draws 1
     = Ok (Some [{| s_return := 0x1.cfae147ae147cp+1%float;
                    s_volatility := 0x1.95b5a357f0b62p-3%float |}])
  /\ m_return pm = 0x1.cfae147ae147ap+1%float
  /\ mul (jsqrt (div (of_Z 4) (of_Z 3))) (m_volatility pm)
     = 0x1.95b5a357f0b61p-3%float
  /\ PrimFloat.eqb 0x1.cfae147ae147cp+1 0x1.cfae147ae147ap+1 = false
  /\ PrimFloat.eqb 0x1.95b5a357f0b62p-3 0x1.95b5a357f0b61p-3 = false.
Proof. cbv zeta. repeat split; vm_compute; reflexivity. Qed.

(** C10 (amended).  Over exact arithmetic, for K >= 1 assets with finite
    return series of N >= 2 days each and a finite weight vector w: on the
    day-by-asset matrix R that runMonteCarloSimulation builds from the
    series, calculateCovarianceMatrix and one trial of the simulation for w
    raise nothing, the results of calculatePortfolioMetrics(w, R) are
    finite, the expected annual return of the trial equals the annualized
    return of calculatePortfolioMetrics, and the volatility of the trial
    equals sqrt(N / (N - 1)) times the volatility of
    calculatePortfolioMetrics.  (In binary64 the two sides need not be
    equal, see the counterexample.) *)
Theorem monte_carlo_versus_metrics (cols : list (list R)) (w : list R)
    (N K : nat) :
  (2 <= N)%nat -> (1 <= K)%nat ->
  length cols = K -> Forall (fun c => length c = N) cols -> length w = K ->
  let selectedStocks := stocks_of cols in
  let returns := transposedReturns (map dailyReturns selectedStocks) in
  let pm := calculatePortfolioMetrics (map Fin w) returns in
  exists (covMatrix : list (list xreal)) (smp : sample xreal) (ret vol : R),
    calculateCovarianceMatrix returns = Ok covMatrix
    /\ monte_carlo_trial (length selectedStocks) covMatrix
         (meanDailyReturns selectedStocks) (map Fin w) = Ok smp
    /\ m_return pm = Fin ret
    /\ m_volatility pm = Fin vol
    /\ s_return smp = m_return pm
    /\ s_volatility smp
       = mul (jsqrt (div (of_Z (Z.of_nat N)) (of_Z (Z.of_nat N - 1))))
           (m_volatility pm).
Proof.
  intros HN HK Hcols Hlen Hw. cbv zeta.
  destruct (simulation_values cols w N K HN HK Hcols Hlen Hw)
    as (covMatrix & Hcov & Htrial & Hret & Hvol).
  assert (Hs : length (stocks_of cols) = K)
    by (unfold stocks_of; now rewrite length_map).
  assert (Hn : (2 <= IZR (Z.of_nat N))%R) by (apply (IZR_le 2); lia).
  rewrite Hs. do 4 eexists.
  split; [exact Hcov|]. split; [exact Htrial|].
  split; [exact Hret|]. split; [exact Hvol|].
  cbn [s_return s_volatility]. rewrite Hret, Hvol. split.
  - f_equal. apply mc_ret_port_mean. lra.
  - rewrite mc_var_port_var by lra.
    rewrite volatility_factor by (try apply port_var_nonneg; lra).
    xsimpl. now rewrite minus_IZR.
Qed.

Lemma monte_carlo_versus_metrics_witness :
  (2 <= 2)%nat /\ (1 <= 2)%nat
  /\ length two_assets = 2%nat
  /\ Forall (fun c => length c = 2%nat) two_assets
  /\ length half_half = 2%nat
  /\ exists (covMatrix : list (list xreal)) (smp : sample xreal) (ret vol : R),
      calculateCovarianceMatrix
        (transposedReturns (map dailyReturns (stocks_of two_assets)))
      = Ok covMatrix
      /\ monte_carlo_trial (length (stocks_of two_assets)) covMatrix
           (meanDailyReturns (stocks_of two_assets)) (map Fin half_half) = Ok smp
      /\ m_return
           (calculatePortfolioMetrics (map Fin half_half)
              (transposedReturns (map dailyReturns (stocks_of two_assets))))
         = Fin ret
      /\ m_volatility
           (calculatePortfolioMetrics (map Fin half_half)
              (transposedReturns (map dailyReturns (stocks_of two_assets))))
         = Fin vol
      /\ s_return smp
         = m_return
             (calculatePortfolioMetrics (map Fin half_half)
                (transposedReturns (map dailyReturns (stocks_of two_assets))))
      /\ s_volatility smp
         = mul (jsqrt (div (of_Z (Z.of_nat 2)) (of_Z (Z.of_nat 2 - 1))))
             (m_volatility
                (calculatePortfolioMetrics (map Fin half_half)
                   (transposedReturns (map dailyReturns (stocks_of two_assets))))).
Proof.
  assert (H1 : (2 <= 2)%nat) by lia.
  assert (H2 : (1 <= 2)%nat) by lia.
  assert (H3 : length two_assets = 2%nat) by reflexivity.
  assert (H4 : Forall (fun c => length c = 2%nat) two_assets)
    by (repeat constructor).
  assert (H5 : length half_half = 2%nat) by reflexivity.
  repeat (split; [assumption|]).
  exact (monte_carlo_versus_metrics two_assets half_half 2 2 H1 H2 H3 H4 H5).
Defined.

(** ** runMonteCarloSimulation as a whole *)

Lemma for_loop_collect {A} (g : Z -> result A) (P : Z -> A -> Prop)
    (idxs : list Z) (acc : list A) :
  (forall i, In i idxs -> exists s, g i = Ok s /\ P i s) ->
  exists ss,
    for_loop (fun i results => s <- g i ;; Ok (results ++ [s])) idxs acc
    = Ok (acc ++ ss)
    /\ Forall2 P idxs ss.
Proof.
  revert acc. induction idxs as [|i idxs IH]; intros acc Hg.
  - exists []. split; [now rewrite app_nil_r | constructor].
  - destruct (Hg i) as (s & Hs & HP); [now left|].
    destruct (IH (acc ++ [s])) as (ss & Hloop & Hall).
    { intros j Hj. apply Hg. now right. }
    exists (s :: ss). split; [|now constructor].
    cbn [for_loop]. rewrite Hs. cbn [bind]. rewrite Hloop.
    now rewrite <- app_assoc.
Qed.

Lemma Forall2_nth_error {A B} (P : A -> B -> Prop) (l : list A) (l' : list B)
    (i : nat) (a : A) (b : B) :
  Forall2 P l l' -> nth_error l i = Some a -> nth_error l' i = Some b -> P a b.
Proof.
  intros HF. revert i. induction HF as [|x y l l' Hxy HF IH]; intros i Ha Hb.
  - destruct i; discriminate.
  - destruct i as [|i]; simpl in *.
    + now injection Ha as <-; injection Hb as <-.
    + eapply IH; eauto.
Qed.

(** Over exact arithmetic every sample of a run of the simulation has the
    annualized return of calculatePortfolioMetrics for its own weights, and
    sqrt(N / (N - 1)) times its volatility, when no vector of draws is all
    0. *)
Lemma runMonteCarloSimulation_versus_metrics (cols : list (list R))
    (rv : nat -> R) (N K numSimulations : nat) :
  (2 <= N)%nat -> (1 <= K)%nat ->
  length cols = K -> Forall (fun c => length c = N) cols ->
  (forall k, (0 <= rv k < 1)%R) ->
  (forall i, (i < numSimulations)%nat ->
     exists k, (i * K <= k < i * K + K)%nat /\ rv k <> 0%R) ->
  let rnd := fun k => Fin (rv k) in
  let selectedStocks := stocks_of cols in
  let returns := transposedReturns (map dailyReturns selectedStocks) in
  exists results,
    runMonteCarloSimulation selectedStocks rnd numSimulations = Ok (Some results)
    /\ length results = numSimulations
    /\ forall i s, nth_error results i = Some s ->
         let pm := calculatePortfolioMetrics (random_weights rnd K (i * K)) returns in
         s_return s = m_return pm
         /\ s_volatility s
            = mul (jsqrt (div (of_Z (Z.of_nat N)) (of_Z (Z.of_nat N - 1))))
                (m_volatility pm).
Proof.
  intros HN HK Hcols Hlen Hrv Hnz. cbv zeta.
  assert (Hs : length (stocks_of cols) = K)
    by (unfold stocks_of; now rewrite length_map).
  set (rel := fun (i : Z) (s : sample xreal) =>
         let pm := calculatePortfolioMetrics
                     (random_weights (fun k => Fin (rv k)) K (Z.to_nat i * K))
                     (transposedReturns (map dailyReturns (stocks_of cols))) in
         s_return s = m_return pm
         /\ s_volatility s
            = mul (jsqrt (div (of_Z (Z.of_nat N)) (of_Z (Z.of_nat N - 1))))
                (m_volatility pm)).
  assert (Hcov : exists covMatrix,
             calculateCovarianceMatrix
               (transposedReturns (map dailyReturns (stocks_of cols)))
             = Ok covMatrix
             /\ forall i, In i (range 0 numSimulations) ->
                  exists s,
                    monte_carlo_trial K covMatrix (meanDailyReturns (stocks_of cols))
                      (random_weights (fun k => Fin (rv k)) K (Z.to_nat i * K))
                    = Ok s
                    /\ rel i s).
  { destruct (calculateCovarianceMatrix_total
                (transposedReturns (map dailyReturns (stocks_of cols))))
      as (covMatrix & Hc).
    exists covMatrix. split; [exact Hc|].
    intros i Hi. apply in_range in Hi.
    destruct (random_weights_fin rv K (Z.to_nat i * K) Hrv) as (_ & Hw);
      [apply Hnz; lia|].
    set (w := map (fun r => (r / Rsum (map rv (seq (Z.to_nat i * K) K)))%R)
                (map rv (seq (Z.to_nat i * K) K))) in Hw.
    assert (Hwl : length w = K) by (unfold w; now rewrite !length_map, length_seq).
    destruct (simulation_values cols w N K HN HK Hcols Hlen Hwl)
      as (cm & Hc' & Htrial & Hret & Hvol).
    rewrite Hc in Hc'. injection Hc' as <-.
    assert (Hn : (2 <= IZR (Z.of_nat N))%R) by (apply (IZR_le 2); lia).
    eexists. split; [rewrite Hw; exact Htrial|].
    unfold rel. cbv zeta. rewrite Hw, Hret, Hvol. cbn [s_return s_volatility].
    split.
    - f_equal. apply mc_ret_port_mean. lra.
    - rewrite mc_var_port_var by lra.
      rewrite volatility_factor by (try apply port_var_nonneg; lra).
      xsimpl. now rewrite minus_IZR. }
  destruct Hcov as (covMatrix & Hc & Htrials).
  destruct (for_loop_collect
              (fun i => monte_carlo_trial K covMatrix (meanDailyReturns (stocks_of cols))
                          (random_weights (fun k => Fin (rv k)) K (Z.to_nat i * K)))
              rel (range 0 numSimulations) [] Htrials) as (ss & Hloop & Hall).
  exists ss. split; [|split].
  - unfold runMonteCarloSimulation. rewrite Hs.
    destruct (Nat.eqb_spec K 0); [lia|]. rewrite Hc. cbn [bind].
    rewrite Hloop. reflexivity.
  - apply Forall2_length in Hall. rewrite range_length in Hall. lia.
  - intros i s Hi.
    assert (Hidx : nth_error (range 0 numSimulations) i = Some (Z.of_nat i)).
    { assert (i < numSimulations)%nat.
      { apply Forall2_length in Hall. rewrite range_length in Hall.
        assert (i < length ss)%nat by (apply nth_error_Some; congruence). lia. }
      unfold range. rewrite nth_error_map, nth_error_seq.
      destruct (Nat.ltb_spec i (numSimulations - 0)); [reflexivity | lia]. }
    pose proof (Forall2_nth_error rel _ _ i _ _ Hall Hidx Hi) as Hrel.
    unfold rel in Hrel. cbv zeta in Hrel. now rewrite Nat2Z.id in Hrel.
Qed.

(** The same two computations in binary64, on two assets and two days:
    the volatility of calculatePortfolioMetrics is 19.843134832984429, that
    of the simulation 28.062430400804562, sqrt(2) times as much. *)
Lemma two_volatilities_binary64 :
  m_volatility (calculatePortfolioMetrics Examples.halves Examples.two_days)
  = 0x1.3d7d7af35c95bp+4%float
  /\ runMonteCarloSimulation Examples.two_stocks Examples.half_draws 1
     = Ok (Some [{| s_return := 693%float;
                    s_volatility := 0x1.c0ffb7051bb55p+4%float |}]).
Proof. split; vm_compute; reflexivity. Qed.

(** * Further properties *)

(** ** calculateEMA: the shape of the result and the recurrence *)

Section EMA.
Context {T : Type} `{JSNumber T}.

Lemma read_app_old (l : list (jsval T)) (v : jsval T) (i : Z) :
  (0 <= i < len l)%Z -> read (l ++ [v]) i = read l i.
Proof.
  intros B. unfold read, lookup, len in *.
  destruct (Z.ltb_spec i 0); [lia|]. now rewrite nth_error_app1 by lia.
Qed.

Lemma read_app_last (l : list (jsval T)) (v : jsval T) :
  read (l ++ [v]) (len l) = v.
Proof.
  unfold read. now rewrite lookup_middle.
Qed.

Lemma len_app_one {A} (l : list A) (v : A) : len (l ++ [v]) = (len l + 1)%Z.
Proof. unfold len. rewrite length_app. simpl. lia. Qed.

Lemma ema_loop_shape (prices : list T) (period : Z) (n : nat) :
  (1 <= period)%Z -> (n <= length prices)%nat ->
  exists ema,
    for_loop (ema_step prices period) (range 0 n) [] = Ok ema
    /\ length ema = n
    /\ ema_shape prices period ema.
Proof.
  intros HP. induction n as [|n IH]; intros Hn.
  - exists []. split; [reflexivity | split; [reflexivity|]].
    unfold ema_shape, len. simpl. repeat split; intros; lia.
  - destruct IH as (ema & Hloop & Hlen & S1 & S2 & S3); [lia|].
    assert (Hl : len ema = Z.of_nat n) by (unfold len; now rewrite Hlen).
    rewrite range_snoc, for_loop_app, Hloop by lia. cbn [bind for_loop].
    unfold ema_step.
    destruct (Z.ltb_spec (Z.of_nat n) (period - 1)) as [Hlt | Hge].
    + exists (ema ++ [Null]). split; [reflexivity | split].
      { rewrite length_app. simpl. lia. }
      unfold ema_shape. rewrite len_app_one, Hl. repeat split.
      * intros i Hi Hi'. destruct (Z.eq_dec i (Z.of_nat n)) as [-> | Hne].
        -- rewrite <- Hl. apply read_app_last.
        -- rewrite read_app_old by lia. apply S1; lia.
      * intros; lia.
      * intros i Hi. lia.
    + destruct (Z.eqb_spec (Z.of_nat n) (period - 1)) as [Heq | Hne].
      * rewrite reduce1_sum1.
        2:{ intros E. apply (f_equal (@length T)) in E. simpl in E.
            rewrite slice_length in E; unfold len; lia. }
        cbn [bind]. fold (ema_seed prices period).
        exists (ema ++ [Num (ema_seed prices period)]).
        split; [reflexivity | split].
        { rewrite length_app. simpl. lia. }
        unfold ema_shape. rewrite len_app_one, Hl. repeat split.
        -- intros i Hi Hi'. rewrite read_app_old by lia. apply S1; lia.
        -- intros _. rewrite <- Heq, <- Hl. apply read_app_last.
        -- intros i Hi. lia.
      * assert (Hprev : exists prev, read ema (Z.of_nat n - 1) = Num prev).
        { destruct (Z.eq_dec (Z.of_nat n - 1) (period - 1)) as [E | E].
          - rewrite E. eexists. apply S2. lia.
          - destruct (S3 (Z.of_nat n - 1)%Z) as (q & _ & Hq); [lia|]. eauto. }
        destruct Hprev as (prev & Hprev). rewrite Hprev. cbn [to_number].
        fold (ema_next prices period (Z.of_nat n) prev).
        exists (ema ++ [Num (ema_next prices period (Z.of_nat n) prev)]).
        split; [reflexivity | split].
        { rewrite length_app. simpl. lia. }
        unfold ema_shape. rewrite len_app_one, Hl. repeat split.
        -- intros i Hi Hi'. rewrite read_app_old by lia. apply S1; lia.
        -- intros Hp. rewrite read_app_old by lia. apply S2. lia.
        -- intros i Hi. destruct (Z.eq_dec i (Z.of_nat n)) as [-> | Hi'].
           ++ exists prev. split.
              ** now rewrite read_app_old by lia.
              ** rewrite <- Hl. apply read_app_last.
           ++ destruct (S3 i) as (q & Hq1 & Hq2); [lia|].
              exists q. now rewrite !read_app_old by lia.
Qed.

(** The entries of the result of calculateEMA. *)
Lemma calculateEMA_entries (prices : list T) (period : Z) :
  (1 <= period)%Z ->
  exists ema,
    calculateEMA prices period = Ok ema
    /\ length ema = length prices
    /\ (forall i, (0 <= i < len prices)%Z -> (i < period - 1)%Z ->
          read ema i = Null)
    /\ ((period <= len prices)%Z ->
        read ema (period - 1)
        = Num (div (sum1 (slice prices 0 period)) (of_Z period)))
    /\ (forall i, (period <= i < len prices)%Z ->
          exists prev,
            read ema (i - 1) = Num prev
            /\ read ema i
               = Num (add (mul (sub (at_ prices i) prev)
                             (div (of_Z 2) (of_Z (period + 1))))
                        prev)).
Proof.
  intros HP.
  destruct (ema_loop_shape prices period (length prices) HP (Nat.le_refl _))
    as (ema & Hloop & Hlen & S1 & S2 & S3).
  assert (Hl : len ema = len prices) by (unfold len; now rewrite Hlen).
  exists ema. rewrite Hl in *. repeat split; auto.
  intros Hp. apply S2. lia.
Qed.

(** X1.  For a period of at least 1 calculateEMA does not throw; its result
    is as long as the prices, null below index period-1, at index period-1
    the sum of the first [period] prices divided by the period, and at every
    later index i the value (prices[i] - ema[i-1]) * 2 / (period+1) + ema[i-1]
    computed from the number at index i-1. *)
Theorem calculateEMA_recurrence (prices : list T) (period : Z) :
  (1 <= period)%Z ->
  exists ema,
    calculateEMA prices period = Ok ema
    /\ length ema = length prices
    /\ (forall i, (0 <= i < len prices)%Z -> (i < period - 1)%Z ->
          read ema i = Null)
    /\ ((period <= len prices)%Z ->
        read ema (period - 1)
        = Num (div (sum1 (slice prices 0 period)) (of_Z period)))
    /\ (forall i, (period <= i < len prices)%Z ->
          exists prev,
            read ema (i - 1) = Num prev
            /\ read ema i
               = Num (add (mul (sub (at_ prices i) prev)
                             (div (of_Z 2) (of_Z (period + 1))))
                        prev)).
Proof. exact (calculateEMA_entries prices period). Qed.

End EMA.

(** ** The moving averages over exact arithmetic *)

Section Averages.
Local Open Scope R_scope.

Lemma xadd_zero_l (a : xreal) : XReal.xadd (Fin 0) a = a.
Proof. destruct a; simpl; auto. f_equal. lra. Qed.

Lemma sum0_sum1 (l : list xreal) : l <> [] -> sum0 l = sum1 l.
Proof.
  destruct l as [|x r]; [congruence|]. intros _.
  unfold sum0, sum1. cbn [fold_left]. xsimpl. now rewrite xadd_zero_l.
Qed.

(** X2.  The first defined entry of calculateEMA, at index period-1, is the
    entry of calculateSMA at that index: the average starts from the simple
    mean of the first [period] prices (over exact arithmetic, for any prices,
    NaN and infinities included). *)
Theorem calculateEMA_seed_is_SMA (prices : list xreal) (period : Z) :
  (1 <= period <= len prices)%Z ->
  exists ema,
    calculateEMA prices period = Ok ema
    /\ read ema (period - 1) = read (calculateSMA prices period) (period - 1).
Proof.
  intros HP.
  destruct (calculateEMA_entries prices period) as (ema & He & _ & _ & Hs & _);
    [lia|].
  exists ema. split; [exact He|]. rewrite Hs by lia.
  rewrite calculateSMA_map. unfold read, len in *.
  rewrite lookup_range_map by lia. unfold sma_entry.
  destruct (Z.ltb_spec (period - 1) (period - 1)); [lia|].
  replace (period - 1 - period + 1)%Z with 0%Z by lia.
  replace (period - 1 + 1)%Z with period by lia.
  rewrite sum0_sum1; [reflexivity|].
  intros E. apply (f_equal (@length xreal)) in E.
  rewrite slice_length in E by (unfold len; lia). simpl in E. lia.
Qed.

Lemma calculateEMA_seed_is_SMA_witness :
  (1 <= 2 <= len [Fin 4; Fin 6; Fin 11])%Z
  /\ exists ema,
      calculateEMA [Fin 4; Fin 6; Fin 11] 2 = Ok ema
      /\ read ema (2 - 1) = read (calculateSMA [Fin 4; Fin 6; Fin 11] 2) (2 - 1).
Proof.
  assert (H : (1 <= 2 <= len [Fin 4; Fin 6; Fin 11])%Z) by (unfold len; simpl; lia).
  split; [exact H|]. exact (calculateEMA_seed_is_SMA [Fin 4; Fin 6; Fin 11] 2 H).
Defined.

Lemma In_firstn_list {A} (x : A) (n : nat) (l : list A) :
  In x (firstn n l) -> In x l.
Proof.
  revert l. induction n as [|n IH]; intros l; [intros []|].
  destruct l as [|y l]; [intros []|]. simpl. intros [E | Hin]; auto.
Qed.

End Averages.

(** ** calculateRSI: shape, the period 0, falling prices *)

Section RSI_more.
Context {T : Type} `{JSNumber T}.

(** The entries of the result of calculateRSI. *)
Lemma calculateRSI_entries (prices : list T) (period : Z) :
  (1 <= period)%Z ->
  exists out,
    calculateRSI prices period = Ok out
    /\ length out = (length prices - 1)%nat
    /\ (forall j, (0 <= j < len prices - 1)%Z -> (j < period - 1)%Z ->
          read out j = Null)
    /\ (forall j, (period - 1 <= j < len prices - 1)%Z ->
          exists v, read out j = Num v).
Proof.
  intros HP. exists (map (rsi_entry prices period) (range 1 (length prices))).
  split; [now apply calculateRSI_closed|]. unfold len.
  split; [now rewrite length_map, range_length|]. split.
  - intros j Hj Hlt. unfold read. rewrite lookup_range_map_from by lia.
    unfold rsi_entry. destruct (Z.ltb_spec (Z.of_nat 1 + j) period); [reflexivity | lia].
  - intros j Hj. unfold read. rewrite lookup_range_map_from by lia.
    unfold rsi_entry. destruct (Z.ltb_spec (Z.of_nat 1 + j) period); [lia|].
    eexists. reflexivity.
Qed.

(** X5.  For a period of at least 1 calculateRSI does not throw and returns
    one entry less than there are prices: the entry at index j belongs to day
    j+1, it is null below index period-1 and a number from there on. *)
Theorem calculateRSI_shape (prices : list T) (period : Z) :
  (1 <= period)%Z ->
  exists out,
    calculateRSI prices period = Ok out
    /\ length out = (length prices - 1)%nat
    /\ (forall j, (0 <= j < len prices - 1)%Z -> (j < period - 1)%Z ->
          read out j = Null)
    /\ (forall j, (period - 1 <= j < len prices - 1)%Z ->
          exists v, read out j = Num v).
Proof. exact (calculateRSI_entries prices period). Qed.

(** X6.  With a period of 0 or less calculateRSI throws a TypeError as soon
    as there are two prices: at day 1 the window of gains is empty and
    [reduce] has no initial value.  With fewer than two prices it returns the
    empty array, whatever the period. *)
Theorem calculateRSI_without_period (prices : list T) (period : Z) :
  ((period <= 0)%Z -> (2 <= length prices)%nat ->
   calculateRSI prices period = Throw TypeError)
  /\ ((length prices <= 1)%nat -> calculateRSI prices period = Ok []).
Proof.
  split.
  - intros HP Hlen.
    destruct prices as [|p0 [|p1 rest]]; try (simpl in Hlen; lia).
    unfold calculateRSI, range. cbn [length Nat.sub seq map for_loop].
    unfold rsi_step at 1. cbn [app].
    destruct (Z.ltb_spec (Z.of_nat 1) period) as [Hlt | _]; [lia|].
    assert (E : forall x : T, slice [x] (Z.of_nat 1 - period) (Z.of_nat 1) = []).
    { intros x. unfold slice, clamp_index, len. cbn [length].
      destruct (Z.ltb_spec (Z.of_nat 1 - period) 0); [lia|].
      destruct (Z.ltb_spec (Z.of_nat 1) 0); [lia|].
      rewrite !Z.min_r by lia.
      replace (Z.of_nat 1 - Z.of_nat 1)%Z with 0%Z by lia. reflexivity. }
    rewrite E. reflexivity.
  - intros Hlen. destruct prices as [|p0 [|p1 rest]]; try reflexivity.
    simpl in Hlen. lia.
Qed.

End RSI_more.

Lemma calculateRSI_shape_witness :
  (1 <= 14)%Z
  /\ exists out,
      calculateRSI Examples.flat_tail 14 = Ok out
      /\ length out = (length Examples.flat_tail - 1)%nat.
Proof.
  assert (H1 : (1 <= 14)%Z) by lia.
  split; [exact H1|].
  destruct (calculateRSI_shape Examples.flat_tail 14 H1) as (out & Ho & Hl & _).
  exists out. split; [exact Ho | exact Hl].
Defined.

Lemma calculateRSI_without_period_witness :
  ((0 <= 0)%Z /\ (2 <= length Examples.S10)%nat
   /\ calculateRSI Examples.S10 0 = Throw TypeError)
  /\ ((length [7%float] <= 1)%nat /\ calculateRSI [7%float] 14 = Ok []).
Proof.
  assert (H1 : (0 <= 0)%Z) by lia.
  assert (H2 : (2 <= length Examples.S10)%nat) by (simpl; lia).
  assert (H3 : (length [7%float] <= 1)%nat) by (simpl; lia).
  split.
  - split; [exact H1 | split; [exact H2|]].
    exact (proj1 (calculateRSI_without_period Examples.S10 0) H1 H2).
  - split; [exact H3|].
    exact (proj2 (calculateRSI_without_period [7%float] 14) H3).
Defined.

Section RSI_falling.
Local Open Scope R_scope.

Lemma rsi_value_no_gain (b : R) : 0 < b -> rsi_value (Fin 0) (Fin b) = Fin 0.
Proof.
  intros Hb. unfold rsi_value. xsimpl. rewrite xdiv_fin by lra.
  cbn [XReal.xadd]. rewrite xdiv_fin.
  - cbn [XReal.xsub]. f_equal. field. lra.
  - unfold Rdiv. rewrite Rmult_0_l. lra.
Qed.

(** X7.  For a strictly decreasing series of finite prices every entry of
    calculateRSI(S, 14) from index 13 on is exactly 0, and no entry is any
    other number. *)
Theorem calculateRSI_falling (S : list R) :
  strictly_decreasing S ->
  exists out,
    calculateRSI (map Fin S) 14 = Ok out
    /\ (forall j, (13 <= j < len S - 1)%Z -> read out j = Num (Fin 0))
    /\ forall j v, read out j = Num v -> v = Fin 0.
Proof.
  intros Hdec.
  enough (Hzero : exists out,
             calculateRSI (map Fin S) 14 = Ok out
             /\ forall j v, read out j = Num v -> v = Fin 0).
  { destruct Hzero as (out & Ho & Hz). exists out.
    split; [exact Ho | split; [|exact Hz]].
    intros j Hj.
    destruct (calculateRSI_entries (map Fin S) 14) as (out' & Ho' & _ & _ & Hnum);
      [lia|].
    rewrite Ho in Ho'. injection Ho' as <-.
    destruct (Hnum j) as (v & Hv); [unfold len in *; rewrite length_map; lia|].
    rewrite Hv. f_equal. exact (Hz j v Hv). }
  exists (map (rsi_entry (map Fin S) 14) (range 1 (length S))).
  split; [rewrite calculateRSI_closed, length_map by lia; reflexivity|].
  intros j v. unfold read.
  destruct (Z_lt_ge_dec j 0) as [Hneg | Hj0];
    [rewrite lookup_beyond by lia; discriminate|].
  destruct (Z_lt_ge_dec j (Z.of_nat (length S - 1))) as [Hj | Hj];
    [| rewrite lookup_beyond
         by (unfold len; rewrite length_map, range_length; lia);
       discriminate].
  rewrite lookup_range_map_from by lia.
  set (i := (Z.of_nat 1 + j)%Z).
  destruct (Z_lt_ge_dec i 14) as [Hi | Hi].
  - unfold rsi_entry. destruct (Z.ltb_spec i 14); [discriminate | lia].
  - rewrite rsi_entry_fin by (unfold len, i; lia).
    assert (Hw : forall k, In k (rsi_window 14 i) -> (1 <= k < len S)%Z).
    { intros k Hk. apply in_range in Hk. unfold len, i in *. lia. }
    assert (Hin : In i (rsi_window 14 i)).
    { unfold rsi_window, range. apply in_map_iff. exists (Z.to_nat i).
      split; [lia|]. apply in_seq. lia. }
    assert (HG : Rsum (map (Rgain S) (rsi_window 14 i)) = 0).
    { apply Rsum_zero, Forall_forall. intros r Hr.
      apply in_map_iff in Hr. destruct Hr as (k & <- & Hk).
      specialize (Hdec k (Hw k Hk)). unfold Rgain. apply Rmax_right. lra. }
    assert (HL : 0 < Rsum (map (Rloss S) (rsi_window 14 i))).
    { apply (Rsum_positive _ (Rloss S i)).
      - apply Forall_map_nonneg, Rloss_nonneg.
      - now apply in_map.
      - specialize (Hdec i (Hw i Hin)). unfold Rloss.
        apply Rlt_le_trans with (- (price S i - price S (i - 1))); [lra|].
        apply Rmax_l. }
    rewrite HG. replace (0 / 14) with 0 by lra.
    rewrite rsi_value_no_gain by lra. congruence.
Qed.

Lemma falling16_decreasing : strictly_decreasing falling16.
Proof.
  intros k Hk. unfold len in Hk. simpl in Hk.
  assert (E : exists n, k = Z.of_nat (Datatypes.S n) /\ (n < 15)%nat)
    by (exists (Z.to_nat (k - 1)); lia).
  destruct E as (n & -> & Hn). unfold price.
  replace (Z.of_nat (Datatypes.S n) - 1)%Z with (Z.of_nat n) by lia.
  rewrite !Nat2Z.id.
  do 15 (destruct n as [|n]; [simpl; lra|]). lia.
Qed.

Lemma calculateRSI_falling_witness :
  strictly_decreasing falling16
  /\ exists out,
      calculateRSI (map Fin falling16) 14 = Ok out
      /\ (forall j, (13 <= j < len falling16 - 1)%Z -> read out j = Num (Fin 0))
      /\ forall j v, read out j = Num v -> v = Fin 0.
Proof.
  split; [exact falling16_decreasing|].
  exact (calculateRSI_falling falling16 falling16_decreasing).
Defined.

End RSI_falling.

(** ** calculateMACD and the fields of the response *)

Section MACD_shape.
Context {T : Type} `{JSNumber T}.

Lemma lookup_read (l : list (jsval T)) (i : Z) :
  (0 <= i < len l)%Z -> lookup l i = Some (read l i).
Proof.
  intros B. unfold read. destruct (lookup l i) eqn:E; [reflexivity|].
  unfold lookup, len in *. destruct (Z.ltb_spec i 0); [lia|].
  apply nth_error_None in E. lia.
Qed.

Lemma read_mapi (f : Z -> jsval T -> jsval T) (l : list (jsval T)) (i : Z) :
  (0 <= i < len l)%Z -> read (mapi f l) i = f i (read l i).
Proof.
  intros B. unfold read at 1. now rewrite lookup_mapi, lookup_read.
Qed.

Lemma all_null_filtered (l : list (jsval T)) :
  (forall i, (0 <= i < len l)%Z -> read l i = Null) ->
  filter (fun x => negb (is_null x)) l = [].
Proof.
  intros Hall.
  assert (G : forall x, In x l -> x = Null).
  { intros x Hx. apply In_nth_error in Hx. destruct Hx as (n & Hn).
    assert (n < length l)%nat by (apply nth_error_Some; congruence).
    rewrite <- (Hall (Z.of_nat n)) by (unfold len; lia).
    unfold read. now rewrite lookup_nat, Hn. }
  induction l as [|x l IH]; [reflexivity|].
  simpl. rewrite (G x) by now left. simpl. apply IH.
  - intros i Hi. rewrite <- (Hall (i + 1)%Z).
    + unfold read, lookup. destruct (Z.ltb_spec i 0); [unfold len in Hi; lia|].
      destruct (Z.ltb_spec (i + 1) 0); [lia|].
      replace (Z.to_nat (i + 1)) with (Datatypes.S (Z.to_nat i)) by lia.
      reflexivity.
    + unfold len in *. simpl. lia.
  - intros y Hy. apply G. now right.
Qed.

(** The two lines of the result of calculateMACD. *)
Lemma calculateMACD_lines_shape (prices : list T)
    (fastPeriod slowPeriod signalPeriod : Z) :
  (1 <= fastPeriod)%Z -> (1 <= slowPeriod)%Z -> (1 <= signalPeriod)%Z ->
  exists r,
    calculateMACD prices fastPeriod slowPeriod signalPeriod = Ok r
    /\ length (macd r) = length prices
    /\ (forall i, (0 <= i < len prices)%Z ->
          (i < Z.max fastPeriod slowPeriod - 1)%Z -> read (macd r) i = Null)
    /\ length (signal r)
       = length (filter (fun x => negb (is_null x)) (macd r)).
Proof.
  intros Hf Hs Hg.
  destruct (calculateMACD_total prices fastPeriod slowPeriod signalPeriod Hf Hs Hg)
    as (r & Hr).
  destruct (calculateEMA_entries prices fastPeriod Hf)
    as (ema12 & E12 & L12 & N12 & _).
  destruct (calculateEMA_entries prices slowPeriod Hs)
    as (ema26 & E26 & L26 & N26 & _).
  destruct (calculateMACD_lines prices fastPeriod slowPeriod signalPeriod
              ema12 ema26 r E12 E26 Hr) as (Hm & Hsig).
  destruct (calculateEMA_entries
              (map to_number (filter (fun x => negb (is_null x)) (macd r)))
              signalPeriod Hg) as (sg & Esg & Lsg & _).
  rewrite Hsig in Esg. injection Esg as <-.
  exists r. split; [exact Hr|]. split; [|split].
  - now rewrite Hm, mapi_length.
  - intros i Hi Hlt. rewrite Hm.
    rewrite read_mapi by (unfold len in *; lia).
    apply macd_entry_null.
    destruct (Z_lt_ge_dec i (fastPeriod - 1)) as [Hfast | Hfast].
    + left. now apply N12.
    + right. apply N26; [assumption | lia].
  - now rewrite Lsg, length_map.
Qed.

(** X8.  For periods of at least 1 calculateMACD does not throw; its macd
    line is as long as the prices and null below index
    max(fastPeriod, slowPeriod) - 1, and its signal line has one entry for
    each entry of the macd line that is not null, so it is shorter than the
    prices by the number of nulls. *)
Theorem calculateMACD_shape (prices : list T)
    (fastPeriod slowPeriod signalPeriod : Z) :
  (1 <= fastPeriod)%Z -> (1 <= slowPeriod)%Z -> (1 <= signalPeriod)%Z ->
  exists r,
    calculateMACD prices fastPeriod slowPeriod signalPeriod = Ok r
    /\ length (macd r) = length prices
    /\ (forall i, (0 <= i < len prices)%Z ->
          (i < Z.max fastPeriod slowPeriod - 1)%Z -> read (macd r) i = Null)
    /\ length (signal r)
       = length (filter (fun x => negb (is_null x)) (macd r)).
Proof. exact (calculateMACD_lines_shape prices fastPeriod slowPeriod signalPeriod). Qed.

(** X9.  The indicator computations of the handler raise no exception on
    any array of prices (so its [catch] is reached only from the two
    requests); the response carries the prices as they are and one daily
    return for each of them. *)
Theorem handler_indicators_total (prices : list T) :
  exists r,
    handler_indicators prices = Ok r
    /\ f_historicalPrices r = prices
    /\ length (f_dailyReturns r) = length prices.
Proof.
  unfold handler_indicators.
  destruct (calculateRSI_entries prices 14) as (rsi & -> & _); [lia|].
  destruct (calculateMACD_total prices 12 26 9) as (m & ->); try lia.
  cbn [bind]. eexists. split; [reflexivity|].
  cbn [f_historicalPrices f_dailyReturns]. split; [reflexivity|].
  unfold calculateDailyReturns. apply mapi_length.
Qed.

Lemma last_entry_null (arr : list (jsval T)) :
  arr <> [] -> (forall i, (0 <= i < len arr)%Z -> read arr i = Null) ->
  last_entry arr = Null.
Proof.
  intros Hne Hall. unfold last_entry. apply Hall.
  unfold len. destruct arr; [congruence | cbn [length]; lia].
Qed.

(** The fields of the response for a short history. *)
Lemma handler_short_history_fields (prices : list T) :
  (1 <= length prices < 26)%nat ->
  exists r,
    handler_indicators prices = Ok r
    /\ f_macd r = Null
    /\ f_macdSignal r = Undefined
    /\ f_sma50 r = Null
    /\ ((length prices < 20)%nat -> f_sma20 r = Null)
    /\ ((2 <= length prices <= 14)%nat -> f_rsi r = Null)
    /\ (length prices = 1%nat -> f_rsi r = Undefined).
Proof.
  intros Hlen. unfold handler_indicators.
  destruct (calculateRSI_entries prices 14) as (rsi & -> & Lrsi & Nrsi & _); [lia|].
  destruct (calculateMACD_lines_shape prices 12 26 9)
    as (m & Hm & Lm & Nm & Ls); try lia.
  rewrite Hm. cbn [bind]. eexists. split; [reflexivity|].
  cbn [f_macd f_macdSignal f_sma50 f_sma20 f_rsi].
  assert (Hnull : forall i, (0 <= i < len (macd m))%Z -> read (macd m) i = Null).
  { intros i Hi. unfold len in Hi. rewrite Lm in Hi.
    apply Nm; unfold len; lia. }
  assert (Hsma : forall P, (Z.of_nat (length prices) < P)%Z ->
                 last_entry (calculateSMA prices P) = Null).
  { intros P HP. rewrite calculateSMA_map. unfold last_entry, read, len.
    rewrite length_map, range_length, Nat.sub_0_r.
    rewrite lookup_range_map by lia. unfold sma_entry.
    destruct (Z.ltb_spec (Z.of_nat (length prices) - 1) (P - 1)); [reflexivity | lia]. }
  split; [|split; [|split; [|split; [|split]]]].
  - apply last_entry_null; [|exact Hnull].
    intros E. rewrite E in Lm. simpl in Lm. lia.
  - rewrite (all_null_filtered (macd m) Hnull) in Ls.
    destruct (signal m); [reflexivity | discriminate].
  - apply Hsma. lia.
  - intros H20. apply Hsma. lia.
  - intros H14. apply last_entry_null.
    + intros E. rewrite E in Lrsi. simpl in Lrsi. lia.
    + intros i Hi. unfold len in Hi. rewrite Lrsi in Hi.
      apply Nrsi; unfold len; lia.
  - intros H1. rewrite H1 in Lrsi. simpl in Lrsi.
    destruct rsi; [reflexivity | discriminate].
Qed.

(** X10.  With at least one and fewer than 26 prices the handler answers
    with [macd] null and [macdSignal] undefined (the signal line is empty,
    and its element at index -1 does not exist) and with [sma50] null;
    [sma20] is null below 20 prices; [rsi] is null for 2 to 14 prices and
    undefined for a single price. *)
Theorem handler_short_history (prices : list T) :
  (1 <= length prices < 26)%nat ->
  exists r,
    handler_indicators prices = Ok r
    /\ f_macd r = Null
    /\ f_macdSignal r = Undefined
    /\ f_sma50 r = Null
    /\ ((length prices < 20)%nat -> f_sma20 r = Null)
    /\ ((2 <= length prices <= 14)%nat -> f_rsi r = Null)
    /\ (length prices = 1%nat -> f_rsi r = Undefined).
Proof. exact (handler_short_history_fields prices). Qed.

End MACD_shape.

Lemma calculateEMA_recurrence_witness :
  (1 <= 3)%Z
  /\ exists ema,
      calculateEMA Examples.S10 3 = Ok ema /\ length ema = length Examples.S10.
Proof.
  assert (H1 : (1 <= 3)%Z) by lia.
  split; [exact H1|].
  destruct (calculateEMA_recurrence Examples.S10 3 H1) as (ema & He & Hl & _).
  exists ema. split; [exact He | exact Hl].
Defined.

Lemma calculateMACD_shape_witness :
  (1 <= 12)%Z /\ (1 <= 26)%Z /\ (1 <= 9)%Z
  /\ exists r,
      calculateMACD Examples.zeros26 12 26 9 = Ok r
      /\ length (macd r) = length Examples.zeros26.
Proof.
  assert (H1 : (1 <= 12)%Z) by lia.
  assert (H2 : (1 <= 26)%Z) by lia.
  assert (H3 : (1 <= 9)%Z) by lia.
  split; [exact H1 | split; [exact H2 | split; [exact H3|]]].
  destruct (calculateMACD_shape Examples.zeros26 12 26 9 H1 H2 H3)
    as (r & Hr & Hl & _).
  exists r. split; [exact Hr | exact Hl].
Defined.

Lemma handler_short_history_witness :
  (1 <= length Examples.S10 < 26)%nat
  /\ exists r,
      handler_indicators Examples.S10 = Ok r
      /\ f_macd r = Null /\ f_macdSignal r = Undefined.
Proof.
  assert (H1 : (1 <= length Examples.S10 < 26)%nat) by (simpl; lia).
  split; [exact H1|].
  destruct (handler_short_history Examples.S10 H1) as (r & Hr & Hm & Hs & _).
  exists r. split; [exact Hr | split; [exact Hm | exact Hs]].
Defined.

(** ** The screening effect *)

Lemma slice_prefix {A} (l : list A) (n : Z) :
  (0 <= n)%Z -> slice l 0 n = firstn (Z.to_nat n) l.
Proof.
  intros Hn. unfold slice, clamp_index.
  destruct (Z.ltb_spec 0 0); [lia|]. destruct (Z.ltb_spec n 0); [lia|].
  rewrite (Z.min_l 0) by (unfold len; lia). cbn [Z.to_nat skipn].
  rewrite Z.sub_0_r. unfold len.
  destruct (Z.min_spec n (Z.of_nat (length l))) as [[_ ->] | [Hle ->]];
    [reflexivity|].
  rewrite Nat2Z.id, firstn_all. symmetry. apply firstn_all2. lia.
Qed.

Section Objects.
Context {V : Type}.

Lemma set_property_keys (o : object V) (k : String.string) (v : V) :
  map fst (set_property o k v)
  = if existsb (String.eqb k) (map fst o) then map fst o else map fst o ++ [k].
Proof.
  induction o as [|[k' w] o IH]; cbn [set_property map fst existsb]; [reflexivity|].
  rewrite (String.eqb_sym k k').
  destruct (String.eqb k' k) eqn:E; cbn [orb map fst]; [reflexivity|].
  rewrite IH. destruct (existsb (String.eqb k) (map fst o)); reflexivity.
Qed.

Lemma existsb_eqb_In (k : String.string) (l : list String.string) :
  existsb (String.eqb k) l = true <-> In k l.
Proof.
  rewrite existsb_exists. split.
  - intros (x & Hx & E). apply String.eqb_eq in E. now subst.
  - intros Hin. exists k. split; [assumption | apply String.eqb_refl].
Qed.

Lemma set_property_In (o : object V) (k k' : String.string) (v : V) :
  In k' (map fst (set_property o k v)) <-> k' = k \/ In k' (map fst o).
Proof.
  rewrite set_property_keys.
  destruct (existsb (String.eqb k) (map fst o)) eqn:E.
  - apply existsb_eqb_In in E. split; [now right|].
    intros [-> | Hin]; assumption.
  - rewrite in_app_iff. cbn [In]. split.
    + intros [Hin | [<- | []]]; auto.
    + intros [-> | Hin]; auto.
Qed.

Lemma set_property_NoDup (o : object V) (k : String.string) (v : V) :
  NoDup (map fst o) -> NoDup (map fst (set_property o k v)).
Proof.
  intros Hnd. rewrite set_property_keys.
  destruct (existsb (String.eqb k) (map fst o)) eqn:E; [assumption|].
  apply NoDup_app; [assumption | repeat constructor; intros [] |].
  intros a Ha [<- | []].
  apply existsb_eqb_In in Ha. congruence.
Qed.

Lemma get_property_set (o : object V) (k : String.string) (v : V) :
  get_property (set_property o k v) k = Some v.
Proof.
  induction o as [|[k' w] o IH]; cbn [set_property get_property].
  - now rewrite String.eqb_refl.
  - destruct (String.eqb k' k) eqn:E; cbn [get_property]; now rewrite E.
Qed.

Lemma insert_index_perm (n : N) (k : String.string) (l : list (N * String.string)) :
  Permutation (insert_index n k l) ((n, k) :: l).
Proof.
  induction l as [|[m j] l IH]; cbn [insert_index]; [reflexivity|].
  destruct (n <? m)%N; [reflexivity|].
  rewrite IH. apply perm_swap.
Qed.

Lemma indices_perm (ks : list String.string) (acc : list (N * String.string)) :
  Permutation
    (map snd
       (fold_left
          (fun acc k =>
             match array_index k with
             | Some n => insert_index n k acc
             | None => acc
             end)
          ks acc))
    (map snd acc ++ filter is_index ks).
Proof.
  revert acc. induction ks as [|k ks IH]; intros acc; cbn [fold_left filter].
  - now rewrite app_nil_r.
  - rewrite IH. unfold is_index at 2. destruct (array_index k) as [n|]; [|reflexivity].
    rewrite (Permutation_map snd (insert_index_perm n k acc)). cbn [map snd].
    apply Permutation_middle.
Qed.

Lemma filter_split_perm (ks : list String.string) :
  Permutation
    (filter is_index ks
     ++ filter (fun k => match array_index k with Some _ => false | None => true end)
          ks)
    ks.
Proof.
  induction ks as [|k ks IH]; cbn [filter app]; [reflexivity|].
  unfold is_index at 1. destruct (array_index k); cbn [app].
  - now constructor.
  - rewrite <- Permutation_middle. now constructor.
Qed.

(** [Object.keys] lists every own key once. *)
Lemma object_keys_perm (o : object V) : Permutation (object_keys o) (map fst o).
Proof.
  unfold object_keys. rewrite indices_perm. cbn [map app].
  apply filter_split_perm.
Qed.

End Objects.

Section Screening.
Context {T : Type} `{JSNumber T} `{JSCompare T}.

Lemma insert_by_score_perm (x : listing T) (l : list (listing T)) :
  Permutation (insert_by_score x l) (x :: l).
Proof.
  induction l as [|y l IH]; cbn [insert_by_score]; [reflexivity|].
  destruct (gt zero (sub (add (roe y) (roi y)) (add (roe x) (roi x))));
    [reflexivity|].
  rewrite IH. apply perm_swap.
Qed.

(** The sort only reorders. *)
Lemma sort_by_score_perm (l : list (listing T)) : Permutation (sort_by_score l) l.
Proof.
  unfold sort_by_score.
  assert (G : forall acc,
             Permutation (fold_left (fun acc x => insert_by_score x acc) l acc)
               (acc ++ l)).
  { induction l as [|x l IH]; intros acc; cbn [fold_left].
    - now rewrite app_nil_r.
    - rewrite IH, insert_by_score_perm. apply Permutation_middle. }
  apply (G []).
Qed.

Lemma fill_up_closed (remainingStocks topStocks : list (listing T)) :
  fill_up topStocks remainingStocks
  = topStocks ++ firstn (10 - length topStocks) remainingStocks.
Proof.
  revert topStocks.
  induction remainingStocks as [|stock rest IH]; intros topStocks;
    cbn [fill_up].
  - now rewrite firstn_nil, app_nil_r.
  - destruct (Nat.ltb_spec (length topStocks) 10) as [Hlt | Hge].
    + rewrite IH, length_app, <- app_assoc. cbn [length app].
      replace (10 - length topStocks)%nat
        with (S (10 - (length topStocks + 1)))%nat by lia.
      reflexivity.
    + replace (10 - length topStocks)%nat with 0%nat by lia.
      now rewrite app_nil_r.
Qed.

(** The keys of sectorCounts are sectors of the counted stocks, each once. *)
Lemma count_sector_keys (stocks : list (listing T)) (sectorCounts : object counter) :
  NoDup (map fst sectorCounts) ->
  NoDup (map fst (fold_left count_sector stocks sectorCounts))
  /\ forall k, In k (map fst (fold_left count_sector stocks sectorCounts)) ->
       In k (map fst sectorCounts) \/ In k (map sector stocks).
Proof.
  revert sectorCounts.
  induction stocks as [|s stocks IH]; intros sectorCounts Hnd;
    cbn [fold_left map].
  - split; [assumption | now left].
  - assert (Hstep : NoDup (map fst (count_sector sectorCounts s))
                    /\ forall k, In k (map fst (count_sector sectorCounts s)) ->
                         In k (map fst sectorCounts) \/ k = sector s).
    { unfold count_sector.
      destruct (String.eqb (sector s) ObjectPrototype.proto); [now split; auto|].
      destruct (get_property sectorCounts (sector s)) as [[c|]|];
        try destruct (existsb _ ObjectPrototype.inherited_names);
        (split; [now apply set_property_NoDup|]);
        intros k Hk; apply set_property_In in Hk; tauto. }
    destruct Hstep as (Hnd' & Hin').
    destruct (IH _ Hnd') as (Hnd'' & Hin''). split; [assumption|].
    intros k Hk. destruct (Hin'' k Hk) as [Hk' | Hk']; [|right; now right].
    destruct (Hin' k Hk') as [? | ->]; [now left | right; now left].
Qed.

(** The sectors from which the effect picks: each once, each the sector of
    a stock that passed the filter. *)
Lemma sectorsWithStocks_spec (filtered : list (listing T)) :
  let sectorCounts := fold_left count_sector filtered [] in
  let sectorsWithStocks :=
    filter (positive_count sectorCounts) (object_keys sectorCounts) in
  NoDup sectorsWithStocks /\ incl sectorsWithStocks (map sector filtered).
Proof.
  cbv zeta.
  destruct (count_sector_keys filtered [] (NoDup_nil _)) as (Hnd & Hin).
  set (sc := fold_left count_sector filtered []) in *.
  pose proof (object_keys_perm sc) as Hp.
  split.
  - apply NoDup_filter. apply (Permutation_NoDup (Permutation_sym Hp) Hnd).
  - intros k Hk. apply filter_In in Hk. destruct Hk as (Hk & _).
    apply (Permutation_in _ Hp) in Hk.
    destruct (Hin k Hk) as [[] | Hs]. exact Hs.
Qed.

Lemma pick_first_fold (filtered : list (listing T)) (secs : list String.string)
    (topStocks : list (listing T)) (usedSectors : list String.string) :
  exists picked,
    fst (fold_left (pick_first filtered) secs (topStocks, usedSectors))
    = topStocks ++ picked
    /\ incl picked filtered.
Proof.
  revert topStocks usedSectors.
  induction secs as [|sec secs IH]; intros topStocks usedSectors;
    cbn [fold_left].
  - exists []. split; [now rewrite app_nil_r | intros ? []].
  - unfold pick_first at 2.
    destruct (filter (fun stock => String.eqb (sector stock) sec) filtered)
      as [|first rest] eqn:E; [apply IH|].
    destruct (existsb (String.eqb sec) usedSectors); [apply IH|].
    destruct (IH (topStocks ++ [first]) (usedSectors ++ [sec]))
      as (picked & Hp & Hincl).
    exists (first :: picked). split.
    + rewrite Hp, <- app_assoc. reflexivity.
    + intros s [<- | Hs]; [|now apply Hincl].
      assert (Hf : In first (filter (fun stock => String.eqb (sector stock) sec)
                               filtered)) by (rewrite E; now left).
      apply filter_In in Hf. tauto.
Qed.

(** From sectors that are all different, all unused and all present among
    the filtered stocks the loop picks one stock each, in order. *)
Lemma pick_first_distinct (filtered : list (listing T))
    (secs : list String.string) (topStocks : list (listing T))
    (usedSectors : list String.string) :
  NoDup secs -> (forall sec, In sec secs -> ~ In sec usedSectors) ->
  incl secs (map sector filtered) ->
  exists picked,
    fst (fold_left (pick_first filtered) secs (topStocks, usedSectors))
    = topStocks ++ picked
    /\ map sector picked = secs.
Proof.
  revert topStocks usedSectors.
  induction secs as [|sec secs IH]; intros topStocks usedSectors Hnd Hun Hin;
    cbn [fold_left].
  - exists []. split; [now rewrite app_nil_r | reflexivity].
  - unfold pick_first at 2.
    destruct (filter (fun stock => String.eqb (sector stock) sec) filtered)
      as [|first rest] eqn:E.
    { exfalso. destruct (proj1 (in_map_iff _ _ _) (Hin sec (or_introl eq_refl)))
        as (s & Hs & Hsin).
      assert (Hf : In s (filter (fun stock => String.eqb (sector stock) sec)
                           filtered)).
      { apply filter_In. split; [assumption|]. now apply String.eqb_eq. }
      rewrite E in Hf. exact Hf. }
    destruct (existsb (String.eqb sec) usedSectors) eqn:Eu.
    { exfalso. apply existsb_eqb_In in Eu. exact (Hun sec (or_introl eq_refl) Eu). }
    inversion Hnd as [|? ? Hnotin Hnd']; subst.
    destruct (IH (topStocks ++ [first]) (usedSectors ++ [sec]) Hnd')
      as (picked & Hp & Hsec).
    + intros sec' Hsec' Hu. apply in_app_iff in Hu.
      destruct Hu as [Hu | [<- | []]]; [|contradiction].
      exact (Hun sec' (or_intror Hsec') Hu).
    + intros sec' Hsec'. apply Hin. now right.
    + exists (first :: picked). split.
      * rewrite Hp, <- app_assoc. reflexivity.
      * cbn [map]. rewrite Hsec. f_equal.
        assert (Hf : In first (filter (fun stock => String.eqb (sector stock) sec)
                                 filtered)) by (rewrite E; now left).
        apply filter_In in Hf. now apply String.eqb_eq.
Qed.

Lemma Some_eq {A} (a b : A) : Some a = Some b -> a = b.
Proof. congruence. Qed.

(** The selection of the effect once the stocks are loaded. *)
Lemma screen_stocks_closed (criteria : screening_criteria T)
    (allStocks : list (listing T)) :
  let filtered := filter (passes criteria) allStocks in
  let sectorCounts := fold_left count_sector filtered [] in
  let sectorsWithStocks :=
    filter (positive_count sectorCounts) (object_keys sectorCounts) in
  let topStocks :=
    fst (fold_left (pick_first filtered) (firstn 4 sectorsWithStocks) ([], [])) in
  let remainingStocks :=
    sort_by_score
      (filter
         (fun stock =>
            negb (existsb (fun ts => String.eqb (symbol ts) (symbol stock))
                    topStocks))
         filtered) in
  screen_stocks false criteria allStocks
  = if (4 <=? length sectorsWithStocks)%nat
    then Some (firstn 10
                 (topStocks
                  ++ firstn (10 - length topStocks) remainingStocks))
    else Some [].
Proof.
  cbv zeta. unfold screen_stocks.
  destruct (4 <=? _)%nat; [|reflexivity].
  rewrite !slice_prefix by lia. now rewrite fill_up_closed.
Qed.

(** X13.  While the stocks are loading the screening effect sets nothing.
    Afterwards it selects at most ten stocks, each of them one of allStocks
    that meets all seven thresholds of the criteria. *)
Theorem screen_stocks_sound (criteria : screening_criteria T)
    (allStocks : list (listing T)) :
  screen_stocks true criteria allStocks = None
  /\ exists selected,
       screen_stocks false criteria allStocks = Some selected
       /\ (length selected <= 10)%nat
       /\ forall stock, In stock selected ->
            In stock allStocks /\ passes criteria stock = true.
Proof.
  split; [reflexivity|]. rewrite screen_stocks_closed. cbv zeta.
  set (filtered := filter (passes criteria) allStocks).
  destruct (4 <=? _)%nat.
  2:{ exists []. split; [reflexivity|]. split; [cbn; lia | intros ? []]. }
  eexists. split; [reflexivity|]. split; [apply firstn_le_length|].
  intros stock Hin. apply In_firstn_list in Hin.
  assert (Hf : In stock filtered); [|apply filter_In in Hf; exact Hf].
  apply in_app_iff in Hin. destruct Hin as [Hin | Hin].
  - destruct (pick_first_fold filtered (firstn 4
               (filter (positive_count (fold_left count_sector filtered []))
                  (object_keys (fold_left count_sector filtered [])))) [] [])
      as (picked & Hp & Hincl).
    rewrite Hp in Hin. now apply Hincl.
  - apply In_firstn_list in Hin.
    apply (Permutation_in _ (sort_by_score_perm _)) in Hin.
    apply filter_In in Hin. tauto.
Qed.

(** X14.  When the stocks that meet the criteria lie in fewer than four
    sectors, the effect selects nothing. *)
Theorem screen_stocks_few_sectors (criteria : screening_criteria T)
    (allStocks : list (listing T)) (sectors : list String.string) :
  (length sectors < 4)%nat ->
  (forall stock, In stock allStocks -> passes criteria stock = true ->
     In (sector stock) sectors) ->
  screen_stocks false criteria allStocks = Some [].
Proof.
  intros Hfew Hsec. rewrite screen_stocks_closed. cbv zeta.
  destruct (sectorsWithStocks_spec (filter (passes criteria) allStocks))
    as (Hnd & Hincl).
  destruct (Nat.leb_spec 4
              (length
                 (filter
                    (positive_count
                       (fold_left count_sector (filter (passes criteria) allStocks) []))
                    (object_keys
                       (fold_left count_sector (filter (passes criteria) allStocks)
                          []))))) as [Hge | Hlt]; [|reflexivity].
  exfalso.
  assert (Hle : (length
                   (filter
                      (positive_count
                         (fold_left count_sector (filter (passes criteria) allStocks)
                            []))
                      (object_keys
                         (fold_left count_sector
                            (filter (passes criteria) allStocks) [])))
                 <= length sectors)%nat).
  { apply NoDup_incl_length; [assumption|].
    intros k Hk. apply Hincl in Hk. apply in_map_iff in Hk.
    destruct Hk as (stock & <- & Hs). apply filter_In in Hs.
    now apply Hsec. }
  lia.
Qed.

(** X15.  A selection that is not empty has at least four stocks, and its
    first four stocks are of four different sectors. *)
Theorem screen_stocks_diversity (criteria : screening_criteria T)
    (allStocks selected : list (listing T)) :
  screen_stocks false criteria allStocks = Some selected ->
  selected <> [] ->
  (4 <= length selected)%nat /\ NoDup (map sector (firstn 4 selected)).
Proof.
  rewrite screen_stocks_closed. cbv zeta.
  set (filtered := filter (passes criteria) allStocks).
  destruct (sectorsWithStocks_spec filtered) as (Hnd & Hincl).
  set (sws := filter (positive_count (fold_left count_sector filtered []))
                (object_keys (fold_left count_sector filtered []))) in *.
  destruct (Nat.leb_spec 4 (length sws)) as [Hge | Hlt].
  2:{ intros E Hne. injection E as <-. congruence. }
  assert (Hnd4 : NoDup (firstn 4 sws)).
  { rewrite <- (firstn_skipn 4 sws) in Hnd. exact (NoDup_app_remove_r _ _ Hnd). }
  destruct (pick_first_distinct filtered (firstn 4 sws) [] [] Hnd4)
    as (picked & Hp & Hsec).
  { intros ? ? []. }
  { intros k Hk. apply Hincl. exact (In_firstn_list _ _ _ Hk). }
  rewrite Hp. cbn [app].
  assert (Hlen : length picked = 4%nat).
  { rewrite <- (length_map sector), Hsec, length_firstn. lia. }
  intros E _. apply Some_eq in E. subst selected. rewrite Hlen.
  rewrite firstn_app, Hlen. cbn [Nat.sub].
  rewrite (firstn_all2 (n := 10) picked) by lia. split.
  - rewrite length_app, length_firstn, Hlen. lia.
  - rewrite firstn_app, Hlen, Nat.sub_diag, firstn_O, app_nil_r.
    rewrite (firstn_all2 (n := 4) picked) by lia. rewrite Hsec. exact Hnd4.
Qed.

Lemma NoDup_map_through {A B C} (f : A -> B) (g : A -> C) (l : list A) :
  (forall a b, In a l -> In b l -> f a = f b -> g a = g b) ->
  NoDup (map g l) -> NoDup (map f l).
Proof.
  induction l as [|a l IH]; intros Hfg Hnd; cbn [map]; [constructor|].
  cbn [map] in Hnd. inversion Hnd as [|? ? Hnotin Hnd']; subst.
  constructor.
  - intros Hin. apply in_map_iff in Hin. destruct Hin as (b & Hb & Hbin).
    apply Hnotin. apply in_map_iff. exists b. split; [|assumption].
    apply Hfg; [now right | now left | assumption].
  - apply IH; [|assumption]. intros x y Hx Hy. apply Hfg; now right.
Qed.

Lemma NoDup_map_injective {A B} (f : A -> B) (l : list A) (a b : A) :
  NoDup (map f l) -> In a l -> In b l -> f a = f b -> a = b.
Proof.
  induction l as [|x l IH]; intros Hnd Ha Hb E; [destruct Ha|].
  cbn [map] in Hnd. inversion Hnd as [|? ? Hnotin Hnd']; subst.
  destruct Ha as [-> | Ha], Hb as [-> | Hb]; auto.
  - exfalso. apply Hnotin. rewrite E. now apply in_map.
  - exfalso. apply Hnotin. rewrite <- E. now apply in_map.
Qed.

(** Filtering keeps the symbols pairwise different. *)
Lemma filter_distinct_symbols (keep : listing T -> bool)
    (stocks : list (listing T)) :
  NoDup (map symbol stocks) -> NoDup (map symbol (filter keep stocks)).
Proof.
  induction stocks as [|x stocks IH]; intros Hnd; cbn [filter map];
    [constructor|].
  cbn [map] in Hnd. apply NoDup_cons_iff in Hnd. destruct Hnd as (Hnotin & Hnd').
  destruct (keep x); cbn [map]; [|now apply IH].
  apply NoDup_cons; [|now apply IH].
  intros Hin. apply Hnotin. apply in_map_iff in Hin.
  destruct Hin as (y & <- & Hy). apply filter_In in Hy. apply in_map. tauto.
Qed.

Lemma NoDup_firstn_list {A} (n : nat) (l : list A) : NoDup l -> NoDup (firstn n l).
Proof.
  intros Hnd. rewrite <- (firstn_skipn n l) in Hnd.
  exact (NoDup_app_remove_r _ _ Hnd).
Qed.

(** X16.  When the symbols of allStocks are all different, no stock is
    selected twice. *)
Theorem screen_stocks_no_repeat (criteria : screening_criteria T)
    (allStocks selected : list (listing T)) :
  NoDup (map symbol allStocks) ->
  screen_stocks false criteria allStocks = Some selected ->
  NoDup (map symbol selected).
Proof.
  intros Hsym. rewrite screen_stocks_closed. cbv zeta.
  set (filtered := filter (passes criteria) allStocks).
  assert (Hfsym : NoDup (map symbol filtered)) by now apply filter_distinct_symbols.
  destruct (sectorsWithStocks_spec filtered) as (Hnd & Hincl).
  set (sws := filter (positive_count (fold_left count_sector filtered []))
                (object_keys (fold_left count_sector filtered []))) in *.
  destruct (Nat.leb_spec 4 (length sws)) as [Hge | Hlt].
  2:{ intros E. injection E as <-. constructor. }
  assert (Hnd4 : NoDup (firstn 4 sws)) by now apply NoDup_firstn_list.
  destruct (pick_first_distinct filtered (firstn 4 sws) [] [] Hnd4)
    as (picked & Hp & Hsec).
  { intros ? ? []. }
  { intros k Hk. apply Hincl. exact (In_firstn_list _ _ _ Hk). }
  destruct (pick_first_fold filtered (firstn 4 sws) [] [])
    as (picked' & Hp' & Hpin).
  rewrite Hp in Hp'. cbn [app] in Hp'. subst picked'.
  rewrite Hp. cbn [app].
  intros E. apply Some_eq in E. subst selected.
  rewrite <- firstn_map. apply NoDup_firstn_list. rewrite map_app.
  apply NoDup_app.
  - apply (NoDup_map_through symbol sector).
    + intros a b Ha Hb Eab. f_equal.
      apply (NoDup_map_injective symbol filtered); auto.
    + rewrite Hsec. exact Hnd4.
  - rewrite <- firstn_map. apply NoDup_firstn_list.
    apply (Permutation_NoDup
             (Permutation_sym (Permutation_map symbol (sort_by_score_perm _)))).
    now apply filter_distinct_symbols.
  - intros sym Htop Hrem. rewrite <- firstn_map in Hrem.
    apply In_firstn_list in Hrem. apply in_map_iff in Hrem.
    destruct Hrem as (stock & <- & Hstock).
    apply (Permutation_in _ (sort_by_score_perm _)) in Hstock.
    apply filter_In in Hstock. destruct Hstock as (_ & Hneg).
    apply negb_true_iff in Hneg.
    apply in_map_iff in Htop. destruct Htop as (ts & Ets & Hts).
    assert (Hex : existsb (fun ts => String.eqb (symbol ts) (symbol stock)) picked
                  = true).
    { apply existsb_exists. exists ts. split; [assumption|].
      now apply String.eqb_eq. }
    congruence.
Qed.

End Screening.

Lemma screen_stocks_few_sectors_witness :
  (length ScreeningExamples.two_sectors < 4)%nat
  /\ (forall stock, In stock ScreeningExamples.small_market ->
        passes ScreeningExamples.default_criteria stock = true ->
        In (sector stock) ScreeningExamples.two_sectors)
  /\ screen_stocks false ScreeningExamples.default_criteria
       ScreeningExamples.small_market = Some [].
Proof.
  assert (H1 : (length ScreeningExamples.two_sectors < 4)%nat) by (simpl; lia).
  assert (H2 : forall stock, In stock ScreeningExamples.small_market ->
                 passes ScreeningExamples.default_criteria stock = true ->
                 In (sector stock) ScreeningExamples.two_sectors).
  { intros stock [<- | [<- | [<- | []]]] _; simpl; auto. }
  split; [exact H1 | split; [exact H2|]].
  exact (screen_stocks_few_sectors ScreeningExamples.default_criteria
           ScreeningExamples.small_market ScreeningExamples.two_sectors H1 H2).
Defined.

Lemma screen_stocks_diversity_witness :
  screen_stocks false ScreeningExamples.default_criteria ScreeningExamples.market
  = Some ScreeningExamples.market_selection
  /\ ScreeningExamples.market_selection <> []
  /\ (4 <= length ScreeningExamples.market_selection)%nat
  /\ NoDup (map sector (firstn 4 ScreeningExamples.market_selection)).
Proof.
  assert (H1 : screen_stocks false ScreeningExamples.default_criteria
                 ScreeningExamples.market
               = Some ScreeningExamples.market_selection)
    by (vm_compute; reflexivity).
  assert (H2 : ScreeningExamples.market_selection <> [])
    by (vm_compute; discriminate).
  split; [exact H1 | split; [exact H2|]].
  exact (screen_stocks_diversity ScreeningExamples.default_criteria
           ScreeningExamples.market ScreeningExamples.market_selection H1 H2).
Defined.

Lemma screen_stocks_no_repeat_witness :
  NoDup (map symbol ScreeningExamples.market)
  /\ screen_stocks false ScreeningExamples.default_criteria ScreeningExamples.market
     = Some ScreeningExamples.market_selection
  /\ NoDup (map symbol ScreeningExamples.market_selection).
Proof.
  assert (H1 : NoDup (map symbol ScreeningExamples.market)).
  { simpl. repeat (constructor; [simpl; intuition discriminate|]). constructor. }
  assert (H2 : screen_stocks false ScreeningExamples.default_criteria
                 ScreeningExamples.market
               = Some ScreeningExamples.market_selection)
    by (vm_compute; reflexivity).
  split; [exact H1 | split; [exact H2|]].
  exact (screen_stocks_no_repeat ScreeningExamples.default_criteria
           ScreeningExamples.market ScreeningExamples.market_selection H1 H2).
Defined.

(** ** getTechnicalSignal *)

(** X17.  In binary64: for a history of 2 to 14 closing prices the
    indicator fields of the handler's response (sma20, sma50, rsi and macd
    null, macdSignal undefined) make getTechnicalSignal return the single
    signal 'RSI Buy', whatever the price field holds: null compares as 0,
    and 0 < 30.  For a single price, where rsi is undefined too, it returns
    no signal. *)
Theorem getTechnicalSignal_short_history (prices : list PrimFloat.float)
    (price : jsval PrimFloat.float) :
  (1 <= length prices <= 14)%nat ->
  exists r,
    handler_indicators prices = Ok r
    /\ getTechnicalSignal (quote_of_response price r)
       = if (length prices =? 1)%nat then [] else [RSI_Buy].
Proof.
  intros Hlen.
  destruct (handler_short_history_fields prices)
    as (r & Hr & Hmacd & Hsig & H50 & H20 & Hrsi & Hrsi1); [lia|].
  exists r. split; [exact Hr|].
  unfold getTechnicalSignal, quote_of_response.
  cbn [q_price q_sma20 q_sma50 q_rsi q_macd q_macdSignal].
  rewrite Hmacd, Hsig, H50, H20 by lia.
  assert (E1 : js_gt (T := PrimFloat.float) Null Null = false)
    by (vm_compute; reflexivity).
  assert (E2 : js_lt (T := PrimFloat.float) Null Null = false)
    by (vm_compute; reflexivity).
  assert (E3 : js_gt (T := PrimFloat.float) Null Undefined = false)
    by (vm_compute; reflexivity).
  assert (E4 : js_lt (T := PrimFloat.float) Null Undefined = false)
    by (vm_compute; reflexivity).
  rewrite E1, E2, E3, E4, !andb_false_r. cbn [app].
  destruct (Nat.eqb_spec (length prices) 1) as [One | More].
  - rewrite (Hrsi1 One).
    assert (E5 : js_lt (T := PrimFloat.float) Undefined (Num (of_Z 30)) = false)
      by (vm_compute; reflexivity).
    assert (E6 : js_gt (T := PrimFloat.float) Undefined (Num (of_Z 70)) = false)
      by (vm_compute; reflexivity).
    now rewrite E5, E6.
  - rewrite Hrsi by lia.
    assert (E5 : js_lt (T := PrimFloat.float) Null (Num (of_Z 30)) = true)
      by (vm_compute; reflexivity).
    now rewrite E5.
Qed.

Lemma getTechnicalSignal_short_history_witness :
  (1 <= length Examples.S10 <= 14)%nat
  /\ exists r,
       handler_indicators Examples.S10 = Ok r
       /\ getTechnicalSignal (quote_of_response (Num 113%float) r) = [RSI_Buy].
Proof.
  assert (H : (1 <= length Examples.S10 <= 14)%nat) by (simpl; lia).
  split; [exact H|].
  exact (getTechnicalSignal_short_history Examples.S10 (Num 113%float) H).
Defined.

(** ** calculateCovarianceMatrix: the shape of the result and its symmetry *)

Section Covariance_shape.
Context {T : Type} `{JSNumber T}.

(** X21.  Whatever the rows after the first hold, and however long they
    are, calculateCovarianceMatrix raises nothing and returns a square
    matrix as wide as the first row. *)
Theorem calculateCovarianceMatrix_square (row0 : list T) (rest : list (list T)) :
  row0 <> [] ->
  exists m,
    calculateCovarianceMatrix (row0 :: rest) = Ok m
    /\ length m = length row0
    /\ Forall (fun row => length row = length row0) m.
Proof.
  intros Hne. eexists. split; [apply calculateCovarianceMatrix_closed; assumption|].
  split; [now rewrite length_map, range_length, Nat.sub_0_r|].
  apply Forall_forall. intros row Hrow. apply in_map_iff in Hrow.
  destruct Hrow as (i & <- & _).
  now rewrite length_map, range_length, Nat.sub_0_r.
Qed.

End Covariance_shape.

Lemma calculateCovarianceMatrix_square_witness :
  [1; 3]%float <> []
  /\ exists m,
       calculateCovarianceMatrix ([1; 3]%float :: [[2; 5]; [4]]%float) = Ok m
       /\ length m = 2%nat
       /\ Forall (fun row => length row = 2%nat) m.
Proof.
  assert (H : [1; 3]%float <> []) by discriminate.
  split; [exact H|].
  exact (calculateCovarianceMatrix_square [1; 3]%float [[2; 5]; [4]]%float H).
Defined.

(** Multiplication in binary64 is commutative. *)
Lemma float64_mul_comm (a b : PrimFloat.float) :
  PrimFloat.mul a b = PrimFloat.mul b a.
Proof.
  apply FloatAxioms.Prim2SF_inj. rewrite !FloatAxioms.mul_spec.
  unfold FloatAxioms.SF64mul, SpecFloat.SFmul.
  destruct (FloatOps.Prim2SF a) as [sa | sa | | sa ma ea],
           (FloatOps.Prim2SF b) as [sb | sb | | sb mb eb];
    try reflexivity; rewrite (xorb_comm sb sa); try reflexivity.
  now rewrite (Pos.mul_comm mb ma), (Z.add_comm eb ea).
Qed.

Section Covariance_symmetry.
Context {T : Type} `{JSNumber T}.
Hypothesis mul_comm : forall a b : T, mul a b = mul b a.

Lemma cov_entry_symmetric (returnsData : list (list T)) (i j : Z) :
  cov_entry returnsData i j = cov_entry returnsData j i.
Proof.
  unfold cov_entry. f_equal. apply fold_left_ext.
  intros sumProduct row. f_equal. apply mul_comm.
Qed.

(** X20.  In every arithmetic whose multiplication is commutative, as that
    of binary64 is, the matrix that calculateCovarianceMatrix returns is
    symmetric: for an input whose first row has K >= 1 entries, the entries
    [i][j] and [j][i] are the same value for all i, j below K, whatever the
    rows hold. *)
Theorem calculateCovarianceMatrix_symmetric (row0 : list T)
    (rest : list (list T)) :
  row0 <> [] ->
  exists m,
    calculateCovarianceMatrix (row0 :: rest) = Ok m
    /\ forall i j, (0 <= i < len row0)%Z -> (0 <= j < len row0)%Z ->
         exists c, at2 m i j = Ok c /\ at2 m j i = Ok c.
Proof.
  intros Hne. eexists.
  split; [apply calculateCovarianceMatrix_closed; assumption|].
  intros i j Hi Hj. exists (cov_entry (row0 :: rest) i j).
  unfold at2, len in *. rewrite !lookup_range_map by assumption.
  rewrite !at_range_map by assumption.
  split; [reflexivity | now rewrite (cov_entry_symmetric _ j i)].
Qed.

End Covariance_symmetry.

(** In binary64, on three days of returns of two assets with fractions. *)
Lemma calculateCovarianceMatrix_symmetric_witness :
  (forall a b : PrimFloat.float, mul a b = mul b a)
  /\ [0.5; 0.25]%float <> []
  /\ exists m,
       calculateCovarianceMatrix
         ([0.5; 0.25]%float :: [[0.125; 3]; [7; 0.75]]%float) = Ok m
       /\ forall i j, (0 <= i < len [0.5; 0.25]%float)%Z ->
            (0 <= j < len [0.5; 0.25]%float)%Z ->
            exists c, at2 m i j = Ok c /\ at2 m j i = Ok c.
Proof.
  assert (H : [0.5; 0.25]%float <> []) by discriminate.
  split; [exact float64_mul_comm | split; [exact H|]].
  exact (@calculateCovarianceMatrix_symmetric PrimFloat.float float64
           float64_mul_comm
           [0.5; 0.25]%float [[0.125; 3]; [7; 0.75]]%float H).
Defined.

(** ** generateEfficientFrontier and maxSharpePoint *)

Section Frontier.
Context {T : Type} `{JSNumber T}.

Lemma insert_by_risk_perm (x : point T) (l : list (point T)) :
  Permutation (insert_by_risk x l) (x :: l).
Proof.
  induction l as [|y l IH]; cbn [insert_by_risk]; [reflexivity|].
  destruct (gt zero (sub (risk x) (risk y))); [reflexivity|].
  rewrite IH. apply perm_swap.
Qed.

Lemma sort_by_risk_perm (l : list (point T)) : Permutation (sort_by_risk l) l.
Proof.
  unfold sort_by_risk.
  assert (G : forall acc,
             Permutation (fold_left (fun acc x => insert_by_risk x acc) l acc)
               (acc ++ l)).
  { induction l as [|x l IH]; intros acc; cbn [fold_left].
    - now rewrite app_nil_r.
    - rewrite IH, insert_by_risk_perm. apply Permutation_middle. }
  apply (G []).
Qed.

Lemma generateEfficientFrontier_sorted_points (selectedStocks : list (stock T))
    (rnd : nat -> T) :
  selectedStocks <> [] ->
  generateEfficientFrontier selectedStocks rnd
  = sort_by_risk
      (map (frontier_point selectedStocks (frontier_returns selectedStocks) rnd)
         (range 0 50)).
Proof.
  intros Hne. unfold generateEfficientFrontier.
  destruct (Nat.eqb_spec (length selectedStocks) 0) as [E | _].
  { destruct selectedStocks; [congruence | discriminate E]. }
  cbv zeta. apply (f_equal sort_by_risk).
  rewrite fold_left_ext
    with (g := fun pts i =>
                 pts ++ [frontier_point selectedStocks
                           (frontier_returns selectedStocks) rnd i])
    by reflexivity.
  now rewrite fold_push, app_nil_l.
Qed.

(** X22.  For a selection that is not empty generateEfficientFrontier
    returns fifty points: the points of the fifty vectors of weights that it
    draws, each with the metrics of its own weights, in some order. *)
Theorem generateEfficientFrontier_fifty (selectedStocks : list (stock T))
    (rnd : nat -> T) :
  selectedStocks <> [] ->
  length (generateEfficientFrontier selectedStocks rnd) = 50%nat
  /\ Permutation (generateEfficientFrontier selectedStocks rnd)
       (map (frontier_point selectedStocks (frontier_returns selectedStocks) rnd)
          (range 0 50)).
Proof.
  intros Hne. rewrite generateEfficientFrontier_sorted_points by assumption.
  pose proof (sort_by_risk_perm
                (map (frontier_point selectedStocks
                        (frontier_returns selectedStocks) rnd) (range 0 50)))
    as Hp.
  split; [|exact Hp].
  rewrite (Permutation_length Hp), length_map, range_length. reflexivity.
Qed.

Lemma fold_keep_In (l : list (point T)) (first : point T) :
  In (fold_left
        (fun max point =>
           if gt (sharpeRatio point) (sharpeRatio max) then point else max)
        l first)
     (first :: l).
Proof.
  revert first. induction l as [|p l IH]; intros first; cbn [fold_left].
  - now left.
  - destruct (gt (sharpeRatio p) (sharpeRatio first)).
    + right. apply IH.
    + destruct (IH first) as [E | Hin]; [left; exact E | right; right; exact Hin].
Qed.

Lemma findMaxSharpeRatio_In (l : list (point T)) (p : point T) :
  findMaxSharpeRatio l = Some p -> In p l.
Proof.
  destruct l as [|first rest]; [discriminate|].
  unfold findMaxSharpeRatio. intros E. apply Some_eq in E. subst p.
  destruct (fold_keep_In (first :: rest) first) as [E | Hin];
    [left; exact E | exact Hin].
Qed.

(** X23.  maxSharpePoint is null exactly when no stock is selected;
    otherwise it is one of the points of the efficient frontier. *)
Theorem maxSharpePoint_spec (selectedStocks : list (stock T)) (rnd : nat -> T) :
  (maxSharpePoint selectedStocks rnd = None <-> selectedStocks = [])
  /\ forall p, maxSharpePoint selectedStocks rnd = Some p ->
       In p (generateEfficientFrontier selectedStocks rnd).
Proof.
  unfold maxSharpePoint. split.
  - split.
    + intros E. destruct selectedStocks as [|s ss]; [reflexivity|].
      exfalso.
      assert (Hlen : length (generateEfficientFrontier (s :: ss) rnd) = 50%nat).
      { rewrite generateEfficientFrontier_sorted_points by discriminate.
        now rewrite (Permutation_length (sort_by_risk_perm _)), length_map,
          range_length. }
      destruct (generateEfficientFrontier (s :: ss) rnd) as [|first rest];
        [discriminate Hlen|].
      discriminate E.
    + intros ->. reflexivity.
  - intros p.
    destruct (0 <? length (generateEfficientFrontier selectedStocks rnd))%nat;
      [apply findMaxSharpeRatio_In | discriminate].
Qed.

End Frontier.

Lemma generateEfficientFrontier_fifty_witness :
  Examples.two_stocks <> []
  /\ length (generateEfficientFrontier Examples.two_stocks Examples.half_draws)
     = 50%nat
  /\ Permutation
       (generateEfficientFrontier Examples.two_stocks Examples.half_draws)
       (map (frontier_point Examples.two_stocks
               (frontier_returns Examples.two_stocks) Examples.half_draws)
          (range 0 50)).
Proof.
  assert (H : Examples.two_stocks <> []) by discriminate.
  split; [exact H|].
  exact (generateEfficientFrontier_fifty Examples.two_stocks
           Examples.half_draws H).
Defined.

Section Frontier_order.
Context {T : Type} `{JSNumber T}.

Variable pts : list (point T).
Hypothesis asymmetric :
  forall p q, In p pts -> In q pts ->
    sorts_before p q = true -> sorts_before q p = false.
Hypothesis transitive :
  forall p q r, In p pts -> In q pts -> In r pts ->
    sorts_before q p = false -> sorts_before r q = false ->
    sorts_before r p = false.

Lemma insert_by_risk_sorted (x : point T) (l : list (point T)) :
  In x pts -> incl l pts ->
  StronglySorted (fun p q => sorts_before q p = false) l ->
  StronglySorted (fun p q => sorts_before q p = false) (insert_by_risk x l).
Proof.
  intros Hx Hl Hs.
  induction Hs as [|y r Hs IH Hall]; cbn [insert_by_risk].
  - constructor; constructor.
  - assert (Hy : In y pts) by (apply Hl; now left).
    assert (Hr : incl r pts) by (intros z Hz; apply Hl; now right).
    fold (sorts_before x y).
    destruct (sorts_before x y) eqn:E.
    + constructor; [now constructor|].
      constructor; [now apply asymmetric|].
      apply Forall_forall. intros z Hz.
      apply (transitive x y z Hx Hy (Hr z Hz)).
      * now apply asymmetric.
      * exact (proj1 (Forall_forall _ _) Hall z Hz).
    + constructor; [now apply IH|].
      apply (Permutation_Forall (Permutation_sym (insert_by_risk_perm x r))).
      constructor; [exact E | exact Hall].
Qed.

Lemma sort_by_risk_sorted (l : list (point T)) :
  incl l pts ->
  StronglySorted (fun p q => sorts_before q p = false) (sort_by_risk l).
Proof.
  unfold sort_by_risk.
  assert (G : forall acc,
             incl l pts -> incl acc pts ->
             StronglySorted (fun p q => sorts_before q p = false) acc ->
             StronglySorted (fun p q => sorts_before q p = false)
               (fold_left (fun acc x => insert_by_risk x acc) l acc)).
  { induction l as [|x l IH]; intros acc Hl Hacc Hs; cbn [fold_left];
      [exact Hs|].
    assert (Hx : In x pts) by (apply Hl; now left).
    apply IH.
    - intros z Hz. apply Hl. now right.
    - intros z Hz.
      apply (Permutation_in _ (insert_by_risk_perm x acc)) in Hz.
      destruct Hz as [<- | Hz]; auto.
    - now apply insert_by_risk_sorted. }
  intros Hl. apply G; [assumption | intros ? [] | constructor].
Qed.

End Frontier_order.

Lemma consistent_order_spec {T} `{JSNumber T} (pts : list (point T)) :
  consistent_order pts = true ->
  (forall p q, In p pts -> In q pts ->
     sorts_before p q = true -> sorts_before q p = false)
  /\ (forall p q r, In p pts -> In q pts -> In r pts ->
        sorts_before q p = false -> sorts_before r q = false ->
        sorts_before r p = false).
Proof.
  unfold consistent_order. intros Hc.
  assert (Hpq : forall p q, In p pts -> In q pts ->
            implb (sorts_before p q) (negb (sorts_before q p)) = true
            /\ forallb
                 (fun r =>
                    implb (negb (sorts_before q p) && negb (sorts_before r q))
                      (negb (sorts_before r p)))
                 pts = true).
  { intros p q Hp Hq.
    pose proof (proj1 (forallb_forall _ _) Hc p Hp) as Hrow. cbv beta in Hrow.
    pose proof (proj1 (forallb_forall _ _) Hrow q Hq) as Hcell.
    cbv beta in Hcell. now apply andb_true_iff in Hcell. }
  split.
  - intros p q Hp Hq E. destruct (Hpq p q Hp Hq) as (Ha & _).
    rewrite E in Ha. cbn [implb] in Ha. now apply negb_true_iff in Ha.
  - intros p q r Hp Hq Hr Eqp Erq. destruct (Hpq p q Hp Hq) as (_ & Ht).
    pose proof (proj1 (forallb_forall _ _) Ht r Hr) as Hcell. cbv beta in Hcell.
    rewrite Eqp, Erq in Hcell. cbn [negb andb implb] in Hcell.
    now apply negb_true_iff in Hcell.
Qed.

(** X24.  When the comparator of the sort orders the fifty sampled points
    consistently, the points of generateEfficientFrontier come out in
    ascending order of risk: the comparator wants no point before any point
    that precedes it in the result.  Proved for every arithmetic, binary64
    included. *)
Theorem generateEfficientFrontier_ascending {T} `{JSNumber T}
    (selectedStocks : list (stock T)) (rnd : nat -> T) :
  selectedStocks <> [] ->
  consistent_order
    (map (frontier_point selectedStocks (frontier_returns selectedStocks) rnd)
       (range 0 50)) = true ->
  StronglySorted (fun p q => sorts_before q p = false)
    (generateEfficientFrontier selectedStocks rnd).
Proof.
  intros Hne Hc. destruct (consistent_order_spec _ Hc) as (Ha & Ht).
  rewrite generateEfficientFrontier_sorted_points by assumption.
  apply (sort_by_risk_sorted _ Ha Ht). intros p Hp. exact Hp.
Qed.

(** In binary64, on two stocks with 252 returns each: the comparator orders
    the sampled points consistently, their risks are not sampled in
    ascending order, and the risks of the result are, each less than the
    next. *)
Lemma generateEfficientFrontier_ascending_witness :
  FrontierExamples.stocks <> []
  /\ consistent_order FrontierExamples.sampled = true
  /\ StronglySorted (fun p q => sorts_before q p = false)
       (generateEfficientFrontier FrontierExamples.stocks FrontierExamples.draws)
  /\ FrontierExamples.ascending (map risk FrontierExamples.sampled) = false
  /\ FrontierExamples.ascending
       (map risk
          (generateEfficientFrontier FrontierExamples.stocks
             FrontierExamples.draws)) = true.
Proof.
  assert (H1 : FrontierExamples.stocks <> []) by discriminate.
  assert (H2 : consistent_order FrontierExamples.sampled = true)
    by (vm_compute; reflexivity).
  split; [exact H1 | split; [exact H2 | split; [|split]]].
  - exact (generateEfficientFrontier_ascending FrontierExamples.stocks
             FrontierExamples.draws H1 H2).
  - vm_compute. reflexivity.
  - vm_compute. reflexivity.
Defined.

Section Frontier_nan.
Local Open Scope R_scope.

(** *** Series shorter than 252 days *)

Lemma fold_absorb {A} (g : xreal -> A -> xreal) (l : list A) (acc : xreal) :
  (forall a, g XNaN a = XNaN) ->
  (exists e, In e l /\ forall s, g s e = XNaN) ->
  fold_left g l acc = XNaN.
Proof.
  intros Hnan (e & He & Habs). revert acc.
  induction l as [|a l IH]; intros acc; [destruct He|]. cbn [fold_left].
  destruct He as [-> | He]; [|now apply IH].
  rewrite Habs. clear - Hnan. induction l as [|b l IH]; cbn [fold_left]; [reflexivity|].
  now rewrite Hnan.
Qed.

Lemma reducei_absorb {A} (f : xreal -> A -> Z -> xreal) (l : list A) (k : Z)
    (acc : xreal) :
  (forall a i, f XNaN a i = XNaN) ->
  (exists e, In e l /\ forall s i, f s e i = XNaN) ->
  reducei_from f k l acc = XNaN.
Proof.
  intros Hnan (e & He & Habs). revert k acc.
  induction l as [|a l IH]; intros k acc; [destruct He|]. cbn [reducei_from].
  destruct He as [-> | He]; [|now apply IH].
  rewrite Habs. generalize (k + 1)%Z. clear - Hnan.
  induction l as [|b l IH]; intros k; cbn [reducei_from]; [reflexivity|].
  rewrite Hnan. apply IH.
Qed.

Lemma xadd_nan_r (a : xreal) : XReal.xadd a XNaN = XNaN.
Proof. now destruct a. Qed.

(** One NaN among the returns makes all three results NaN. *)
Lemma calculatePortfolioMetrics_nan (w : list xreal) (returns : list (list xreal)) :
  (exists row, In row returns /\ In XNaN row) ->
  let pm := calculatePortfolioMetrics w returns in
  m_return pm = XNaN /\ m_volatility pm = XNaN /\ m_sharpeRatio pm = XNaN.
Proof.
  intros (row & Hrow & Hnan). cbv zeta.
  unfold calculatePortfolioMetrics. cbv zeta.
  cbn [m_return m_volatility m_sharpeRatio].
  set (portfolioReturns := map _ returns).
  assert (Hin : In XNaN portfolioReturns).
  { unfold portfolioReturns. apply in_map_iff. exists row. split; [|assumption].
    unfold reducei. apply reducei_absorb.
    - intros a i. reflexivity.
    - exists XNaN. split; [assumption|]. intros s i. xsimpl.
      cbn [XReal.xmul]. apply xadd_nan_r. }
  assert (Hsum : sum0 portfolioReturns = XNaN).
  { unfold sum0. apply fold_absorb.
    - intros a. reflexivity.
    - exists XNaN. split; [assumption|]. intros s. apply xadd_nan_r. }
  rewrite Hsum.
  rewrite fold_absorb.
  - xsimpl. cbn [XReal.xdiv XReal.xmul XReal.xsqrt XReal.xstrict_neq]. auto.
  - intros a. reflexivity.
  - exists XNaN. split; [assumption|]. intros s. unfold pow2. xsimpl.
    cbn [XReal.xdiv XReal.xsub XReal.xmul]. apply xadd_nan_r.
Qed.

(** X25.  A selected stock with fewer than 252 daily returns makes the risk,
    the return and the Sharpe ratio of every point of the frontier NaN: the
    rows of the missing days hold undefined. *)
Theorem generateEfficientFrontier_short_history
    (selectedStocks : list (stock xreal)) (rnd : nat -> xreal) :
  (exists s, In s selectedStocks /\ (length (dailyReturns s) < 252)%nat) ->
  forall p, In p (generateEfficientFrontier selectedStocks rnd) ->
    risk p = XNaN /\ p_return p = XNaN /\ sharpeRatio p = XNaN.
Proof.
  intros (s & Hs & Hshort) p Hp.
  rewrite generateEfficientFrontier_sorted_points in Hp
    by (destruct selectedStocks; [destruct Hs | discriminate]).
  apply (Permutation_in _ (sort_by_risk_perm _)) in Hp.
  apply in_map_iff in Hp. destruct Hp as (i & <- & _).
  unfold frontier_point. cbn [risk p_return sharpeRatio].
  refine ((fun P => conj (proj1 (proj2 P)) (conj (proj1 P) (proj2 (proj2 P))))
            (calculatePortfolioMetrics_nan _ _ _)).
  exists (map (fun stock => at_ (dailyReturns stock) 251) selectedStocks). split.
  - unfold frontier_returns.
    apply (in_map (fun i => map (fun stock => at_ (dailyReturns stock) i)
                              selectedStocks) (range 0 252) 251%Z).
    unfold range. apply in_map_iff. exists 251%nat. split; [reflexivity|].
    apply in_seq. lia.
  - apply in_map_iff. exists s. split; [|assumption].
    unfold at_. rewrite lookup_beyond; [reflexivity|]. unfold len. lia.
Qed.

Lemma generateEfficientFrontier_short_history_witness :
  (exists s, In s (stocks_of two_assets) /\ (length (dailyReturns s) < 252)%nat)
  /\ forall p,
       In p (generateEfficientFrontier (stocks_of two_assets)
               (fun _ => Fin (1 / 2))) ->
       risk p = XNaN /\ p_return p = XNaN /\ sharpeRatio p = XNaN.
Proof.
  assert (H : exists s, In s (stocks_of two_assets)
                        /\ (length (dailyReturns s) < 252)%nat).
  { exists {| dailyReturns := map Fin [1; 3] |}. split; [now left | simpl; lia]. }
  split; [exact H|].
  exact (generateEfficientFrontier_short_history (stocks_of two_assets)
           (fun _ => Fin (1 / 2)) H).
Defined.

End Frontier_nan.

(** ** runMonteCarloSimulation: when it throws and when it returns *)

Section MonteCarlo.
Context {T : Type} `{JSNumber T}.

Lemma range_cons (n : nat) : range 0 (S n) = 0%Z :: range 1 (S n).
Proof.
  unfold range. rewrite Nat.sub_0_r.
  replace (S n - 1)%nat with n by lia. reflexivity.
Qed.

(** One trial reads nothing out of the matrix when the matrix has a row
    for each stock. *)
Lemma monte_carlo_trial_total (numStocks : nat) (covMatrix : list (list T))
    (means weights : list T) :
  (numStocks <= length covMatrix)%nat ->
  exists s, monte_carlo_trial numStocks covMatrix means weights = Ok s.
Proof.
  intros Hrows. unfold monte_carlo_trial.
  destruct (for_loop_total
              (fun r acc =>
                 for_loop
                   (fun c acc =>
                      x <- at2 covMatrix r c ;;
                      Ok (add acc (mul (mul (at_ weights r) (at_ weights c)) x)))
                   (range 0 numStocks) acc)
              (range 0 numStocks) zero) as (v & Hv).
  - intros r acc Hr. apply in_range in Hr. apply for_loop_total.
    intros c acc' _. unfold at2.
    destruct (lookup covMatrix r) as [row|] eqn:E.
    + cbn [bind]. eexists. reflexivity.
    + exfalso. unfold lookup in E. destruct (Z.ltb_spec r 0); [lia|].
      apply nth_error_None in E. lia.
  - rewrite Hv. cbn [bind]. eexists. reflexivity.
Qed.

(** X27.  When the first selected stock has no daily returns, a run of at
    least one simulation throws a TypeError: the covariance matrix is
    empty, and the first trial reads covMatrix[0][0]. *)
Theorem runMonteCarloSimulation_empty_series (first : stock T)
    (rest : list (stock T)) (rnd : nat -> T) (numSimulations : nat) :
  dailyReturns first = [] -> (1 <= numSimulations)%nat ->
  runMonteCarloSimulation (first :: rest) rnd numSimulations = Throw TypeError.
Proof.
  intros Hempty Hn. unfold runMonteCarloSimulation.
  cbn [length Nat.eqb map transposedReturns]. rewrite Hempty.
  cbn [mapi mapi_from calculateCovarianceMatrix bind].
  destruct numSimulations as [|n]; [lia|].
  rewrite range_cons. cbn [for_loop].
  unfold monte_carlo_trial at 1. rewrite range_cons. cbn [for_loop].
  reflexivity.
Qed.

(** X28.  When the first selected stock has at least one daily return, a
    run raises nothing and returns one sample for each simulation. *)
Theorem runMonteCarloSimulation_total (first : stock T)
    (rest : list (stock T)) (rnd : nat -> T) (numSimulations : nat) :
  dailyReturns first <> [] ->
  exists results,
    runMonteCarloSimulation (first :: rest) rnd numSimulations
    = Ok (Some results)
    /\ length results = numSimulations.
Proof.
  intros Hne. unfold runMonteCarloSimulation.
  cbn [length Nat.eqb].
  set (selectedStocks := first :: rest).
  set (K := S (length rest)).
  assert (Hcov : exists covMatrix,
             calculateCovarianceMatrix
               (transposedReturns (map dailyReturns selectedStocks))
             = Ok covMatrix
             /\ length covMatrix = K).
  { destruct (dailyReturns first) as [|x0 xs] eqn:E; [congruence|].
    unfold selectedStocks. cbn [map transposedReturns]. rewrite E.
    cbn [mapi mapi_from].
    rewrite calculateCovarianceMatrix_closed by (cbn [map]; discriminate).
    eexists. split; [reflexivity|].
    rewrite length_map, range_length, Nat.sub_0_r. cbn [map length].
    now rewrite !length_map. }
  destruct Hcov as (covMatrix & -> & Hrows). cbn [bind].
  destruct (for_loop_collect
              (fun i =>
                 monte_carlo_trial K covMatrix (meanDailyReturns selectedStocks)
                   (random_weights rnd K (Z.to_nat i * K)))
              (fun _ _ => True) (range 0 numSimulations) [])
    as (ss & Hloop & Hall).
  { intros i _.
    destruct (monte_carlo_trial_total K covMatrix
                (meanDailyReturns selectedStocks)
                (random_weights rnd K (Z.to_nat i * K))) as (s & Hs); [lia|].
    exists s. split; [exact Hs | exact I]. }
  exists ss. split.
  - rewrite Hloop. reflexivity.
  - apply Forall2_length in Hall. rewrite range_length in Hall. lia.
Qed.

End MonteCarlo.

Lemma runMonteCarloSimulation_empty_series_witness :
  (1 <= 1)%nat
  /\ runMonteCarloSimulation
       ({| dailyReturns := [] |} :: Examples.one_stock) Examples.half_draws 1
     = Throw TypeError.
Proof.
  assert (H : (1 <= 1)%nat) by lia.
  split; [exact H|].
  exact (runMonteCarloSimulation_empty_series {| dailyReturns := [] |}
           Examples.one_stock Examples.half_draws 1 eq_refl H).
Defined.

Lemma runMonteCarloSimulation_total_witness :
  [1; 3]%float <> []
  /\ exists results,
       runMonteCarloSimulation Examples.two_stocks Examples.half_draws 3
       = Ok (Some results)
       /\ length results = 3%nat.
Proof.
  assert (H : [1; 3]%float <> []) by discriminate.
  split; [exact H|].
  exact (runMonteCarloSimulation_total {| dailyReturns := [1; 3]%float |}
           [{| dailyReturns := [2; 5]%float |}] Examples.half_draws 3 H).
Defined.

